(** * JTD parser compiler ([lib/compile/jtd/parse.ts])

    The source is a code generator: every [parseX(cxt)] emits JavaScript
    statements through [gen].  The embedding below is shallow in the emitted
    language: each [gen] operation is interpreted directly as the meaning of
    the statement it emits (a transformer of the run-time state of one parser
    invocation), so a generator function of the source becomes a function that
    returns the meaning of the code it emits.  Generation-time effects (fresh
    names, the in-flight registry, [MissingRefError]) live in a separate
    state-and-exception monad. *)

From Stdlib Require Import String Ascii List ZArith Bool Arith Lia.
Import ListNotations.
Local Open Scope string_scope.
Set Warnings "-register-all".

(** ** JavaScript values *)

(** The values a parser handles.  An object holds its prototype (what
    [Object.getPrototypeOf] gives: [Object.prototype] for the objects the
    code creates with [{}], [null], or an object stored there through
    [__proto__]) and its own properties.  [JObjectPrototype] is
    [Object.prototype] itself and [JFunction] one of the functions it holds:
    they are never stored, only seen when a property is read that the object
    does not own. *)
Inductive JsVal : Type :=
| JUndefined
| JNull
| JBool (b : bool)
| JNum (z : Z)
| JStr (s : string)
| JArr (items : list JsVal)
| JObject (proto : JsVal) (fields : list (string * JsVal))
| JObjectPrototype
| JFunction (name : string).

(** An object whose prototype is [Object.prototype], as [{}] makes it. *)
Abbreviation JObj fields := (JObject JObjectPrototype fields).

(** [v === undefined] *)
Definition is_undefined (v : JsVal) : bool :=
  match v with JUndefined => true | _ => false end.

(** [v === "s"] for a string literal [s] *)
Definition strict_eq_str (v : JsVal) (s : string) : bool :=
  match v with JStr t => String.eqb t s | _ => false end.

(** [typeof v] is ["object"] or ["function"], and [v] is not [null] *)
Definition is_object (v : JsVal) : bool :=
  match v with
  | JArr _ | JObject _ _ | JObjectPrototype | JFunction _ => true
  | _ => false
  end.

Definition is_null (v : JsVal) : bool :=
  match v with JNull => true | _ => false end.

(** *** Own properties *)

Fixpoint obj_has (fields : list (string * JsVal)) (k : string) : bool :=
  match fields with
  | [] => false
  | (k', _) :: rest => String.eqb k' k || obj_has rest k
  end.

Fixpoint obj_get (fields : list (string * JsVal)) (k : string) : JsVal :=
  match fields with
  | [] => JUndefined
  | (k', v) :: rest => if String.eqb k' k then v else obj_get rest k
  end.

(** The value of a run of decimal digits. *)
Fixpoint digits_value (s : string) (acc : N) : option N :=
  match s with
  | EmptyString => Some acc
  | String c rest =>
      let n := nat_of_ascii c in
      if Nat.leb 48 n && Nat.leb n 57
      then digits_value rest (10 * acc + N.of_nat (n - 48))%N
      else None
  end.

(** Whether a property name is an array index: the decimal text, without
    leading zeros, of a number below [2^32 - 1]. *)
Definition array_index (k : string) : option N :=
  match k with
  | EmptyString => None
  | String c rest =>
      if Nat.eqb (nat_of_ascii c) 48 && negb (String.eqb rest EmptyString)
      then None
      else match digits_value k 0%N with
           | Some n => if (n <? 4294967295)%N then Some n else None
           | None => None
           end
  end.

(** The own properties are listed as JavaScript lists them: array indices
    first, in ascending order, then the other names in the order in which
    they were created. *)
Fixpoint insert_index (fields : list (string * JsVal)) (n : N) (k : string)
  (v : JsVal) : list (string * JsVal) :=
  match fields with
  | [] => [(k, v)]
  | (k', v') :: rest =>
      match array_index k' with
      | Some n' =>
          if (n' <? n)%N then (k', v') :: insert_index rest n k v
          else (k, v) :: fields
      | None => (k, v) :: fields
      end
  end.

(** A new own property. *)
Definition obj_insert (fields : list (string * JsVal)) (k : string) (v : JsVal)
  : list (string * JsVal) :=
  match array_index k with
  | Some n => insert_index fields n k v
  | None => fields ++ [(k, v)]
  end.

(** A new value for an own property, which keeps its place. *)
Fixpoint obj_replace (fields : list (string * JsVal)) (k : string) (v : JsVal)
  : list (string * JsVal) :=
  match fields with
  | [] => []
  | (k', v') :: rest =>
      if String.eqb k' k then (k', v) :: rest
      else (k', v') :: obj_replace rest k v
  end.

(** Defining the own property [k] (as a property of an object literal or of
    the result of [JSON.parse] is defined: no setter is consulted). *)
Definition obj_set (fields : list (string * JsVal)) (k : string) (v : JsVal)
  : list (string * JsVal) :=
  if obj_has fields k then obj_replace fields k v else obj_insert fields k v.

(** [arr[i] = v]: in range replaces, out of range extends (holes are
    [undefined]). *)
Fixpoint arr_set (items : list JsVal) (i : nat) (v : JsVal) : list JsVal :=
  match i, items with
  | O, [] => [v]
  | O, _ :: rest => v :: rest
  | S j, [] => JUndefined :: arr_set [] j v
  | S j, x :: rest => x :: arr_set rest j v
  end.

(** [Object.prototype.hasOwnProperty.call(o, k)] *)
Definition isOwnProperty (o : JsVal) (k : string) : bool :=
  match o with JObject _ fields => obj_has fields k | _ => false end.

(** *** Inherited properties *)

(** The names of the functions that [Object.prototype] holds; besides them
    it holds the accessor [__proto__]. *)
Definition object_prototype_names : list string :=
  ["constructor"; "__defineGetter__"; "__defineSetter__"; "hasOwnProperty";
   "__lookupGetter__"; "__lookupSetter__"; "isPrototypeOf";
   "propertyIsEnumerable"; "toString"; "valueOf"; "toLocaleString"].

(** What a lookup of [k] finds on [Object.prototype], for an object whose
    own prototype is [receiver_proto]: the accessor [__proto__] yields the
    prototype of the object the lookup started from. *)
Definition object_prototype_get (receiver_proto : JsVal) (k : string) : JsVal :=
  if String.eqb k "__proto__" then receiver_proto
  else if existsb (String.eqb k) object_prototype_names then JFunction k
  else JUndefined.

(** The lookup of [k] along the prototype chain that starts at [p].  Of an
    array in the chain only its elements and its length are modelled, not
    the functions of [Array.prototype]. *)
Fixpoint chain_get (receiver_proto : JsVal) (p : JsVal) (k : string) : JsVal :=
  match p with
  | JObject p' fields =>
      if obj_has fields k then obj_get fields k
      else chain_get receiver_proto p' k
  | JArr items =>
      match array_index k with
      | Some n =>
          if Nat.ltb (N.to_nat n) (List.length items)
          then nth (N.to_nat n) items JUndefined
          else object_prototype_get receiver_proto k
      | None =>
          if String.eqb k "length" then JNum (Z.of_nat (List.length items))
          else object_prototype_get receiver_proto k
      end
  | JObjectPrototype | JFunction _ => object_prototype_get receiver_proto k
  | _ => JUndefined
  end.

(** Whether an assignment to [__proto__] of an object with prototype [p]
    reaches the setter of [Object.prototype]: the chain leads there and no
    object on the way owns a property of that name. *)
Fixpoint has_proto_setter (p : JsVal) : bool :=
  match p with
  | JObject p' fields => negb (obj_has fields "__proto__") && has_proto_setter p'
  | JArr _ | JObjectPrototype | JFunction _ => true
  | _ => false
  end.

(** [o[k]] for an object [o] and a property name [k] *)
Definition js_index (o : JsVal) (k : string) : JsVal :=
  match o with
  | JObject proto fields =>
      if obj_has fields k then obj_get fields k else chain_get proto proto k
  | _ => JUndefined
  end.

(** The object [o] after [o[k] = v].  An own property gets the value; the
    name [__proto__], when the object does not own it and inherits the
    accessor of [Object.prototype], runs the setter, which makes an object
    or [null] the prototype and ignores every other value; any other name
    becomes a new own property. *)
Definition js_set_index (o : JsVal) (k : string) (v : JsVal) : JsVal :=
  match o with
  | JObject proto fields =>
      if obj_has fields k then JObject proto (obj_replace fields k v)
      else if String.eqb k "__proto__" && has_proto_setter proto then
        if is_object v || is_null v then JObject v fields else o
      else JObject proto (obj_insert fields k v)
  | _ => o
  end.

(** The array [a] after [a[i] = v] for a number [i]. *)
Definition js_set_item (a : JsVal) (i : nat) (v : JsVal) : JsVal :=
  match a with JArr items => JArr (arr_set items i v) | _ => a end.

(** *** Data targets

    The expression [cxt.data] that generated code assigns is a variable or,
    under [parsePropertyValue] and for additional properties, a property
    [data[key]] of the target of the enclosing object.  At run time it is the
    path of property names that leads from the variable to the place: the
    empty path is the variable itself.  The objects of one invocation form a
    tree under the variable, so a change inside the object at a place is
    written back through the place. *)
Definition Target := list string.

(** The value of the target, given the value [r] of its variable. *)
Fixpoint read (r : JsVal) (t : Target) : JsVal :=
  match t with
  | [] => r
  | k :: t' => read (js_index r k) t'
  end.

(** The value of the variable after the target was assigned [v]. *)
Fixpoint assign (r : JsVal) (t : Target) (v : JsVal) : JsVal :=
  match t with
  | [] => v
  | k :: t' => js_set_index r k (assign (js_index r k) t' v)
  end.

(** ** Parse errors and scanner results *)

Record ParseError : Type := mkError { message : string; position : nat }.

(** What an external scanner call [f(json, jsonPos, ...)] yields: the pair
    [[data, pos]] it returns and the value of [f.error] after the call. *)
Record ScanResult : Type :=
  mkScan { sr_data : JsVal; sr_pos : nat; sr_error : option ParseError }.

(** ** Schemas, as the generator reads them *)

Inductive Schema : Type := mkSchema {
  elements : option Schema;
  values : option Schema;
  discriminator : option string;
  mapping : list (string * Schema);
  properties : option (list (string * Schema));
  optionalProperties : option (list (string * Schema));
  additionalProperties : bool;
  enum : option (list string);
  type : option string;
  ref : option string;
  nullable : bool }.

(** A map from names to schemas ([definitions], [properties], [mapping]):
    its own properties, in the order in which [for ... in] and [Object.keys]
    list them. *)
Definition SchemaObjectMap := list (string * Schema).

Definition empty_schema : Schema :=
  mkSchema None None None [] None None false None None None false.

(** The own property [name] of a map. *)
Fixpoint own_schema (defs : SchemaObjectMap) (name : string)
  : option Schema :=
  match defs with
  | [] => None
  | (k, s) :: rest => if String.eqb k name then Some s else own_schema rest name
  end.

(** What [definitions[name]] finds on [Object.prototype] when the map has no
    own property of that name, read as the generator reads a schema: one of
    the functions of [object_prototype_names], or for [__proto__] the
    prototype itself.  None of them holds a form key or [nullable], except
    that [constructor] is the function [Object], which holds [values] (the
    function [Object.values], itself without any such key). *)
Definition inherited_schema (name : string) : option Schema :=
  if String.eqb name "constructor" then
    Some (mkSchema None (Some empty_schema) None [] None None false None None
            None false)
  else if String.eqb name "__proto__"
          || existsb (String.eqb name) object_prototype_names
  then Some empty_schema
  else None.

(** [definitions[name]]: the lookup follows the prototype chain of the map,
    an object whose prototype is [Object.prototype]. *)
Definition definitions_get (defs : SchemaObjectMap) (name : string)
  : option Schema :=
  match own_schema defs name with
  | Some s => Some s
  | None => inherited_schema name
  end.

Inductive JTDForm : Type :=
| F_elements | F_values | F_discriminator | F_properties
| F_optionalProperties | F_enum | F_type | F_ref.

(** Modelled from the spec: the constant [jtdForms] of [./types] is not part
    of the sources at hand; the spec gives the fixed priority order
    {elements, values, discriminator, properties, optionalProperties, enum,
    type, ref}. *)
Definition jtdForms : list JTDForm :=
  [F_elements; F_values; F_discriminator; F_properties;
   F_optionalProperties; F_enum; F_type; F_ref].

Definition present {A : Type} (o : option A) : bool :=
  match o with Some _ => true | None => false end.

(** [key in schema] *)
Definition key_in (key : JTDForm) (schema : Schema) : bool :=
  match key with
  | F_elements => present (elements schema)
  | F_values => present (values schema)
  | F_discriminator => present (discriminator schema)
  | F_properties => present (properties schema)
  | F_optionalProperties => present (optionalProperties schema)
  | F_enum => present (enum schema)
  | F_type => present (type schema)
  | F_ref => present (ref schema)
  end.

(** ** Run-time state of generated code *)

(** Names created by [gen.scopeName("parse")]: one per compiled function,
    which is also the identity of that function's [.error] slot. *)
Definition ParseName := nat.

(** References to [SchemaEnv] objects. *)
Definition EnvId := nat.

(** The [.error] properties of all compiled parse functions. *)
Definition Errs := ParseName -> option ParseError.

Definition upd {V : Type} (k : nat) (v : V) (f : nat -> V) : nat -> V :=
  fun k' => if Nat.eqb k' k then v else f k'.

(** [jsonPos] and the error slots; [json], [jsonLen] and [jsonPart] never
    change during an invocation and live in [REnv]. *)
Record RState : Type := mkState { jsonPos : nat; errs : Errs }.

(** What a compiled parse function returns: [data] or [[data, jsonPos]]. *)
Inductive RetVal : Type :=
| RVal (v : JsVal)
| RPair (v : JsVal) (pos : nat).

(** Result of calling a compiled parse function: the returned value and the
    error slots afterwards, or an exception.  [CDiverge] is the bound of the
    model on the turns of a loop, used up before the loop ended. *)
Inductive CallOutcome : Type :=
| CRet (v : RetVal) (e : Errs)
| CThrow (msg : string)
| CDiverge.

(** What the engine throws when a call finds the call stack used up. *)
Definition stack_overflow : string :=
  "RangeError: Maximum call stack size exceeded".

(** A callable parse function: [fn_name] identifies its [.error] slot. *)
Record FnObj : Type := mkFn {
  fn_name : ParseName;
  fn_call : string -> option nat -> bool -> Errs -> CallOutcome }.

Record REnv : Type := mkEnv {
  json : string;
  jsonPart : bool;
  fuel : nat;                        (* bound on loop iterations *)
  wrapper : EnvId -> option FnObj    (* [wrapper.parse] of each SchemaEnv *) }.

Definition jsonLen (env : REnv) : nat := String.length (json env).

(** How a statement ends.  [L] is the type of the variables of the enclosing
    [for] loop, handed over by [break]; [A] is the type of the variables a
    statement sequence leaves behind when it falls through. *)
Inductive Outcome (L A : Type) : Type :=
| Next (a : A) (st : RState)
| Break (l : L) (st : RState)
| Return (v : RetVal) (st : RState)
| Throw (msg : string)
| Diverge.
Arguments Next {L A} a st.
Arguments Break {L A} l st.
Arguments Return {L A} v st.
Arguments Throw {L A} msg.
Arguments Diverge {L A}.

Definition Stmt (L A : Type) : Type := REnv -> RState -> Outcome L A.

Definition ret {L A} (a : A) : Stmt L A := fun _ st => Next a st.

Definition bind {L A B} (s : Stmt L A) (k : A -> Stmt L B) : Stmt L B :=
  fun env st =>
    match s env st with
    | Next a st' => k a env st'
    | Break l st' => Break l st'
    | Return v st' => Return v st'
    | Throw m => Throw m
    | Diverge => Diverge
    end.

Notation "x <- s ;; k" := (bind s (fun x => k))
  (at level 61, s at next level, right associativity).
Notation "s ;; k" := (bind s (fun _ => k))
  (at level 61, right associativity).

(** Code generated for a sub-schema has no [break] of its own; inside the
    body of a loop it runs unchanged. *)
Definition lift {L A} (s : Stmt Empty_set A) : Stmt L A :=
  fun env st =>
    match s env st with
    | Next a st' => Next a st'
    | Break l _ => match l with end
    | Return v st' => Return v st'
    | Throw m => Throw m
    | Diverge => Diverge
    end.

(** *** The [gen] operations used by the generator *)

Definition gen_if {L A} (cond : REnv -> RState -> bool)
  (thenBody elseBody : Stmt L A) : Stmt L A :=
  fun env st => if cond env st then thenBody env st else elseBody env st.

(** [gen.if(c1) ... gen.elseIf(c2) ... gen.else() ... gen.endIf()] *)
Fixpoint if_chain {L A} (branches : list ((REnv -> RState -> bool) * Stmt L A))
  (elseBody : Stmt L A) : Stmt L A :=
  match branches with
  | [] => elseBody
  | (cond, body) :: rest => gen_if cond body (if_chain rest elseBody)
  end.

Definition gen_break {L A} (l : L) : Stmt L A := fun _ st => Break l st.

Definition gen_return {L A} (v : REnv -> RState -> RetVal) : Stmt L A :=
  fun env st => Return (v env st) st.

Definition gen_throw {L A} (msg : string) : Stmt L A := fun _ _ => Throw msg.

(** [gen.add(N.jsonPos, n)] *)
Definition gen_add_jsonPos {L} (n : nat) : Stmt L unit :=
  fun _ st => Next tt (mkState (jsonPos st + n) (errs st)).

(** [gen.assign(N.jsonPos, pos)] *)
Definition gen_assign_jsonPos {L} (pos : nat) : Stmt L unit :=
  fun _ st => Next tt (mkState pos (errs st)).

(** [gen.for(`;cond;`, body)].  The loop variables [acc] are threaded through
    the iterations; [break] leaves the loop with the variables it carries. *)
Fixpoint for_loop {L A} (n : nat) (cond : REnv -> RState -> bool)
  (body : A -> Stmt A A) (acc : A) (env : REnv) (st : RState) : Outcome L A :=
  if cond env st then
    match n with
    | O => Diverge
    | S m =>
        match body acc env st with
        | Next a st' => for_loop m cond body a env st'
        | Break a st' => Next a st'
        | Return v st' => Return v st'
        | Throw msg => Throw msg
        | Diverge => Diverge
        end
    end
  else Next acc st.

Definition gen_for {L A} (cond : REnv -> RState -> bool)
  (body : A -> Stmt A A) (acc : A) : Stmt L A :=
  fun env st => for_loop (fuel env) cond body acc env st.

(** The one-character string holding a double quote. *)
Definition dquote : string := String "034"%char EmptyString.

(** ** Imported collaborators

    The token scanner ([../../runtime/parseJson], [../timestamp]) and the
    tables [intRange] ([../../vocabularies/jtd/type]) and [hasRef]
    ([../../vocabularies/jtd/ref]) are imported by the source; the generator
    is parametric in them. *)
Record Imports : Type := mkImports {
  skipWhitespace : string -> nat -> nat;
  parseJsonString : string -> nat -> ScanResult;
  parseJsonNumber : string -> nat -> option nat -> ScanResult;
  parseJson : string -> nat -> ScanResult;
  validTimestamp : JsVal -> option bool;   (* [None]: the call throws *)
  intRange : string -> option (Z * Z * nat);
  hasRef : Schema -> bool }.

(** ** Generation context *)

(** [sch.parse]: the function made from the generated source.  Its meaning
    is open in the loop bound and in the [wrapper] objects it reaches. *)
Record ParseFunc : Type := mkParseFunc {
  pf_name : ParseName;
  pf_code : nat -> (EnvId -> option FnObj) ->
            string -> option nat -> bool -> Errs -> CallOutcome }.

(** [gen] needs no counterpart: emitted code is returned.  [data] is an
    expression of the emitted language, whose meaning is known when the code
    runs: emitted code takes the [Target] that [data] denotes and the value
    of the variable it starts from, and yields the value of that variable
    afterwards (see [Code] below). *)
Record ParseCxt : Type := mkCxt {
  schemaEnv : EnvId;
  definitions : SchemaObjectMap;
  schema : Schema;
  parseName : ParseName }.

Definition with_schema (cxt : ParseCxt) (sch : Schema) : ParseCxt :=
  mkCxt (schemaEnv cxt) (definitions cxt) sch (parseName cxt).

(** The function expression of a call site. *)
Inductive FuncExpr : Type :=
| FScan (f : string -> nat -> ScanResult)   (* scopeValue("func", {ref}) *)
| FParse (f : ParseFunc)                     (* scopeValue("parse", {ref: sch.parse}) *)
| FWrapper (id : EnvId).                     (* scopeValue("wrapper", {ref: sch}).parse *)

(** ** JavaScript built-ins used at generation time *)

Definition hex_digit (n : nat) : ascii :=
  nth n ["0"; "1"; "2"; "3"; "4"; "5"; "6"; "7"; "8"; "9";
         "a"; "b"; "c"; "d"; "e"; "f"]%char "0"%char.

Definition json_escape_char (c : ascii) : string :=
  let n := nat_of_ascii c in
  if Nat.eqb n 34 then String "\"%char dquote
  else if Nat.eqb n 92 then "\\"
  else if Nat.eqb n 8 then "\b"
  else if Nat.eqb n 12 then "\f"
  else if Nat.eqb n 10 then "\n"
  else if Nat.eqb n 13 then "\r"
  else if Nat.eqb n 9 then "\t"
  else if Nat.ltb n 32 then
    "\u00" ++ String (hex_digit (n / 16)) (String (hex_digit (n mod 16)) EmptyString)
  else String c EmptyString.

Fixpoint json_escape (s : string) : string :=
  match s with
  | EmptyString => EmptyString
  | String c rest => json_escape_char c ++ json_escape rest
  end.

(** [JSON.stringify(s)] for a string [s] (code units below 128). *)
Definition JSON_stringify (s : string) : string :=
  dquote ++ json_escape s ++ dquote.

(** [s.slice(1)] *)
Definition slice1 (s : string) : string :=
  match s with EmptyString => EmptyString | String _ rest => rest end.

(** ["-0123456789".indexOf(c) >= 0] for a one-character string [c] *)
Definition is_digit_or_minus (c : string) : bool :=
  match c with
  | String a EmptyString =>
      let n := nat_of_ascii a in
      Nat.eqb n 45 || (Nat.leb 48 n && Nat.leb n 57)
  | _ => false
  end.

(** ** Code emitted by the leaf generators *)

Section Emit.
Variable I : Imports.
Context {L : Type}.

(** [jsonSlice(len)] *)
Definition jsonSlice (len : nat) (env : REnv) (st : RState) : JsVal :=
  if Nat.eqb len 1 then
    match String.get (jsonPos st) (json env) with
    | Some c => JStr (String c EmptyString)
    | None => JUndefined
    end
  else JStr (substring (jsonPos st) len (json env)).

(** ["..." + v] for the values [jsonSlice(1)] can take *)
Definition js_to_string (v : JsVal) : string :=
  match v with JStr s => s | _ => "undefined" end.

Definition parsingError {A} (cxt : ParseCxt) (err : option ParseError)
  : Stmt L A :=
  fun env st =>
    let st' := mkState (jsonPos st) (upd (parseName cxt) err (errs st)) in
    Return (if jsonPart env then RPair JUndefined (jsonPos st')
            else RVal JUndefined) st'.

Definition parsingErrorMsg {A} (cxt : ParseCxt) (msg : string) : Stmt L A :=
  fun env st =>
    parsingError cxt (Some (mkError msg (jsonPos st))) env st.

Definition jsonSyntaxError {A} (cxt : ParseCxt) : Stmt L A :=
  fun env st =>
    parsingErrorMsg cxt
      ("unexpected token " ++ js_to_string (jsonSlice 1 env st)) env st.

Definition whitespace : Stmt L unit :=
  fun env st =>
    Next tt (mkState (skipWhitespace I (json env) (jsonPos st)) (errs st)).

Definition tryParseToken {A} (cxt : ParseCxt) (tok : string)
  (fail : Stmt L A) (success : Stmt L A) : Stmt L A :=
  let n := String.length tok in
  whitespace ;;
  gen_if (fun env st => strict_eq_str (jsonSlice n env st) tok)
    (gen_add_jsonPos n ;; success)
    fail.

Definition parseToken (cxt : ParseCxt) (tok : string) : Stmt L unit :=
  tryParseToken cxt tok (jsonSyntaxError cxt) (ret tt).

(** [parseFunc(json, jsonPos, args)] and [parseFunc.error] afterwards. *)
Definition apply_func (parseFunc : FuncExpr) (env : REnv) (st : RState)
  : Outcome L (JsVal * nat * option ParseError * Errs) :=
  let call (f : FnObj) :=
    match fn_call f (json env) (Some (jsonPos st)) true (errs st) with
    | CRet (RPair d p) e => Next (d, p, e (fn_name f), e) st
    | CRet (RVal _) _ => Throw "TypeError: not iterable"
    | CThrow m => Throw m
    | CDiverge => Diverge
    end in
  match parseFunc with
  | FScan f =>
      let r := f (json env) (jsonPos st) in
      Next (sr_data r, sr_pos r, sr_error r, errs st) st
  | FParse f =>
      call (mkFn (pf_name f) (pf_code f (fuel env) (wrapper env)))
  | FWrapper id =>
      match wrapper env id with
      | Some f => call f
      | None => Throw "TypeError: parse is not a function"
      end
  end.

(** Emitted code that works on a data target: given the target and the value
    of its variable it leaves the value of the variable. *)
Definition CodeOf (L : Type) : Type := Target -> JsVal -> Stmt L JsVal.

(** [partialParse]: the destructuring assignment [[data, jsonPos] = f(...)]
    stores the first component in the target, and the test reads the target
    back. *)
Definition partialParse (cxt : ParseCxt) (parseFunc : FuncExpr) : CodeOf L :=
  fun t r =>
    res <- apply_func parseFunc ;;
    let '(d, p, ferr, e) := res in
    let r1 := assign r t d in
    (fun _ _ => Next tt (mkState p e)) ;;
    gen_if (fun _ _ => is_undefined (read r1 t))
      (parsingError cxt ferr)
      (ret r1).

Definition parseWith (cxt : ParseCxt) (parseFunc : string -> nat -> ScanResult)
  : CodeOf L :=
  partialParse cxt (FScan parseFunc).

Definition parseEmpty (cxt : ParseCxt) : CodeOf L :=
  parseWith cxt (parseJson I).

Definition parseString (cxt : ParseCxt) : CodeOf L :=
  fun t r => parseToken cxt dquote ;; parseWith cxt (parseJsonString I) t r.

Definition parseNumber (cxt : ParseCxt) (maxDigits : option nat) : CodeOf L :=
  fun t r =>
    whitespace ;;
    gen_if (fun env st =>
              match jsonSlice 1 env st with
              | JStr c => negb (is_digit_or_minus c)
              | _ => true
              end)
      (jsonSyntaxError cxt)
      (parseWith cxt (fun j p => parseJsonNumber I j p maxDigits) t r).

Definition parseBoolean (b : bool) (fail : ParseCxt -> CodeOf L)
  : ParseCxt -> CodeOf L :=
  fun cxt t r =>
    tryParseToken cxt (if b then "true" else "false")
      (fail cxt t r)
      (ret (assign r t (JBool b))).

Definition parseEnum (cxt : ParseCxt) : CodeOf L :=
  fun t r =>
    let enumSch := match enum (schema cxt) with Some l => l | None => [] end in
    parseToken cxt dquote ;;
    if_chain
      ((fun _ _ => false, ret r) ::
       map (fun value =>
              let valueStr := slice1 (JSON_stringify value) in
              (fun env st =>
                 strict_eq_str (jsonSlice (String.length valueStr) env st) valueStr,
               gen_add_jsonPos (String.length valueStr) ;;
               ret (assign r t (JStr value))))
           enumSch)
      (jsonSyntaxError cxt).

(** [data < min || data > max], for what the target can hold after the
    number scanner came back: a number, or with the target [__proto__] the
    prototype, which compares as [NaN] does. *)
Definition out_of_range (data : JsVal) (min max : Z) : bool :=
  match data with
  | JNum z => (z <? min)%Z || (z >? max)%Z
  | _ => false
  end.

(** What the engine throws when [validTimestamp], which handles its argument
    as a string, is called with a value that is none. *)
Definition timestamp_type_error : string :=
  "TypeError: str.split is not a function".

(** [parseType]; [None] is the [TypeError] of destructuring
    [intRange[schema.type]] when the table has no such entry. *)
Definition parseType (cxt : ParseCxt) : option (CodeOf L) :=
  let ty := match type (schema cxt) with Some t => t | None => "undefined" end in
  if String.eqb ty "boolean" then
    Some (parseBoolean true
            (parseBoolean false (fun cxt _ _ => jsonSyntaxError cxt)) cxt)
  else if String.eqb ty "string" then Some (parseString cxt)
  else if String.eqb ty "timestamp" then
    Some (fun t r =>
            r1 <- parseString cxt t r ;;
            match validTimestamp I (read r1 t) with
            | Some valid =>
                gen_if (fun _ _ => negb valid)
                  (parsingErrorMsg cxt "invalid timestamp")
                  (ret r1)
            | None => gen_throw timestamp_type_error
            end)
  else if String.eqb ty "float32" || String.eqb ty "float64" then
    Some (parseNumber cxt None)
  else
    match intRange I ty with
    | Some (min, max, maxDigits) =>
        Some (fun t r =>
                r1 <- parseNumber cxt (Some maxDigits) t r ;;
                gen_if (fun _ _ => out_of_range (read r1 t) min max)
                  (parsingErrorMsg cxt "integer out of range")
                  (ret r1))
    | None => None
    end.

(** [checkDuplicateProperty]; [data] is the object the target holds. *)
Definition checkDuplicateProperty (data : JsVal) (key : JsVal)
  : Stmt L unit :=
  gen_if (fun _ _ => isOwnProperty data (js_to_string key))
    (gen_throw ("JSON: duplicate property " ++ js_to_string key))
    (ret tt).
End Emit.

(** ** The compiling instance *)

(** Which schema object a [SchemaEnv] holds: the one handed to the outermost
    [compileParser], or [definitions[name]].  Stands for object identity in
    [sameSchemaEnv]. *)
Inductive SchemaId : Type :=
| TopSchema
| DefSchema (name : string).

Definition SchemaId_eqb (a b : SchemaId) : bool :=
  match a, b with
  | TopSchema, TopSchema => true
  | DefSchema x, DefSchema y => String.eqb x y
  | _, _ => false
  end.

Record SchemaEnv : Type := mkSchemaEnv {
  se_schema : Schema;
  se_schema_id : SchemaId;
  se_root : EnvId;
  se_parse : option ParseFunc;
  se_parseName : option ParseName }.

(** The part of the [Ajv] instance the parser compiler touches. *)
Record Ajv : Type := mkAjv {
  _compilations : list EnvId;          (* Set<SchemaEnv> *)
  envs : EnvId -> option SchemaEnv;    (* the SchemaEnv objects *)
  next_env : EnvId;                    (* allocation of [new SchemaEnv] *)
  scope_names : nat                    (* [gen.scopeName] counter *) }.

Inductive Exn : Type :=
| MissingRefError (baseId ref msg : string)
| TypeError (msg : string).

(** Result of a generation step; [NoFuel] is the recursion bound of the
    model, not a behaviour of the source. *)
Inductive Res (A : Type) : Type :=
| Ok (a : A)
| Thrown (e : Exn)
| NoFuel.
Arguments Ok {A} a.
Arguments Thrown {A} e.
Arguments NoFuel {A}.

Definition CM (A : Type) : Type := Ajv -> Res A * Ajv.

Definition cm_ret {A} (a : A) : CM A := fun s => (Ok a, s).

Definition cm_bind {A B} (m : CM A) (k : A -> CM B) : CM B :=
  fun s =>
    match m s with
    | (Ok a, s') => k a s'
    | (Thrown e, s') => (Thrown e, s')
    | (NoFuel, s') => (NoFuel, s')
    end.

Definition cm_throw {A} (e : Exn) : CM A := fun s => (Thrown e, s).

Notation "'let*' x ':=' m 'in' k" := (cm_bind m (fun x => k))
  (at level 10, x name, m at level 100, k at level 200).

Fixpoint cm_map {A B} (f : A -> CM B) (l : list A) : CM (list B) :=
  match l with
  | [] => cm_ret []
  | x :: rest =>
      let* y := f x in
      let* ys := cm_map f rest in
      cm_ret (y :: ys)
  end.

(** [try { body } catch (e) { handler; throw e } finally { final }] *)
Definition try_catch_rethrow_finally {A} (body : CM A)
  (handler final : Ajv -> Ajv) : CM A :=
  fun s =>
    match body s with
    | (Ok a, s') => (Ok a, final s')
    | (Thrown e, s') => (Thrown e, final (handler s'))
    | (NoFuel, s') => (NoFuel, s')
    end.

Definition set_env (id : EnvId) (e : SchemaEnv) (s : Ajv) : Ajv :=
  mkAjv (_compilations s) (upd id (Some e) (envs s)) (next_env s) (scope_names s).

Definition modify_env (id : EnvId) (f : SchemaEnv -> SchemaEnv) (s : Ajv) : Ajv :=
  match envs s id with
  | Some e => set_env id (f e) s
  | None => s
  end.

Definition set_parse (p : option ParseFunc) (e : SchemaEnv) : SchemaEnv :=
  mkSchemaEnv (se_schema e) (se_schema_id e) (se_root e) p (se_parseName e).

Definition set_parseName (n : option ParseName) (e : SchemaEnv) : SchemaEnv :=
  mkSchemaEnv (se_schema e) (se_schema_id e) (se_root e) (se_parse e) n.

(** [this._compilations.add(sch)] *)
Definition compilations_add (id : EnvId) (s : Ajv) : Ajv :=
  mkAjv (if existsb (Nat.eqb id) (_compilations s) then _compilations s
         else id :: _compilations s)
        (envs s) (next_env s) (scope_names s).

(** [this._compilations.delete(sch)] *)
Definition compilations_delete (id : EnvId) (s : Ajv) : Ajv :=
  mkAjv (filter (fun x => negb (Nat.eqb x id)) (_compilations s))
        (envs s) (next_env s) (scope_names s).

(** [gen.scopeName("parse")] *)
Definition scopeName : CM ParseName :=
  fun s => (Ok (scope_names s),
            mkAjv (_compilations s) (envs s) (next_env s) (S (scope_names s))).

(** [new SchemaEnv({schema, root})] *)
Definition new_SchemaEnv (sch : Schema) (sid : SchemaId) (root : EnvId)
  : CM EnvId :=
  fun s =>
    let id := next_env s in
    (Ok id,
     mkAjv (_compilations s)
           (upd id (Some (mkSchemaEnv sch sid root None None)) (envs s))
           (S id) (scope_names s)).

Definition sameSchemaEnv (s1 s2 : SchemaEnv) : bool :=
  SchemaId_eqb (se_schema_id s1) (se_schema_id s2)
  && Nat.eqb (se_root s1) (se_root s2).

(** Modelled from the spec: [getCompilingSchema] of [lib/compile/index] is
    not part of the sources at hand.  The spec has the coordinator check its
    in-flight registry and hand back the in-flight environment of the same
    (schema, definitions) identity. *)
Definition getCompilingSchema (s : Ajv) (id : EnvId) : option EnvId :=
  match envs s id with
  | None => None
  | Some schEnv =>
      find (fun c => match envs s c with
                     | Some sch => sameSchemaEnv sch schEnv
                     | None => false
                     end)
           (_compilations s)
  end.

(** ** The form generators

    [parseCode] and [compileParser] call each other through [parseRef]; the
    generators are written against the two recursive entries, which are tied
    below by a bound on the nesting of generator calls. *)

Section Forms.
Variable I : Imports.

(** Code emitted for a schema: it has no [break] of its own. *)
Definition Code : Type := CodeOf Empty_set.

Variable parseCode : ParseCxt -> CM Code.
Variable compileParser : EnvId -> SchemaObjectMap -> CM EnvId.

Definition GenParse : Type := ParseCxt -> CM Code.

(** A schema key that is read but absent yields [undefined]; reading a
    property of [undefined] at generation time is a [TypeError]. *)
Definition sub_schema (o : option Schema) : CM Schema :=
  match o with
  | Some s => cm_ret s
  | None => cm_throw (TypeError "Cannot use 'in' operator in undefined")
  end.

(** The loop condition of [tryParseItems]:
    [jsonPos<jsonLen && json[jsonPos]!==endToken]. *)
Definition items_cond (endToken : string) (env : REnv) (st : RState) : bool :=
  Nat.ltb (jsonPos st) (jsonLen env)
  && negb (strict_eq_str (jsonSlice 1 env st) endToken).

(** The loop body of [tryParseItems]: the block, then a comma or [break]. *)
Definition items_body {A} (cxt : ParseCxt) (block : A -> Stmt A A) (acc : A)
  : Stmt A A :=
  acc' <- block acc ;;
  tryParseToken I cxt "," (gen_break acc') (ret acc').

Definition tryParseItems {L A} (cxt : ParseCxt) (endToken : string)
  (block : A -> Stmt A A) (acc : A) : Stmt L A :=
  gen_for (items_cond endToken) (items_body cxt block) acc.

Definition parseItems {L A} (cxt : ParseCxt) (endToken : string)
  (block : A -> Stmt A A) (acc : A) : Stmt L A :=
  acc' <- tryParseItems cxt endToken block acc ;;
  parseToken I cxt endToken ;;
  ret acc'.

(** The block [parseElements] hands to [parseItems]: one element, parsed
    into the fresh variable [el] and stored at index [ix], which is then
    incremented.  The loop variables are the variable of the target and
    [ix]. *)
Definition elements_block (elCode : Code) (t : Target)
  (vars : JsVal * nat) : Stmt (JsVal * nat) (JsVal * nat) :=
  let '(r, ix) := vars in
  el <- lift (elCode [] JUndefined) ;;
  ret (assign r t (js_set_item (read r t) ix el), S ix).

Definition parseElements : GenParse := fun cxt =>
  let* sch := sub_schema (elements (schema cxt)) in
  let* elCode := parseCode (with_schema cxt sch) in
  cm_ret (fun t r =>
    parseToken I cxt "[" ;;
    res <- parseItems cxt "]" (elements_block elCode t)
             (assign r t (JArr []), 0) ;;
    ret (fst res)).

(** [parsePropertyValue]: the code of [schema] with the target
    [data[key]]. *)
Definition parsePropertyValue (cxt : ParseCxt) (sch : Schema)
  : CM (JsVal -> CodeOf JsVal) :=
  let* code := parseCode (with_schema cxt sch) in
  cm_ret (fun key t r => lift (code (t ++ [js_to_string key])%list r)).

(** [parseKeyValue]: the key is parsed into the fresh variable [key]. *)
Definition parseKeyValue (cxt : ParseCxt) (sch : Schema)
  : CM (CodeOf JsVal) :=
  let* valueCode := parsePropertyValue cxt sch in
  cm_ret (fun t r =>
            key <- parseString I cxt [] JUndefined ;;
            checkDuplicateProperty (read r t) key ;;
            parseToken I cxt ":" ;;
            valueCode key t r).

Definition parseValues : GenParse := fun cxt =>
  let* sch := sub_schema (values (schema cxt)) in
  let* block := parseKeyValue cxt sch in
  cm_ret (fun t r =>
    parseToken I cxt "{" ;;
    parseItems cxt "}" (block t) (assign r t (JObj []))).

(** [parseDefinedProperty]: one [else if (key === prop)] branch per
    property, in the order in which [for ... in] lists the schema's
    properties. *)
Definition parseDefinedProperty (cxt : ParseCxt)
  (schemas : option (list (string * Schema)))
  : CM (list (string * (JsVal -> CodeOf JsVal))) :=
  cm_map (fun '(prop, sch) =>
            let* code := parsePropertyValue cxt sch in
            cm_ret (prop, code))
         (match schemas with Some l => l | None => [] end).

Definition defined_branches
  (codes : list (string * (JsVal -> CodeOf JsVal)))
  (key : JsVal) (t : Target) (r : JsVal)
  : list ((REnv -> RState -> bool) * Stmt JsVal JsVal) :=
  map (fun '(prop, code) =>
         (fun (_ : REnv) (_ : RState) => strict_eq_str key prop, code key t r))
      codes.

(** [Object.keys(properties).map(p => hasProp.call(data, p))], joined by
    [and]. *)
Definition allProps (props : list (string * Schema)) (data : JsVal) : bool :=
  forallb (fun p => isOwnProperty data (fst p)) props.

(** [if (discriminator)]: the parameter was given and is not the empty
    string. *)
Definition given (discriminator : option string) : bool :=
  match discriminator with
  | Some d => negb (String.eqb d EmptyString)
  | None => false
  end.

(** [key === discriminator] *)
Definition is_tag (key : JsVal) (discriminator : option string) : bool :=
  match discriminator with
  | Some d => strict_eq_str key d
  | None => false
  end.

(** What the block of [parseSchemaProperties] emits after the key and its
    duplicate check: the colon and the chain of branches that parses the
    value. *)
Definition parseSchemaProperties_value (cxt : ParseCxt)
  (discriminator : option string)
  (required optional : list (string * (JsVal -> CodeOf JsVal)))
  (key : JsVal) : CodeOf JsVal :=
  fun t r =>
    parseToken I cxt ":" ;;
    if_chain
      ([(fun _ _ => false, ret r)]
       ++ defined_branches required key t r
       ++ defined_branches optional key t r
       ++ (if given discriminator then
             [(fun _ _ => is_tag key discriminator,
               _tag <- parseString I cxt [] JUndefined ;; ret r)]
           else []))
      (if additionalProperties (schema cxt) then
         parseEmpty I cxt (t ++ [js_to_string key])%list r
       else
         parsingErrorMsg cxt
           ("property " ++ js_to_string key ++ " not allowed")).

(** The block [parseSchemaProperties] hands to [parseItems]: one key, parsed
    into the fresh variable [key], and its value. *)
Definition parseSchemaProperties_block (cxt : ParseCxt)
  (discriminator : option string)
  (required optional : list (string * (JsVal -> CodeOf JsVal)))
  : CodeOf JsVal :=
  fun t r =>
    key <- parseString I cxt [] JUndefined ;;
    (if given discriminator then
       gen_if (fun _ _ => negb (is_tag key discriminator))
         (checkDuplicateProperty (read r t) key) (ret tt)
     else checkDuplicateProperty (read r t) key) ;;
    parseSchemaProperties_value cxt discriminator required optional key t r.

(** The test that follows the loop of [parseSchemaProperties] when the
    schema has [properties]. *)
Definition required_check (cxt : ParseCxt) (props : list (string * Schema))
  : CodeOf Empty_set :=
  fun t r =>
    gen_if (fun _ _ => negb (allProps props (read r t)))
      (parsingErrorMsg cxt "missing required properties")
      (ret r).

(** [parseSchemaProperties]: the emitted code continues the object the
    target holds (which already holds the tag on a discriminator reparse).
    The function [and] of the code generator, which is not part of the
    sources at hand, folds its arguments without an initial value: when
    [properties] is there and names no property, it throws a [TypeError]
    while the code is generated. *)
Definition parseSchemaProperties (cxt : ParseCxt)
  (discriminator : option string) : CM Code :=
  let sch := schema cxt in
  let* required := parseDefinedProperty cxt (properties sch) in
  let* optional := parseDefinedProperty cxt (optionalProperties sch) in
  match properties sch with
  | Some [] =>
      cm_throw (TypeError "Reduce of empty array with no initial value")
  | Some props =>
      cm_ret (fun t r =>
        r' <- parseItems cxt "}"
                (parseSchemaProperties_block cxt discriminator required optional t)
                r ;;
        required_check cxt props t r')
  | None =>
      cm_ret (fun t r =>
        parseItems cxt "}"
          (parseSchemaProperties_block cxt discriminator required optional t)
          r)
  end.

Definition parseProperties : GenParse := fun cxt =>
  let* body := parseSchemaProperties cxt None in
  cm_ret (fun t r => parseToken I cxt "{" ;; body t (assign r t (JObj []))).

(** The block of the first scan of [parseDiscriminator]; the loop variables
    are the variable of the target and [tag].  The variable [value] is
    assigned before it is read in every turn and is not kept. *)
Definition parseDiscriminator_block (cxt : ParseCxt)
  (discriminator : option string) (t : Target)
  (vars : JsVal * JsVal) : Stmt (JsVal * JsVal) (JsVal * JsVal) :=
  let '(r, tag) := vars in
  key <- parseString I cxt [] JUndefined ;;
  parseToken I cxt ":" ;;
  gen_if (fun _ _ => is_tag key discriminator)
    (tag' <- parseString I cxt [] tag ;;
     gen_break (assign r (t ++ [js_to_string key])%list tag', tag'))
    (_value <- parseEmpty I cxt [] JUndefined ;; ret (r, tag)).

(** The [if (tag === undefined) ... else if (tag === tagValue) ... else ...]
    chain that follows the rewind. *)
Definition parseDiscriminator_dispatch (cxt : ParseCxt)
  (branches : list (string * Code)) (t : Target)
  (r tag : JsVal) : Stmt Empty_set JsVal :=
  if_chain
    ((fun _ _ => is_undefined tag,
      parsingErrorMsg cxt "discriminator tag not found")
     :: map (fun '(tagValue, code) =>
               (fun (_ : REnv) (_ : RState) => strict_eq_str tag tagValue,
                code t r))
            branches)
    (parsingErrorMsg cxt "discriminator value not in schema").

Definition parseDiscriminator : GenParse := fun cxt =>
  let sch := schema cxt in
  let* branches :=
    cm_map (fun '(tagValue, branch) =>
              let* code := parseSchemaProperties (with_schema cxt branch)
                             (discriminator sch) in
              cm_ret (tagValue, code))
           (mapping sch) in
  cm_ret (fun t r =>
    parseToken I cxt "{" ;;
    fun env st0 =>
      let startPos := jsonPos st0 in
      (vars <- tryParseItems cxt "}"
                 (parseDiscriminator_block cxt (discriminator sch) t)
                 (assign r t (JObj []), JUndefined) ;;
       let '(r', tag) := vars in
       gen_assign_jsonPos startPos ;;
       parseDiscriminator_dispatch cxt branches t r' tag) env st0).

Definition getParser (sch : EnvId) : CM FuncExpr :=
  fun s =>
    match envs s sch with
    | Some (mkSchemaEnv _ _ _ (Some parse) _) => (Ok (FParse parse), s)
    | _ => (Ok (FWrapper sch), s)
    end.

Definition parseRef : GenParse := fun cxt =>
  let r := match ref (schema cxt) with Some r => r | None => "undefined" end in
  match definitions_get (definitions cxt) r with
  | None => cm_throw (MissingRefError EmptyString r ("No definition " ++ r))
  | Some refSchema =>
      if negb (hasRef I refSchema) then parseCode (with_schema cxt refSchema)
      else
        fun s =>
          let root := match envs s (schemaEnv cxt) with
                      | Some e => se_root e
                      | None => schemaEnv cxt
                      end in
          (let* env := new_SchemaEnv refSchema (DefSchema r) root in
           let* sch := compileParser env (definitions cxt) in
           let* f := getParser sch in
           cm_ret (partialParse cxt f)) s
  end.

Definition genParse (form : JTDForm) : GenParse :=
  match form with
  | F_elements => parseElements
  | F_values => parseValues
  | F_discriminator => parseDiscriminator
  | F_properties => parseProperties
  | F_optionalProperties => parseProperties
  | F_enum => fun cxt => cm_ret (parseEnum I cxt)
  | F_type => fun cxt =>
      match parseType I cxt with
      | Some code => cm_ret code
      | None => cm_throw (TypeError "undefined is not iterable")
      end
  | F_ref => parseRef
  end.

Definition parseEmpty_gen : GenParse := fun cxt => cm_ret (parseEmpty I cxt).

Definition parseNullable (cxt : ParseCxt) (parseForm : GenParse)
  : CM Code :=
  if negb (nullable (schema cxt)) then parseForm cxt
  else
    let* form := parseForm cxt in
    cm_ret (fun t r =>
              tryParseToken I cxt "null" (form t r) (ret (assign r t JNull))).

(** The body of [parseCode]. *)
Definition parseCode_body (cxt : ParseCxt) : CM Code :=
  let form := find (fun key => key_in key (schema cxt)) jtdForms in
  parseNullable cxt
    (match form with Some f => genParse f | None => parseEmpty_gen end).

(** The function that [gen.func(parseName, ...)] emits in [parserFunction],
    [code] being what [parseCode] emitted inside it for the variable [data],
    which [gen.let] declares without a value. *)
Definition emitted_function (cxt : ParseCxt) (code : Code)
  : ParseFunc :=
  mkParseFunc (parseName cxt)
    (fun n wrappers text startPos partial slots =>
       let env := mkEnv text partial n wrappers in
       let st := mkState (match startPos with Some p => p | None => 0 end)
                         (upd (parseName cxt) None slots) in
       let body : Stmt Empty_set RetVal :=
         data <- code [] JUndefined ;;
         whitespace I ;;
         gen_if (fun env _ => jsonPart env)
           (gen_return (fun _ st => RPair data (jsonPos st)))
           (gen_if (fun env st => Nat.eqb (jsonPos st) (jsonLen env))
              (gen_return (fun _ _ => RVal data))
              (jsonSyntaxError cxt)) in
       match body env st with
       | Next _ st' => CRet (RVal JUndefined) (errs st')
       | Break l _ => match l with end
       | Return v st' => CRet v (errs st')
       | Throw m => CThrow m
       | Diverge => CDiverge
       end).

(** [parserFunction]. *)
Definition parserFunction (cxt : ParseCxt) : CM ParseFunc :=
  let* code := parseCode cxt in
  cm_ret (emitted_function cxt code).

(** The body of [compileParser]. *)
Definition compileParser_body (sch : EnvId) (defs : SchemaObjectMap)
  : CM EnvId :=
  fun s =>
    match getCompilingSchema s sch with
    | Some _sch => (Ok _sch, s)
    | None =>
        (let* parseName := scopeName in
         let cxt := mkCxt sch defs
                      (match envs s sch with
                       | Some e => se_schema e
                       | None => empty_schema
                       end)
                      parseName in
         let* _ :=
           try_catch_rethrow_finally
             (let* _ := (fun s => (Ok tt, compilations_add sch s)) in
              let* _ := (fun s => (Ok tt, modify_env sch
                                            (set_parseName (Some parseName)) s)) in
              let* parse := parserFunction cxt in
              fun s => (Ok tt, modify_env sch (set_parse (Some parse)) s))
             (fun s => modify_env sch (set_parseName None)
                         (modify_env sch (set_parse None) s))
             (compilations_delete sch) in
         cm_ret sch) s
    end.
End Forms.

Fixpoint parseCode (n : nat) (I : Imports) (cxt : ParseCxt)
  : CM Code :=
  match n with
  | O => fun s => (NoFuel, s)
  | S m => parseCode_body I (parseCode m I) (compileParser m I) cxt
  end
with compileParser (n : nat) (I : Imports) (sch : EnvId)
  (defs : SchemaObjectMap) : CM EnvId :=
  match n with
  | O => fun s => (NoFuel, s)
  | S m => compileParser_body I (parseCode m I) sch defs
  end.

(** ** Invoking compiled parsers *)

(** The [wrapper] objects at run time: [wrapper.parse] is the function stored
    in the environment when its compilation finished.  The call stack is
    finite: [depth] is the number of nested calls through wrappers that it
    still has room for, and a call that finds none left throws a
    [RangeError].  (Calls of functions that were finished when the call was
    emitted nest no deeper than the schema and are not counted.)  [loops]
    bounds the turns of each loop. *)
Fixpoint link (loops depth : nat) (s : Ajv) (id : EnvId) : option FnObj :=
  match envs s id with
  | Some (mkSchemaEnv _ _ _ (Some f) _) =>
      Some (mkFn (pf_name f)
              (fun text startPos partial slots =>
                 match depth with
                 | O => CThrow stack_overflow
                 | S d =>
                     pf_code f loops (link loops d s) text startPos partial slots
                 end))
  | _ => None
  end.

(** [sch.parse(json, jsonPos, jsonPart)] on the instance [s]. *)
Definition invoke_with (loops depth : nat) (s : Ajv) (sch : EnvId)
  (text : string) (startPos : option nat) (partial : bool) (slots : Errs)
  : CallOutcome :=
  match link loops depth s sch with
  | Some f => fn_call f text startPos partial slots
  | None => CThrow "TypeError: parse is not a function"
  end.

(** The same with one bound [n] for the loops and the stack. *)
Definition invoke (n : nat) (s : Ajv) (sch : EnvId)
  (text : string) (startPos : option nat) (partial : bool) (slots : Errs)
  : CallOutcome :=
  invoke_with n n s sch text startPos partial slots.

(** An instance holding one environment for [sch], nothing compiled yet. *)
Definition new_Ajv (sch : Schema) : Ajv :=
  mkAjv [] (upd 0 (Some (mkSchemaEnv sch TopSchema 0 None None)) (fun _ => None))
        1 0.

Definition no_errors : Errs := fun _ => None.

(** Compile [sch] with [defs] and invoke the parser. *)
Definition compile_and_parse_at (I : Imports) (n : nat) (sch : Schema)
  (defs : SchemaObjectMap) (text : string) (startPos : option nat)
  (partial : bool) (slots : Errs) : Res (CallOutcome) :=
  match compileParser n I 0 defs (new_Ajv sch) with
  | (Ok id, s) => Ok (invoke n s id text startPos partial slots)
  | (Thrown e, _) => Thrown e
  | (NoFuel, _) => NoFuel
  end.

(** Compile [sch] with [defs] and parse [text] from the start. *)
Definition compile_and_parse (I : Imports) (n : nat) (sch : Schema)
  (defs : SchemaObjectMap) (text : string) (partial : bool)
  : Res (CallOutcome) :=
  compile_and_parse_at I n sch defs text None partial no_errors.

(** ** A reference token scanner *)

Module Scanner.

Fixpoint drop (n : nat) (s : string) : string :=
  match n, s with
  | O, _ => s
  | S m, EmptyString => EmptyString
  | S m, String _ rest => drop m rest
  end.

Definition is_ws (c : ascii) : bool :=
  let n := nat_of_ascii c in
  Nat.eqb n 32 || Nat.eqb n 10 || Nat.eqb n 13 || Nat.eqb n 9.

Fixpoint ws_run (s : string) : nat :=
  match s with
  | String c rest => if is_ws c then S (ws_run rest) else 0
  | EmptyString => 0
  end.

(** Modelled from the spec: [skipWhitespace(text,pos)->pos] of the token
    scanner ([runtime/parseJson], not part of the sources at hand); skips
    the JSON whitespace characters from [pos]. *)
Definition skipWhitespace (s : string) (pos : nat) : nat :=
  pos + ws_run (drop pos s).

(** Characters up to the closing quote, and how many were consumed. *)
Fixpoint str_body (s : string) : option (string * nat) :=
  match s with
  | EmptyString => None
  | String c rest =>
      if Nat.eqb (nat_of_ascii c) 34 then Some (EmptyString, 1)
      else match str_body rest with
           | Some (t, k) => Some (String c t, S k)
           | None => None
           end
  end.

Definition failure (msg : string) (pos : nat) : ScanResult :=
  mkScan JUndefined pos (Some (mkError msg pos)).

(** Modelled from the spec: [parseJsonString(text,pos)->(string|failure,pos)]
    of the token scanner, called just after the opening quote.  Escape
    sequences are outside this model: the string ends at the next quote. *)
Definition parseJsonString (s : string) (pos : nat) : ScanResult :=
  match str_body (drop pos s) with
  | Some (t, k) => mkScan (JStr t) (pos + k) None
  | None => failure "unexpected end" (pos + String.length (drop pos s))
  end.

Definition is_digit (c : ascii) : bool :=
  let n := nat_of_ascii c in Nat.leb 48 n && Nat.leb n 57.

(** Value and length of the leading run of digits. *)
Fixpoint digits (s : string) (acc : Z) (k : nat) : Z * nat :=
  match s with
  | String c rest =>
      if is_digit c
      then digits rest (10 * acc + Z.of_nat (nat_of_ascii c - 48))%Z (S k)
      else (acc, k)
  | EmptyString => (acc, k)
  end.

(** An optional minus sign: whether it is there, the text after it and its
    length. *)
Definition sign_of (rest : string) : bool * string * nat :=
  match rest with
  | String c r =>
      if Nat.eqb (nat_of_ascii c) 45 then (true, r, 1) else (false, rest, 0)
  | EmptyString => (false, rest, 0)
  end.

(** Modelled from the spec:
    [parseJsonNumber(text,pos,maxDigits?)->(number|failure,pos)] of the
    token scanner, restricted to integers: an optional minus sign and a
    run of at most [maxDigits] digits. *)
Definition parseJsonNumber (s : string) (pos : nat) (maxDigits : option nat)
  : ScanResult :=
  let '(neg, body, sign) := sign_of (drop pos s) in
  let '(z, k) := digits body 0%Z 0 in
  if Nat.eqb k 0 then failure "unexpected token" (pos + sign)
  else if match maxDigits with Some m => Nat.ltb m k | None => false end
  then failure "unexpected token" (pos + sign + k)
  else mkScan (JNum (if neg then - z else z)%Z) (pos + sign + k) None.

Definition trim (s : string) : string := drop (ws_run s) s.

Definition starts_with (p s : string) : bool :=
  String.eqb (substring 0 (String.length p) s) p.

(** A JSON value at the head of [s] and the text after it. *)
Fixpoint value (n : nat) (s : string) : option (JsVal * string) :=
  match n with
  | O => None
  | S m =>
      let s := trim s in
      match s with
      | EmptyString => None
      | String c rest =>
          let code := nat_of_ascii c in
          if Nat.eqb code 34 then
            match str_body rest with
            | Some (t, k) => Some (JStr t, drop k rest)
            | None => None
            end
          else if Nat.eqb code 91 then
            match trim rest with
            | String "]"%char r => Some (JArr [], r)
            | r => items m r []
            end
          else if Nat.eqb code 123 then
            match trim rest with
            | String "}"%char r => Some (JObj [], r)
            | r => members m r []
            end
          else if starts_with "null" s then Some (JNull, drop 4 s)
          else if starts_with "true" s then Some (JBool true, drop 4 s)
          else if starts_with "false" s then Some (JBool false, drop 5 s)
          else
            let r := parseJsonNumber s 0 None in
            match sr_data r with
            | JUndefined => None
            | v => Some (v, drop (sr_pos r) s)
            end
      end
  end
with items (n : nat) (s : string) (acc : list JsVal)
  : option (JsVal * string) :=
  match n with
  | O => None
  | S m =>
      match value m s with
      | Some (v, rest) =>
          match trim rest with
          | String ","%char r => items m r (acc ++ [v])
          | String "]"%char r => Some (JArr (acc ++ [v]), r)
          | _ => None
          end
      | None => None
      end
  end
with members (n : nat) (s : string) (acc : list (string * JsVal))
  : option (JsVal * string) :=
  match n with
  | O => None
  | S m =>
      match trim s with
      | String c rest =>
          if Nat.eqb (nat_of_ascii c) 34 then
            match str_body rest with
            | Some (k, len) =>
                match trim (drop len rest) with
                | String ":"%char r =>
                    match value m r with
                    | Some (v, rest') =>
                        match trim rest' with
                        | String ","%char r' => members m r' (obj_set acc k v)
                        | String "}"%char r' => Some (JObj (obj_set acc k v), r')
                        | _ => None
                        end
                    | None => None
                    end
                | _ => None
                end
            | None => None
            end
          else None
      | EmptyString => None
      end
  end.

(** Modelled from the spec: [parseJson(text,pos)->(anyValue|failure,pos)]
    of the token scanner: one JSON value starting at [pos], whatever
    follows it. *)
Definition parseJson (s : string) (pos : nat) : ScanResult :=
  let rest := drop pos s in
  match value (S (String.length rest)) rest with
  | Some (JUndefined, _) | None => failure "unexpected token" pos
  | Some (v, after) =>
      mkScan v (pos + (String.length rest - String.length after)) None
  end.

(** Modelled from the spec: [validTimestamp(string)->bool]; the check of
    the timestamp grammar is outside this model, which accepts every
    string.  A value that is no string is outside the contract: the call
    throws. *)
Definition validTimestamp (v : JsVal) : option bool :=
  match v with JStr _ => Some true | _ => None end.

(** Modelled from the spec: the table [intRange] of
    [vocabularies/jtd/type]: the closed range of each fixed-width integer
    type and its bound on the number of digits. *)
Definition intRange (ty : string) : option (Z * Z * nat) :=
  if String.eqb ty "int8" then Some ((-128)%Z, 127%Z, 3)
  else if String.eqb ty "uint8" then Some ((0)%Z, 255%Z, 3)
  else if String.eqb ty "int16" then Some ((-32768)%Z, 32767%Z, 5)
  else if String.eqb ty "uint16" then Some ((0)%Z, 65535%Z, 5)
  else if String.eqb ty "int32" then Some ((-2147483648)%Z, 2147483647%Z, 10)
  else if String.eqb ty "uint32" then Some ((0)%Z, 4294967295%Z, 10)
  else None.

(** Modelled from the spec: [hasRef] of [vocabularies/jtd/ref]: whether
    the subtree of a schema holds a [ref]. *)
Fixpoint hasRef (s : Schema) : bool :=
  match s with
  | mkSchema el va _ ma pr op _ _ _ re _ =>
      present re
      || match el with Some e => hasRef e | None => false end
      || match va with Some e => hasRef e | None => false end
      || existsb (fun p => match p with (_, e) => hasRef e end) ma
      || match pr with
         | Some l => existsb (fun p => match p with (_, e) => hasRef e end) l
         | None => false
         end
      || match op with
         | Some l => existsb (fun p => match p with (_, e) => hasRef e end) l
         | None => false
         end
  end.

Definition imports : Imports :=
  mkImports skipWhitespace parseJsonString parseJsonNumber parseJson
            validTimestamp intRange hasRef.
End Scanner.

(** ** Vocabulary of the statements *)

(** The selection as the specification words it: the first key of the fixed
    priority order that the schema holds. *)
Definition form_by_priority (sch : Schema) : option JTDForm :=
  if present (elements sch) then Some F_elements
  else if present (values sch) then Some F_values
  else if present (discriminator sch) then Some F_discriminator
  else if present (properties sch) then Some F_properties
  else if present (optionalProperties sch) then Some F_optionalProperties
  else if present (enum sch) then Some F_enum
  else if present (type sch) then Some F_type
  else if present (ref sch) then Some F_ref
  else None.

(** Position of a form in the priority order. *)
Definition form_rank (f : JTDForm) : nat :=
  match f with
  | F_elements => 0 | F_values => 1 | F_discriminator => 2
  | F_properties => 3 | F_optionalProperties => 4 | F_enum => 5
  | F_type => 6 | F_ref => 7
  end.

Definition after_whitespace (I : Imports) (env : REnv) (st : RState) : RState :=
  mkState (skipWhitespace I (json env) (jsonPos st)) (errs st).

Definition advance (n : nat) (st : RState) : RState :=
  mkState (jsonPos st + n) (errs st).


(** The text an enum member is compared with: its JSON encoding without the
    opening quote. *)
Definition enum_encoding (value : string) : string :=
  slice1 (JSON_stringify value).

(** The fixed-length comparison of one member at the current position. *)
Definition enum_matches (env : REnv) (st : RState) (value : string) : bool :=
  String.eqb
    (substring (jsonPos st) (String.length (enum_encoding value)) (json env))
    (enum_encoding value).

(** The failure return of the current mode. *)
Definition failure_value (env : REnv) (st : RState) : RetVal :=
  if jsonPart env then RPair JUndefined (jsonPos st) else RVal JUndefined.

(** The state after [parseName.error = {message, position: jsonPos}]. *)
Definition record_error (cxt : ParseCxt) (msg : string) (st : RState) : RState :=
  mkState (jsonPos st)
          (upd (parseName cxt) (Some (mkError msg (jsonPos st))) (errs st)).

(** The message of [jsonSyntaxError]. *)
Definition unexpected_token (env : REnv) (st : RState) : string :=
  "unexpected token " ++ js_to_string (jsonSlice 1 env st).

(** *** Contracts *)

Definition start_of (pos : option nat) : nat :=
  match pos with Some p => p | None => 0 end.

Definition ret_data (v : RetVal) : JsVal :=
  match v with RVal d => d | RPair d _ => d end.

(** What a call of a parse function may yield: the shape of the mode and a
    position not before the start. *)
Definition call_ok (startPos : option nat) (partial : bool) (o : CallOutcome)
  : Prop :=
  match o with
  | CRet (RPair _ p) _ => partial = true /\ start_of startPos <= p
  | CRet (RVal _) _ => partial = false
  | CThrow _ => True
  | CDiverge => True
  end.

Definition good_fn (f : FnObj) : Prop :=
  forall text pos part slots,
    call_ok pos part (fn_call f text pos part slots).

Definition good_wrappers (w : EnvId -> option FnObj) : Prop :=
  forall id f, w id = Some f -> good_fn f.

(** Every call through a wrapper on the input [text] comes back, with a
    result or with an exception. *)
Definition total_wrappers (text : string) (w : EnvId -> option FnObj) : Prop :=
  forall id f, w id = Some f ->
    forall pos part slots, fn_call f text pos part slots <> CDiverge.

Definition good_pf (f : ParseFunc) : Prop :=
  forall n w text pos part slots,
    good_wrappers w ->
    call_ok pos part (pf_code f n w text pos part slots)
    /\ (String.length text <= n -> total_wrappers text w ->
        pf_code f n w text pos part slots <> CDiverge).

(** The contract of a scanner function: it never moves backwards. *)
Definition good_scan (f : string -> nat -> ScanResult) : Prop :=
  forall s p, p <= sr_pos (f s p).

Record good_imports (I : Imports) : Prop := mkGoodImports {
  skip_mono : forall s p, p <= skipWhitespace I s p;
  string_ok : good_scan (parseJsonString I);
  number_ok : forall md, good_scan (fun s p => parseJsonNumber I s p md);
  json_ok : good_scan (parseJson I) }.

Definition good_funcexpr (f : FuncExpr) : Prop :=
  match f with
  | FScan g => good_scan g
  | FParse g => good_pf g
  | FWrapper _ => True
  end.

(** The invocation has what it needs to come back: a loop bound of at least
    the input length and wrappers that come back. *)
Definition can_finish (env : REnv) : Prop :=
  jsonLen env <= fuel env /\ total_wrappers (json env) (wrapper env).

(** What a statement may do from [st]: fall through or break, return the
    failure value of the mode, or throw; the position never ends before
    [jsonPos st]; and it does not end at all only if the invocation lacks
    what it needs to come back. *)
Definition ok_at {L A} (PA : A -> Prop) (PL : L -> Prop)
  (env : REnv) (st : RState) (o : Outcome L A) : Prop :=
  match o with
  | Next a st' => PA a /\ jsonPos st <= jsonPos st'
  | Break l st' => PL l /\ jsonPos st <= jsonPos st'
  | Return v st' => v = failure_value env st' /\ jsonPos st <= jsonPos st'
  | Throw _ => True
  | Diverge => ~ can_finish env
  end.

Definition good_stmt {L A} (PA : A -> Prop) (PL : L -> Prop)
  (s : Stmt L A) : Prop :=
  forall env st, good_wrappers (wrapper env) -> ok_at PA PL env st (s env st).

Definition defined (v : JsVal) : Prop := v <> JUndefined.

(** What code that falls through leaves in the variable of its target: a
    variable that is the target itself holds a value then, and a variable
    that held the object of the place still holds one. *)
Definition kept (t : Target) (r r' : JsVal) : Prop :=
  (t <> [] -> defined r) -> defined r'.

(** A code that keeps the contract whatever target it works on. *)
Definition good_codeof {L} (PL : L -> Prop) (c : CodeOf L) : Prop :=
  forall t r, good_stmt (kept t r) PL (c t r).

Definition good_code (c : Code) : Prop := good_codeof (fun _ => True) c.

(** Every parse function stored in the instance keeps the contract. *)
Definition all_good (s : Ajv) : Prop :=
  forall id e f, envs s id = Some e -> se_parse e = Some f -> good_pf f.

(** A generation step that, from an instance whose parse functions keep the
    contract, yields a result with property [P] and such an instance. *)
Definition gen_ok {A} (P : A -> Prop) (m : CM A) : Prop :=
  forall s a s', all_good s -> m s = (Ok a, s') -> P a /\ all_good s'.

(** What code that works inside an object leaves in the variable: a
    variable that held a value still holds one. *)
Definition grows (r r' : JsVal) : Prop := defined r -> defined r'.

(** The code of a property value and the block of an object loop: the
    variable is that of the object, and breaks of the loop carry it as
    well. *)
Definition good_value_code (code : JsVal -> CodeOf JsVal) : Prop :=
  forall key t r, good_stmt (grows r) (grows r) (code key t r).

Definition good_block (block : CodeOf JsVal) : Prop :=
  forall t r, good_stmt (grows r) (grows r) (block t r).

(** Code that continues the object its target holds. *)
Definition good_body (body : Code) : Prop :=
  forall t r, good_stmt (grows r) (fun _ => True) (body t r).

(** The state in which the body of a parse function starts. *)
Definition entry_state (cxt : ParseCxt) (startPos : option nat) (slots : Errs)
  : RState :=
  mkState (start_of startPos) (upd (parseName cxt) None slots).

(** *** Schemas of the examples *)

Definition type_schema (t : string) : Schema :=
  mkSchema None None None [] None None false None (Some t) None false.

Definition values_schema (sch : Schema) : Schema :=
  mkSchema None (Some sch) None [] None None false None None None false.

Definition elements_schema (sch : Schema) : Schema :=
  mkSchema (Some sch) None None [] None None false None None None false.

Definition properties_schema (props : list (string * Schema))
  (additional : bool) : Schema :=
  mkSchema None None None [] (Some props) None additional None None None false.

Definition optionalProperties_schema (props : list (string * Schema)) : Schema :=
  mkSchema None None None [] None (Some props) false None None None false.

Definition discriminator_schema (tag : string)
  (branches : list (string * Schema)) : Schema :=
  mkSchema None None (Some tag) branches None None false None None None false.

Definition enum_schema (members : list string) : Schema :=
  mkSchema None None None [] None None false (Some members) None None false.

Definition ref_schema (name : string) (nullable : bool) : Schema :=
  mkSchema None None None [] None None false None None (Some name) nullable.

(** What an invocation of the examples shows: the returned value and the
    error slot of the parser (its name is 0, the first one handed out). *)
Definition observe (r : Res CallOutcome)
  : option (RetVal * option ParseError) :=
  match r with
  | Ok (CRet v e) => Some (v, e 0)
  | _ => None
  end.

(** The text [{} trailing]. *)
Definition text_trailing : string := "{} trailing".

(** *** Reaching a turn of an item loop *)

(** [items_reach I cxt endToken block env k acc st acc' st']: from the loop
    variables [acc] in state [st], [k] full turns of the item loop (condition
    true, block fell through, comma consumed) lead to the variables [acc'] in
    state [st'], where the condition is tested next. *)
Inductive items_reach {A : Type} (I : Imports) (cxt : ParseCxt)
  (endToken : string) (block : A -> Stmt A A) (env : REnv)
  : nat -> A -> RState -> A -> RState -> Prop :=
| reach_start (acc : A) (st : RState) :
    items_reach I cxt endToken block env 0 acc st acc st
| reach_turn (k : nat) (acc : A) (st : RState) (acc1 : A) (st1 : RState)
    (acc' : A) (st' : RState) :
    items_cond endToken env st = true ->
    items_body I cxt block acc env st = Next acc1 st1 ->
    items_reach I cxt endToken block env k acc1 st1 acc' st' ->
    items_reach I cxt endToken block env (S k) acc st acc' st'.

(** The branch that the tag selects, as the emitted chain finds it. *)
Definition branch_of {B : Type} (tag : JsVal) (branches : list (string * B))
  : option (string * B) :=
  find (fun b => strict_eq_str tag (fst b)) branches.

(** The declarations of a property map, in its order, and their names. *)
Definition decls_of {B : Type} (schemas : option (list (string * B)))
  : list (string * B) :=
  match schemas with Some l => l | None => [] end.

Definition names_of {B : Type} (schemas : option (list (string * B)))
  : list string :=
  map fst (decls_of schemas).

(** [key] is none of the names. *)
Definition matches_none (key : JsVal) (names : list string) : Prop :=
  forall p, In p names -> strict_eq_str key p = false.

(** Whether [key] is the tag that the generator of a reparse was given: the
    key that is exempt from the duplicate check. *)
Definition exempt (discriminator : option string) (key : JsVal) : bool :=
  given discriminator && is_tag key discriminator.

(** The branch of a declared property is the code of its schema with the
    target [data[key]]. *)
Definition property_code_of (pc : ParseCxt -> CM Code) (cxt : ParseCxt)
  (decl : string * Schema) (c : string * (JsVal -> CodeOf JsVal)) : Prop :=
  fst c = fst decl /\
  exists s1 s2 vc,
    pc (with_schema cxt (snd decl)) s1 = (Ok vc, s2) /\
    snd c = fun key t r => lift (vc (t ++ [js_to_string key])%list r).

(** What follows the closing brace of a properties object whose variable
    holds [r]: the test that the object owns every name under
    [properties]. *)
Definition properties_end {L} (cxt : ParseCxt) (t : Target) (r : JsVal)
  (env : REnv) (st : RState) : Outcome L JsVal :=
  match properties (schema cxt) with
  | Some props =>
      if allProps props (read r t) then Next r st
      else Return (failure_value env st)
             (record_error cxt "missing required properties" st)
  | None => Next r st
  end.

(** The state after a call that came back at position [p] with the error
    slots [e]. *)
Definition came_back (p : nat) (e : Errs) : RState := mkState p e.

(** The state in which a failure with the error record [err] returns. *)
Definition failed_with (cxt : ParseCxt) (err : option ParseError) (st : RState)
  : RState :=
  mkState (jsonPos st) (upd (parseName cxt) err (errs st)).

(** What a scanner call with the data target [t] leaves: the data is
    assigned to the target, and the target is read back to tell a failure;
    the position is the one the scanner came back with. *)
Definition scanned {L} (cxt : ParseCxt) (res : ScanResult) (t : Target)
  (r : JsVal) (env : REnv) (st : RState) : Outcome L JsVal :=
  let st1 := came_back (sr_pos res) (errs st) in
  if is_undefined (read (assign r t (sr_data res)) t)
  then Return (failure_value env st1) (failed_with cxt (sr_error res) st1)
  else Next (assign r t (sr_data res)) st1.

(** The message of [checkDuplicateProperty]. *)
Definition duplicate_message (key : JsVal) : string :=
  "JSON: duplicate property " ++ js_to_string key.

(** The variables of the first scan of a discriminator before any key: the
    variable of the target, which was just assigned [{}], and no tag. *)
Definition scan_start (t : Target) (r : JsVal) : JsVal * JsVal :=
  (assign r t (JObj []), JUndefined).

(** The branch of a mapping entry is what [parseSchemaProperties] emits for
    its schema, with the tag field of the discriminator as parameter. *)
Definition branch_code_of (I : Imports) (pc : ParseCxt -> CM Code)
  (cxt : ParseCxt) (m : string * Schema) (b : string * Code) : Prop :=
  fst b = fst m /\
  exists s1 s2,
    parseSchemaProperties I pc (with_schema cxt (snd m))
      (discriminator (schema cxt)) s1 = (Ok (snd b), s2).

(** The failure that is returned at [st] with the message [msg]. *)
Definition fails_with {L A} (cxt : ParseCxt) (msg : string) (env : REnv)
  (st : RState) : Outcome L A :=
  Return (failure_value env st) (record_error cxt msg st).

(** The state after the rewind of a discriminator to the position of
    [st0]. *)
Definition rewound (st0 st : RState) : RState :=
  mkState (jsonPos st0) (errs st).

(** *** Texts of the examples *)

(** [s] between double quotes. *)
Definition quoted (s : string) : string := dquote ++ s ++ dquote.

(** The text [{"a":1,"a":2}]. *)
Definition text_duplicate : string :=
  "{" ++ quoted "a" ++ ":1," ++ quoted "a" ++ ":2}".

(** The text [{"a":"x","b":1}]. *)
Definition text_additional : string :=
  "{" ++ quoted "a" ++ ":" ++ quoted "x" ++ "," ++ quoted "b" ++ ":1}".

(** The texts [{"type":"b","y":"hi"}], [{"type":"c"}] and [{"y":"hi"}] of
    the specification's discriminator example. *)
Definition text_shape_b : string :=
  "{" ++ quoted "type" ++ ":" ++ quoted "b" ++ "," ++ quoted "y" ++ ":"
  ++ quoted "hi" ++ "}".

Definition text_shape_c : string :=
  "{" ++ quoted "type" ++ ":" ++ quoted "c" ++ "}".

Definition text_no_tag : string :=
  "{" ++ quoted "y" ++ ":" ++ quoted "hi" ++ "}".

(** The text [{"type":"a","type":"b"}]. *)
Definition text_two_tags : string :=
  "{" ++ quoted "type" ++ ":" ++ quoted "a" ++ "," ++ quoted "type" ++ ":"
  ++ quoted "b" ++ "}".

(** A discriminator with the tag field [type] whose only branch [a] declares
    a property [type] itself. *)
Definition tag_declaring_schema : Schema :=
  mkSchema None None (Some "type")
    [("a", mkSchema None None None [] None (Some [("type", type_schema "string")])
             false None None None false)]
    None None false None None None false.

(** The text [{"type":"a","x":1}]. *)
Definition text_shape_a : string :=
  "{" ++ quoted "type" ++ ":" ++ quoted "a" ++ "," ++ quoted "x" ++ ":1}".

(** The text [{"":"a","x":1}]. *)
Definition text_empty_tag : string :=
  "{" ++ quoted "" ++ ":" ++ quoted "a" ++ "," ++ quoted "x" ++ ":1}".

(** A discriminator whose tag field has the name [tag], with one branch [a]
    that requires an int32 [x]. *)
Definition tagged_schema (tag : string) : Schema :=
  mkSchema None None (Some tag)
    [("a", mkSchema None None None [] (Some [("x", type_schema "int32")]) None
             false None None None false)]
    None None false None None None false.

(** The schema [{properties: {a: {type: "string"}}}], with or without
    [additionalProperties]. *)
Definition schema_a (additional : bool) : Schema :=
  properties_schema [("a", type_schema "string")] additional.

(** A generation step never loses a [SchemaEnv] object, however it ends. *)
Definition env_kept {A} (m : CM A) : Prop :=
  forall s r s', m s = (r, s') ->
    forall id, envs s id <> None -> envs s' id <> None.

(** The environment [sch] is left without parse function or parse name and
    is not registered as in flight. *)
Definition cleaned (sch : EnvId) (s : Ajv) : Prop :=
  (exists e, envs s sch = Some e /\ se_parse e = None /\ se_parseName e = None)
  /\ ~ In sch (_compilations s).

(** *** A reference cycle that consumes no input *)

(** The schema [{ref: "loop"}] with the definitions [{loop: {ref: "loop"}}]. *)
Definition loop_schema : Schema := ref_schema "loop" false.

Definition loop_defs : SchemaObjectMap := [("loop", loop_schema)].

(** The function compiled for [definitions.loop]: it calls itself through
    the wrapper of its own environment. *)
Definition loop_unit : ParseFunc :=
  let cxt := mkCxt 1 loop_defs loop_schema 1 in
  emitted_function Scanner.imports cxt (partialParse cxt (FWrapper 1)).

(** The function compiled for the schema itself: it calls [loop_unit]. *)
Definition loop_root_unit : ParseFunc :=
  let cxt := mkCxt 0 loop_defs loop_schema 0 in
  emitted_function Scanner.imports cxt (partialParse cxt (FParse loop_unit)).

(** [sch.parse] of an environment of the instance. *)
Definition parse_of (s : Ajv) (id : EnvId) : option ParseFunc :=
  match envs s id with Some e => se_parse e | None => None end.

(** The instance after compiling [loop_schema] with bound [5 + k]. *)
Definition loop_instance (k : nat) : Ajv :=
  snd (compileParser (S (S (S (S (S k))))) Scanner.imports 0 loop_defs
         (new_Ajv loop_schema)).

(** The list of the specification's recursion example:
    [{properties: {value: {type: "int32"}, next: {ref: "list", nullable:
    true}}}], which is [definitions.list] as well, and the text
    [{"value":1,"next":{"value":2,"next":null}}]. *)
Definition list_schema : Schema :=
  properties_schema
    [("value", type_schema "int32"); ("next", ref_schema "list" true)] false.

Definition list_defs : SchemaObjectMap := [("list", list_schema)].

Definition text_list : string :=
  "{" ++ quoted "value" ++ ":1," ++ quoted "next" ++ ":{" ++ quoted "value"
  ++ ":2," ++ quoted "next" ++ ":null}}".

(** The text [{"__proto__":null}]. *)
Definition text_proto_null : string :=
  "{" ++ quoted "__proto__" ++ ":null}".

(** Error slots as an earlier invocation that failed may have left them. *)
Definition stale_slots : Errs :=
  fun _ => Some (mkError "unexpected token x" 0).

(** The text [[1,2,3], with no closing bracket. *)
Definition text_unterminated : string := "[1,2,3".

(** *** Instances used to exercise the theorems *)

(** A context for compiling [sch] alone, as [compileParser] sets it up in a
    fresh instance. *)
Definition example_cxt (sch : Schema) : ParseCxt := mkCxt 0 [] sch 0.

(** [{type: "string", nullable: true}] *)
Definition nullable_string_schema : Schema :=
  mkSchema None None None [] None None false None (Some "string") None true.

(** [{enum: ["red", "green"]}] *)
Definition colour_schema : Schema := enum_schema ["red"; "green"].

(** The discriminator of the specification's example: tag [type], branch
    [a] with a required int32 [x], branch [b] with a required string [y]. *)
Definition shape_schema : Schema :=
  discriminator_schema "type"
    [("a", properties_schema [("x", type_schema "int32")] false);
     ("b", properties_schema [("y", type_schema "string")] false)].

(** The instance after a successful compilation of [sch]. *)
Definition compiled (I : Imports) (n : nat) (sch : Schema)
  (defs : SchemaObjectMap) : Ajv :=
  snd (compileParser n I 0 defs (new_Ajv sch)).

(** Selectors with a default, for results known to be there. *)
Definition the_env (s : Ajv) (id : EnvId) : SchemaEnv :=
  match envs s id with
  | Some e => e
  | None => mkSchemaEnv empty_schema TopSchema 0 None None
  end.

Definition the_result {A} (default : A) (r : Res A * Ajv) : A :=
  match fst r with Ok a => a | _ => default end.

Definition no_wrappers : EnvId -> option FnObj := fun _ => None.

(** *** Vocabulary of the further properties *)

(** The type names [parseType] handles before its [default] branch. *)
Definition named_types : list string :=
  ["boolean"; "string"; "timestamp"; "float32"; "float64"].

(** The character of the input at the position, if any. *)
Definition char_at (env : REnv) (st : RState) : option ascii :=
  String.get (jsonPos st) (json env).

(** A generation step that has come back, normally or with an exception,
    has registered no environment as in flight that was not registered
    before. *)
Definition registry_kept {A} (m : CM A) : Prop :=
  forall s r s', m s = (r, s') -> r <> NoFuel ->
    incl (_compilations s') (_compilations s).

(** The function expression [getParser] yields for the environment [id]. *)
Definition parser_of (s : Ajv) (id : EnvId) : FuncExpr :=
  match parse_of s id with
  | Some f => FParse f
  | None => FWrapper id
  end.

(** [schemaEnv.root] as [parseRef] reads it. *)
Definition root_of (s : Ajv) (cxt : ParseCxt) : EnvId :=
  match envs s (schemaEnv cxt) with
  | Some e => se_root e
  | None => schemaEnv cxt
  end.

(** The declarations of a properties form in the order the generator emits
    their branches: [properties] first, then [optionalProperties]. *)
Definition declared (sch : Schema) : list (string * Schema) :=
  (match properties sch with Some l => l | None => [] end)
  ++ (match optionalProperties sch with Some l => l | None => [] end).

(** The first declaration of [name]. *)
Definition declaration_of (name : string) (sch : Schema)
  : option (string * Schema) :=
  find (fun d => String.eqb name (fst d)) (declared sch).

(** *** Instances of the further properties *)

(** [{elements: {type: "int8"}}] and the code of its elements. *)
Definition int8_list_schema : Schema := elements_schema (type_schema "int8").

Definition int8_code : Code :=
  the_result (fun _ _ => ret JNull)
    (parseCode 2 Scanner.imports
       (example_cxt (type_schema "int8")) (new_Ajv int8_list_schema)).

(** [{ref: "name"}] with the definitions [{name: {type: "string"}}]. *)
Definition name_defs : SchemaObjectMap := [("name", type_schema "string")].

Definition name_cxt : ParseCxt := mkCxt 0 name_defs (ref_schema "name" false) 0.

(** The context in which [compileParser] compiles [loop_schema]. *)
Definition loop_cxt : ParseCxt := mkCxt 0 loop_defs loop_schema 0.
(** * Properties *)

(** ** Form selection *)

Lemma find_form_by_priority (sch : Schema) :
  find (fun key => key_in key sch) jtdForms = form_by_priority sch.
Proof.
  unfold form_by_priority, jtdForms; cbn [find key_in].
  repeat match goal with
         | |- context [present ?o] => destruct (present o); try reflexivity
         end.
Qed.

Lemma form_by_priority_first (sch : Schema) (f : JTDForm) :
  form_by_priority sch = Some f ->
  key_in f sch = true /\
  forall g, form_rank g < form_rank f -> key_in g sch = false.
Proof.
  unfold form_by_priority.
  destruct (present (elements sch)) eqn:E1;
    [intros H; injection H as <-; split; [exact E1 | intros g Hg; destruct g; cbn in Hg; lia] |].
  destruct (present (values sch)) eqn:E2;
    [intros H; injection H as <-; split; [exact E2 | intros g Hg; destruct g; cbn in Hg; try lia; assumption] |].
  destruct (present (discriminator sch)) eqn:E3;
    [intros H; injection H as <-; split; [exact E3 | intros g Hg; destruct g; cbn in Hg; try lia; assumption] |].
  destruct (present (properties sch)) eqn:E4;
    [intros H; injection H as <-; split; [exact E4 | intros g Hg; destruct g; cbn in Hg; try lia; assumption] |].
  destruct (present (optionalProperties sch)) eqn:E5;
    [intros H; injection H as <-; split; [exact E5 | intros g Hg; destruct g; cbn in Hg; try lia; assumption] |].
  destruct (present (enum sch)) eqn:E6;
    [intros H; injection H as <-; split; [exact E6 | intros g Hg; destruct g; cbn in Hg; try lia; assumption] |].
  destruct (present (type sch)) eqn:E7;
    [intros H; injection H as <-; split; [exact E7 | intros g Hg; destruct g; cbn in Hg; try lia; assumption] |].
  destruct (present (ref sch)) eqn:E8;
    [intros H; injection H as <-; split; [exact E8 | intros g Hg; destruct g; cbn in Hg; try lia; assumption] |].
  discriminate.
Qed.

Lemma form_by_priority_none (sch : Schema) :
  form_by_priority sch = None <-> forall g, key_in g sch = false.
Proof.
  unfold form_by_priority; split.
  - intros H g.
    destruct (present (elements sch)) eqn:E1; [discriminate|].
    destruct (present (values sch)) eqn:E2; [discriminate|].
    destruct (present (discriminator sch)) eqn:E3; [discriminate|].
    destruct (present (properties sch)) eqn:E4; [discriminate|].
    destruct (present (optionalProperties sch)) eqn:E5; [discriminate|].
    destruct (present (enum sch)) eqn:E6; [discriminate|].
    destruct (present (type sch)) eqn:E7; [discriminate|].
    destruct (present (ref sch)) eqn:E8; [discriminate|].
    destruct g; assumption.
  - intros H.
    rewrite (H F_elements : present _ = false), (H F_values : present _ = false),
      (H F_discriminator : present _ = false), (H F_properties : present _ = false),
      (H F_optionalProperties : present _ = false), (H F_enum : present _ = false),
      (H F_type : present _ = false), (H F_ref : present _ = false).
    reflexivity.
Qed.

(** C3: one form drives code generation: [parseCode] hands [parseNullable]
    the generator of the first key, in the order elements, values,
    discriminator, properties, optionalProperties, enum, type, ref, that the
    schema holds, whatever later keys it holds besides, and the generic JSON
    parse [parseEmpty] when it holds none of them. *)
Theorem parseCode_selects_first_form (n : nat) (I : Imports) (cxt : ParseCxt) :
  parseCode (S n) I cxt =
    parseNullable I cxt
      (match form_by_priority (schema cxt) with
       | Some f => genParse I (parseCode n I) (compileParser n I) f
       | None => parseEmpty_gen I
       end)
  /\ (forall f, form_by_priority (schema cxt) = Some f ->
        key_in f (schema cxt) = true /\
        forall g, form_rank g < form_rank f -> key_in g (schema cxt) = false)
  /\ (form_by_priority (schema cxt) = None <->
        forall g, key_in g (schema cxt) = false)
  /\ (forall L t r env st,
        @parseEmpty I L cxt t r env st
        = partialParse cxt (FScan (parseJson I)) t r env st).
Proof.
  split; [| split; [| split]].
  - cbn [parseCode]. unfold parseCode_body.
    rewrite find_form_by_priority. reflexivity.
  - intros f. apply form_by_priority_first.
  - apply form_by_priority_none.
  - intros L t r env st. reflexivity.
Qed.

(** ** Tokens *)

Lemma substring_get_one (s : string) (p : nat) :
  match String.get p s with
  | Some c => substring p 1 s = String c EmptyString
  | None => substring p 1 s = EmptyString
  end.
Proof.
  revert p; induction s as [| a s IH]; intros [| p]; cbn; try reflexivity.
  - destruct s; reflexivity.
  - apply IH.
Qed.

(** [jsonSlice(n) === tok] compares the [n] characters at [jsonPos] with
    [tok], also when [n] is 1 and the slice is [json[jsonPos]]. *)
Lemma jsonSlice_eq_substring (tok : string) (env : REnv) (st : RState) :
  1 <= String.length tok ->
  strict_eq_str (jsonSlice (String.length tok) env st) tok
  = String.eqb (substring (jsonPos st) (String.length tok) (json env)) tok.
Proof.
  intros Hlen. unfold jsonSlice.
  destruct (Nat.eqb (String.length tok) 1) eqn:E; [| reflexivity].
  apply Nat.eqb_eq in E. rewrite E.
  pose proof (substring_get_one (json env) (jsonPos st)) as H.
  destruct (String.get (jsonPos st) (json env)) as [c |]; rewrite H; cbn.
  - reflexivity.
  - destruct tok; [cbn in E; discriminate | reflexivity].
Qed.

(** What the code of [tryParseToken] does: skip whitespace, compare, and
    either advance and run [success] or run [fail] where the comparison was
    made. *)
Lemma tryParseToken_run {L A} (I : Imports) (cxt : ParseCxt) (tok : string)
  (fail success : Stmt L A) (env : REnv) (st : RState) :
  1 <= String.length tok ->
  tryParseToken I cxt tok fail success env st =
    let st1 := after_whitespace I env st in
    if String.eqb (substring (jsonPos st1) (String.length tok) (json env)) tok
    then success env (advance (String.length tok) st1)
    else fail env st1.
Proof.
  intros Hlen. unfold tryParseToken, bind, whitespace, gen_if, gen_add_jsonPos.
  cbn zeta. fold (after_whitespace I env st).
  rewrite (jsonSlice_eq_substring tok env (after_whitespace I env st) Hlen).
  destruct (String.eqb _ tok); reflexivity.
Qed.

Lemma parseToken_run {L} (I : Imports) (cxt : ParseCxt) (tok : string)
  (env : REnv) (st : RState) :
  1 <= String.length tok ->
  @parseToken I L cxt tok env st =
    let st1 := after_whitespace I env st in
    if String.eqb (substring (jsonPos st1) (String.length tok) (json env)) tok
    then Next tt (advance (String.length tok) st1)
    else jsonSyntaxError cxt env st1.
Proof.
  intros Hlen. unfold parseToken. rewrite tryParseToken_run by exact Hlen.
  reflexivity.
Qed.

(** ** Nullable *)


(** Without [nullable] the code of the form is emitted as it is. *)
Lemma parseNullable_not_nullable (I : Imports) (cxt : ParseCxt)
  (parseForm : GenParse) :
  nullable (schema cxt) = false ->
  parseNullable I cxt parseForm = parseForm cxt.
Proof.
  intros Hn. unfold parseNullable. rewrite Hn. reflexivity.
Qed.

(** ** Failures *)

Lemma parsingErrorMsg_run {L A} (cxt : ParseCxt) (msg : string)
  (env : REnv) (st : RState) :
  @parsingErrorMsg L A cxt msg env st =
    Return (failure_value env st) (record_error cxt msg st).
Proof. reflexivity. Qed.

Lemma jsonSyntaxError_run {L A} (cxt : ParseCxt) (env : REnv) (st : RState) :
  @jsonSyntaxError L A cxt env st =
    Return (failure_value env st)
           (record_error cxt (unexpected_token env st) st).
Proof. reflexivity. Qed.

(** ** Enumerations *)

Lemma string_length_app (a b : string) :
  String.length (a ++ b) = String.length a + String.length b.
Proof. induction a as [| c a IH]; cbn; [reflexivity | now rewrite IH]. Qed.

Lemma enum_encoding_length (value : string) :
  1 <= String.length (enum_encoding value).
Proof.
  unfold enum_encoding, JSON_stringify, dquote. cbn [append slice1].
  rewrite string_length_app. cbn. lia.
Qed.

Lemma enum_chain_run {L} (cxt : ParseCxt) (members : list string)
  (t : Target) (r : JsVal) (env : REnv) (st : RState) :
  @if_chain L JsVal
    (map (fun value =>
            let valueStr := slice1 (JSON_stringify value) in
            (fun env st =>
               strict_eq_str (jsonSlice (String.length valueStr) env st) valueStr,
             gen_add_jsonPos (String.length valueStr) ;;
             ret (assign r t (JStr value))))
         members)
    (jsonSyntaxError cxt) env st =
  match find (enum_matches env st) members with
  | Some value =>
      Next (assign r t (JStr value))
           (advance (String.length (enum_encoding value)) st)
  | None => jsonSyntaxError cxt env st
  end.
Proof.
  induction members as [| m rest IH]; [reflexivity |].
  cbn [map if_chain find]. unfold gen_if at 1. cbn zeta.
  fold (enum_encoding m).
  rewrite (jsonSlice_eq_substring (enum_encoding m) env st
             (enum_encoding_length m)).
  fold (enum_matches env st m).
  destruct (enum_matches env st m); [reflexivity | exact IH].
Qed.


(** ** The contract of emitted code *)
(** ** The contract of emitted code *)

Lemma ok_at_from {L A} (PA : A -> Prop) (PL : L -> Prop) env st st1 o :
  jsonPos st <= jsonPos st1 ->
  ok_at PA PL env st1 o -> ok_at PA PL env st o.
Proof.
  intros Hp. destruct o as [a st' | l st' | v st' | m |]; cbn;
    try tauto.
  - intros (Ha & Hp'). split; [exact Ha | lia].
  - intros (Ha & Hp'). split; [exact Ha | lia].
  - intros (Hv & Hp'). split; [exact Hv | lia].
Qed.

Lemma ok_at_weaken {L A} (PA PA' : A -> Prop) (PL PL' : L -> Prop)
  env st o :
  (forall a, PA a -> PA' a) -> (forall l, PL l -> PL' l) ->
  ok_at PA PL env st o -> ok_at PA' PL' env st o.
Proof.
  intros HA HL. destruct o; cbn; intuition auto.
Qed.

Lemma good_ret {L A} (PA : A -> Prop) (PL : L -> Prop) (a : A) :
  PA a -> good_stmt PA PL (ret a).
Proof.
  intros Ha env st _. cbn. split; [exact Ha | lia].
Qed.

Lemma good_bind {L A B} (PA : A -> Prop) (PB : B -> Prop) (PL : L -> Prop)
  (s : Stmt L A) (k : A -> Stmt L B) :
  good_stmt PA PL s ->
  (forall a, PA a -> good_stmt PB PL (k a)) ->
  good_stmt PB PL (bind s k).
Proof.
  intros Hs Hk env st Hw. unfold bind.
  specialize (Hs env st Hw).
  destruct (s env st) as [a st' | l st' | v st' | m |]; cbn in Hs |- *;
    try exact Hs.
  destruct Hs as (Ha & Hp).
  eapply ok_at_from; [exact Hp |].
  apply Hk; assumption.
Qed.

Lemma good_lift {L A} (PA : A -> Prop) (PL0 : Empty_set -> Prop)
  (PL : L -> Prop) (s : Stmt Empty_set A) :
  good_stmt PA PL0 s -> good_stmt PA PL (lift s).
Proof.
  intros Hs env st Hw. unfold lift. specialize (Hs env st Hw).
  destruct (s env st) as [a st' | [] st' | v st' | m |]; exact Hs.
Qed.

Lemma good_gen_if {L A} (PA : A -> Prop) (PL : L -> Prop)
  (cond : REnv -> RState -> bool) (t e : Stmt L A) :
  (forall env st, good_wrappers (wrapper env) -> cond env st = true ->
     ok_at PA PL env st (t env st)) ->
  (forall env st, good_wrappers (wrapper env) -> cond env st = false ->
     ok_at PA PL env st (e env st)) ->
  good_stmt PA PL (gen_if cond t e).
Proof.
  intros Ht He env st Hw. unfold gen_if.
  destruct (cond env st) eqn:E; [apply Ht | apply He]; assumption.
Qed.

Lemma good_if_chain {L A} (PA : A -> Prop) (PL : L -> Prop)
  (branches : list ((REnv -> RState -> bool) * Stmt L A)) (e : Stmt L A) :
  Forall (fun b => forall env st, good_wrappers (wrapper env) ->
                     fst b env st = true ->
                     ok_at PA PL env st (snd b env st)) branches ->
  good_stmt PA PL e ->
  good_stmt PA PL (if_chain branches e).
Proof.
  intros Hb He. induction Hb as [| [c b] rest Hhead _ IH]; cbn [if_chain].
  - exact He.
  - apply good_gen_if.
    + exact Hhead.
    + intros env st Hw _. apply IH, Hw.
Qed.

Lemma good_parsingError {L A} (PA : A -> Prop) (PL : L -> Prop)
  (cxt : ParseCxt) (err : option ParseError) :
  good_stmt PA PL (parsingError cxt err).
Proof.
  intros env st _. unfold parsingError. cbn. split; [reflexivity | lia].
Qed.

Lemma good_parsingErrorMsg {L A} (PA : A -> Prop) (PL : L -> Prop)
  (cxt : ParseCxt) (msg : string) :
  good_stmt PA PL (parsingErrorMsg cxt msg).
Proof.
  intros env st Hw. unfold parsingErrorMsg.
  apply good_parsingError; exact Hw.
Qed.

Lemma good_jsonSyntaxError {L A} (PA : A -> Prop) (PL : L -> Prop)
  (cxt : ParseCxt) :
  good_stmt PA PL (jsonSyntaxError cxt).
Proof.
  intros env st Hw. unfold jsonSyntaxError. apply good_parsingErrorMsg, Hw.
Qed.

Lemma good_gen_add_jsonPos {L} (PL : L -> Prop) (n : nat) :
  good_stmt (fun _ => True) PL (gen_add_jsonPos n).
Proof.
  intros env st _. cbn. split; [exact Logic.I | lia].
Qed.

Lemma good_gen_throw {L A} (PA : A -> Prop) (PL : L -> Prop) msg :
  good_stmt PA PL (gen_throw msg).
Proof. intros env st _. exact Logic.I. Qed.

Lemma good_gen_break {L A} (PA : A -> Prop) (PL : L -> Prop) (l : L) :
  PL l -> good_stmt PA PL (gen_break l).
Proof.
  intros Hl env st _. cbn. split; [exact Hl | lia].
Qed.

(** *** What an assignment leaves in the variable *)

Lemma js_set_index_defined (o : JsVal) (k : string) (v : JsVal) :
  defined o -> defined (js_set_index o k v).
Proof.
  unfold defined, js_set_index. destruct o; try congruence.
  intros _. destruct (obj_has fields k); [discriminate |].
  destruct (String.eqb k "__proto__" && has_proto_setter o); [| discriminate].
  destruct (is_object v || is_null v); discriminate.
Qed.

Lemma kept_assign (t : Target) (r v : JsVal) :
  (t = [] -> defined v) -> kept t r (assign r t v).
Proof.
  intros Hv Hr. destruct t as [| k t'].
  - apply Hv. reflexivity.
  - cbn [assign]. apply js_set_index_defined, Hr. discriminate.
Qed.

Lemma kept_refl (t : Target) (r : JsVal) : defined r -> kept t r r.
Proof. intros Hr _. exact Hr. Qed.

Lemma kept_trans (t : Target) (r r1 r2 : JsVal) :
  t <> [] -> kept t r r1 -> kept t r1 r2 -> kept t r r2.
Proof. intros Ht H1 H2 Hr. apply H2. intros _. apply H1, Hr. Qed.

Lemma is_undefined_true (v : JsVal) : is_undefined v = true <-> v = JUndefined.
Proof. destruct v; cbn; split; intros H; try discriminate; reflexivity. Qed.

Lemma is_undefined_false (v : JsVal) : is_undefined v = false <-> defined v.
Proof.
  unfold defined. destruct v; cbn; split; intros H; try discriminate;
    try reflexivity; congruence.
Qed.

Section Contract.
Variable I : Imports.
Hypothesis HI : good_imports I.

Lemma good_whitespace {L} (PL : L -> Prop) :
  good_stmt (fun _ => True) PL (whitespace I).
Proof.
  intros env st _. cbn. split; [exact Logic.I | apply (skip_mono I HI)].
Qed.

Lemma good_tryParseToken {L A} (PA : A -> Prop) (PL : L -> Prop)
  (cxt : ParseCxt) (tok : string) (fail success : Stmt L A) :
  good_stmt PA PL fail ->
  good_stmt PA PL success ->
  good_stmt PA PL (tryParseToken I cxt tok fail success).
Proof.
  intros Hf Hs. unfold tryParseToken.
  eapply good_bind; [apply good_whitespace |]. intros _ _.
  apply good_gen_if; intros env st Hw _.
  - refine (good_bind _ _ _ _ _ (good_gen_add_jsonPos _ _) _ env st Hw).
    intros _ _. exact Hs.
  - apply Hf, Hw.
Qed.

Lemma good_parseToken {L} (PL : L -> Prop) (cxt : ParseCxt) (tok : string) :
  good_stmt (fun _ => True) PL (parseToken I cxt tok).
Proof.
  unfold parseToken. apply good_tryParseToken.
  - apply good_jsonSyntaxError.
  - apply good_ret. exact Logic.I.
Qed.

(** After a call that yielded [[d, p]], error [ferr] and slots [e]: the
    target is assigned and read back. *)
Lemma partialParse_after_call {L} (PL : L -> Prop) (cxt : ParseCxt)
  (t : Target) (r : JsVal) (env : REnv) (st : RState) d p ferr e :
  jsonPos st <= p ->
  ok_at (kept t r) PL env st
    (gen_if (fun _ _ => is_undefined (read (assign r t d) t))
       (parsingError cxt ferr) (ret (assign r t d))
       env (mkState p e)).
Proof.
  intros Hp. unfold gen_if.
  destruct (is_undefined (read (assign r t d) t)) eqn:E.
  - cbn. split; [reflexivity | exact Hp].
  - cbn. split; [| exact Hp].
    apply kept_assign. intros ->. cbn [assign read] in E.
    apply is_undefined_false, E.
Qed.

Lemma call_result_ok {L} (PL : L -> Prop) (cxt : ParseCxt)
  (t : Target) (r : JsVal)
  (env : REnv) (st : RState) (name : ParseName) (o : CallOutcome) :
  call_ok (Some (jsonPos st)) true o ->
  (can_finish env -> o <> CDiverge) ->
  ok_at (kept t r) PL env st
    (match
       match o with
       | CRet (RPair d p) e => Next (d, p, e name, e) st
       | CRet (RVal _) _ => Throw "TypeError: not iterable"
       | CThrow m => Throw m
       | CDiverge => Diverge
       end
     with
     | Next res st' =>
         (let '(d, p, ferr, e) := res in
          let r1 := assign r t d in
          (fun _ _ => Next tt (mkState p e)) ;;
          gen_if (fun _ _ => is_undefined (read r1 t))
            (parsingError cxt ferr) (ret r1))
           env st'
     | Break l st' => Break l st'
     | Return v st' => Return v st'
     | Throw m => Throw m
     | Diverge => Diverge
     end).
Proof.
  intros Hok Hfin.
  destruct o as [[d | d p] e | m |]; cbn in Hok |- *; try exact Logic.I.
  - destruct Hok as (_ & Hp). unfold bind.
    apply partialParse_after_call. exact Hp.
  - intros Hc. apply (Hfin Hc). reflexivity.
Qed.

Lemma good_partialParse {L} (PL : L -> Prop) (cxt : ParseCxt)
  (parseFunc : FuncExpr) :
  good_funcexpr parseFunc ->
  good_codeof PL (partialParse cxt parseFunc).
Proof.
  intros Hf t r env st Hw. unfold partialParse. unfold bind at 1.
  destruct parseFunc as [f | f | id]; cbn [apply_func].
  - pose proof (Hf (json env) (jsonPos st)) as Hp.
    unfold bind. apply partialParse_after_call. exact Hp.
  - cbn [fn_call fn_name].
    destruct (Hf (fuel env) (wrapper env) (json env) (Some (jsonPos st)) true
                (errs st) Hw) as (Hok & Hfin).
    apply (call_result_ok PL cxt t r env st (pf_name f)).
    + exact Hok.
    + intros (Hlen & Htot). apply Hfin; assumption.
  - destruct (wrapper env id) as [g |] eqn:Eg; [| exact Logic.I].
    apply (call_result_ok PL cxt t r env st (fn_name g)).
    + apply (Hw id g Eg).
    + intros (_ & Htot). apply (Htot id g Eg).
Qed.

Lemma good_parseWith {L} (PL : L -> Prop) (cxt : ParseCxt) f :
  good_scan f -> good_codeof PL (parseWith cxt f).
Proof. intros Hf. apply good_partialParse. exact Hf. Qed.

Lemma good_parseEmpty {L} (PL : L -> Prop) (cxt : ParseCxt) :
  good_codeof PL (parseEmpty I cxt).
Proof. apply good_parseWith, (json_ok I HI). Qed.

Lemma good_parseString {L} (PL : L -> Prop) (cxt : ParseCxt) :
  good_codeof PL (parseString I cxt).
Proof.
  intros t r. unfold parseString. eapply good_bind; [apply good_parseToken |].
  intros _ _. apply good_parseWith, (string_ok I HI).
Qed.

Lemma good_parseNumber {L} (PL : L -> Prop) (cxt : ParseCxt) md :
  good_codeof PL (parseNumber I cxt md).
Proof.
  intros t r. unfold parseNumber. eapply good_bind; [apply good_whitespace |].
  intros _ _. apply good_gen_if; intros env st Hw _.
  - apply good_jsonSyntaxError, Hw.
  - apply good_parseWith; [apply (number_ok I HI) | exact Hw].
Qed.

Lemma good_parseBoolean {L} (PL : L -> Prop) (b : bool)
  (fail : ParseCxt -> CodeOf L) (cxt : ParseCxt) :
  good_codeof PL (fail cxt) ->
  good_codeof PL (parseBoolean I b fail cxt).
Proof.
  intros Hf t r. unfold parseBoolean. apply good_tryParseToken.
  - apply Hf.
  - apply good_ret, kept_assign. discriminate.
Qed.

Lemma good_parseEnum {L} (PL : L -> Prop) (cxt : ParseCxt) :
  good_codeof PL (parseEnum I cxt).
Proof.
  intros t r. unfold parseEnum. eapply good_bind; [apply good_parseToken |].
  intros _ _. apply good_if_chain; [| apply good_jsonSyntaxError].
  constructor.
  - cbn. intros; discriminate.
  - apply Forall_forall. intros [c b] Hin. apply in_map_iff in Hin.
    destruct Hin as (value & Heq & _). injection Heq as <- <-.
    cbn [fst snd]. intros env st Hw _.
    refine (good_bind _ _ _ _ _ (good_gen_add_jsonPos _ _) _ env st Hw).
    intros _ _. apply good_ret, kept_assign. discriminate.
Qed.

(** A test that follows code on the same target and either fails or leaves
    the variable as it is. *)
Lemma good_then_check {L} (PL : L -> Prop) (cxt : ParseCxt)
  (c : CodeOf L) (cond : JsVal -> bool) (msg : string) :
  good_codeof PL c ->
  good_codeof PL
    (fun t r =>
       r1 <- c t r ;;
       gen_if (fun _ _ => cond (read r1 t)) (parsingErrorMsg cxt msg) (ret r1)).
Proof.
  intros Hc t r. eapply good_bind; [apply Hc |]. intros r1 Hr1.
  apply good_gen_if; intros env st Hw _.
  - apply good_parsingErrorMsg, Hw.
  - apply good_ret; assumption.
Qed.

Lemma good_parseType {L} (PL : L -> Prop) (cxt : ParseCxt) code :
  parseType I cxt = Some code ->
  good_codeof PL code.
Proof.
  unfold parseType.
  destruct (String.eqb _ "boolean").
  { intros H; injection H as <-.
    apply good_parseBoolean, good_parseBoolean.
    intros t r. apply good_jsonSyntaxError. }
  destruct (String.eqb _ "string").
  { intros H; injection H as <-. apply good_parseString. }
  destruct (String.eqb _ "timestamp").
  { intros H; injection H as <-. intros t r.
    eapply good_bind; [apply good_parseString |]. intros r1 Hr1.
    destruct (validTimestamp I (read r1 t)) as [valid |].
    - apply good_gen_if; intros env st Hw _.
      + apply good_parsingErrorMsg, Hw.
      + apply good_ret; assumption.
    - apply good_gen_throw. }
  destruct (String.eqb _ "float32" || String.eqb _ "float64").
  { intros H; injection H as <-. apply good_parseNumber. }
  destruct (intRange I _) as [[[min max] maxDigits] |]; [| discriminate].
  intros H; injection H as <-.
  apply (good_then_check PL cxt (parseNumber I cxt (Some maxDigits))
           (fun v => out_of_range v min max)).
  apply good_parseNumber.
Qed.

Lemma good_checkDuplicateProperty {L} (PL : L -> Prop) data key :
  good_stmt (fun _ => True) PL (checkDuplicateProperty data key).
Proof.
  unfold checkDuplicateProperty. apply good_gen_if; intros env st Hw _.
  - exact Logic.I.
  - apply good_ret; [exact Logic.I | exact Hw].
Qed.

(** One turn of an item loop: when it goes on, a comma was consumed. *)
Lemma items_body_ok {A} (Inv : A -> Prop) (cxt : ParseCxt)
  (block : A -> Stmt A A) (acc : A) (env : REnv) (st : RState) :
  good_stmt Inv Inv (block acc) ->
  good_wrappers (wrapper env) ->
  match items_body I cxt block acc env st with
  | Next a st' => Inv a /\ jsonPos st < jsonPos st'
  | o => ok_at Inv Inv env st o
  end.
Proof.
  intros Hb Hw. unfold items_body, bind.
  specialize (Hb env st Hw).
  destruct (block acc env st) as [a st1 | l st1 | v st1 | m |];
    try exact Hb.
  destruct Hb as (Ha & Hp).
  rewrite tryParseToken_run by (cbn; lia). cbn zeta.
  pose proof (skip_mono I HI (json env) (jsonPos st1)) as Hs.
  destruct (String.eqb _ ","); cbn.
  - split; [exact Ha | lia].
  - split; [exact Ha | lia].
Qed.

Lemma for_items_ok {L A} (Inv : A -> Prop) (cxt : ParseCxt)
  (endToken : string) (block : A -> Stmt A A) (env : REnv) :
  (forall acc, Inv acc -> good_stmt Inv Inv (block acc)) ->
  good_wrappers (wrapper env) ->
  forall n acc st,
    Inv acc ->
    match @for_loop L A n (items_cond endToken) (items_body I cxt block)
            acc env st with
    | Next a st' => Inv a /\ jsonPos st <= jsonPos st'
    | Break _ _ => False
    | Return v st' => v = failure_value env st' /\ jsonPos st <= jsonPos st'
    | Throw _ => True
    | Diverge => ~ (jsonLen env <= n + jsonPos st /\ can_finish env)
    end.
Proof.
  intros Hb Hw. induction n as [| n IH]; intros acc st Hacc; cbn [for_loop].
  - destruct (items_cond endToken env st) eqn:Ec.
    + unfold items_cond in Ec. apply andb_prop in Ec as (Ec & _).
      apply Nat.ltb_lt in Ec. intros (Hn & _). lia.
    + split; [exact Hacc | lia].
  - destruct (items_cond endToken env st) eqn:Ec.
    + pose proof (items_body_ok Inv cxt block acc env st (Hb acc Hacc) Hw)
        as Hbody.
      destruct (items_body I cxt block acc env st)
        as [a st1 | l st1 | v st1 | m |].
      * destruct Hbody as (Ha & Hp).
        specialize (IH a st1 Ha).
        destruct (for_loop n (items_cond endToken) (items_body I cxt block)
                    a env st1) as [a' st' | l st' | v st' | m |].
        -- destruct IH as (Ha' & Hp'). split; [exact Ha' | lia].
        -- exact IH.
        -- destruct IH as (Hv & Hp'). split; [exact Hv | lia].
        -- exact Logic.I.
        -- intros (Hn & Hc). apply IH. split; [lia | exact Hc].
      * exact Hbody.
      * exact Hbody.
      * exact Logic.I.
      * cbn in Hbody. intros (_ & Hc). exact (Hbody Hc).
    + split; [exact Hacc | lia].
Qed.

Lemma good_tryParseItems {L A} (Inv : A -> Prop) (PL : L -> Prop)
  (cxt : ParseCxt) (endToken : string) (block : A -> Stmt A A) (acc : A) :
  (forall acc, Inv acc -> good_stmt Inv Inv (block acc)) ->
  Inv acc ->
  good_stmt Inv PL (tryParseItems I cxt endToken block acc).
Proof.
  intros Hb Hacc env st Hw. unfold tryParseItems, gen_for.
  pose proof (@for_items_ok L A Inv cxt endToken block env Hb Hw (fuel env)
                acc st Hacc) as H.
  destruct (for_loop (fuel env) (items_cond endToken)
              (items_body I cxt block) acc env st)
    as [a st' | l st' | v st' | m |]; cbn; try exact H.
  - destruct H.
  - intros Hc. apply H. split; [| exact Hc].
    destruct Hc as (Hlen & _). lia.
Qed.

Lemma good_parseItems {L A} (Inv : A -> Prop) (PL : L -> Prop)
  (cxt : ParseCxt) (endToken : string) (block : A -> Stmt A A) (acc : A) :
  (forall acc, Inv acc -> good_stmt Inv Inv (block acc)) ->
  Inv acc ->
  good_stmt Inv PL (parseItems I cxt endToken block acc).
Proof.
  intros Hb Hacc. unfold parseItems.
  eapply good_bind; [apply good_tryParseItems; eassumption |].
  intros acc' Hacc'.
  eapply good_bind; [apply good_parseToken |].
  intros _ _. apply good_ret. exact Hacc'.
Qed.
End Contract.

(** ** The contract through generation *)

Lemma gen_ok_ret {A} (P : A -> Prop) (a : A) : P a -> gen_ok P (cm_ret a).
Proof.
  intros Ha s a' s' Hs H. unfold cm_ret in H. injection H as <- <-.
  split; assumption.
Qed.

Lemma gen_ok_bind {A B} (P : A -> Prop) (Q : B -> Prop)
  (m : CM A) (k : A -> CM B) :
  gen_ok P m -> (forall a, P a -> gen_ok Q (k a)) -> gen_ok Q (cm_bind m k).
Proof.
  intros Hm Hk s b s' Hs H. unfold cm_bind in H.
  destruct (m s) as [[a | e |] s1] eqn:Em; try discriminate.
  destruct (Hm s a s1 Hs Em) as (Ha & Hs1).
  exact (Hk a Ha s1 b s' Hs1 H).
Qed.

Lemma gen_ok_weaken {A} (P Q : A -> Prop) (m : CM A) :
  (forall a, P a -> Q a) -> gen_ok P m -> gen_ok Q m.
Proof.
  intros HPQ Hm s a s' Hs H. destruct (Hm s a s' Hs H). auto.
Qed.

Lemma gen_ok_map {A B} (Q : B -> Prop) (f : A -> CM B) (l : list A) :
  (forall x, In x l -> gen_ok Q (f x)) -> gen_ok (Forall Q) (cm_map f l).
Proof.
  induction l as [| x rest IH]; intros Hf; cbn [cm_map].
  - apply gen_ok_ret. constructor.
  - eapply gen_ok_bind; [apply Hf; left; reflexivity |]. intros y Hy.
    eapply gen_ok_bind; [apply IH; intros z Hz; apply Hf; right; exact Hz |].
    intros ys Hys. apply gen_ok_ret. constructor; assumption.
Qed.

Lemma gen_ok_throw {A} (P : A -> Prop) (e : Exn) : gen_ok P (cm_throw e).
Proof. intros s a s' _ H. discriminate. Qed.

Lemma all_good_set_env (s : Ajv) (id : EnvId) (e : SchemaEnv) :
  all_good s ->
  (forall f, se_parse e = Some f -> good_pf f) ->
  all_good (set_env id e s).
Proof.
  intros Hs He id' e' f. unfold set_env, upd; cbn.
  destruct (Nat.eqb id' id).
  - intros H; injection H as <-. apply He.
  - apply Hs.
Qed.

Lemma all_good_modify_parseName (s : Ajv) (id : EnvId) n :
  all_good s -> all_good (modify_env id (set_parseName n) s).
Proof.
  intros Hs. unfold modify_env. destruct (envs s id) as [e |] eqn:E;
    [| exact Hs].
  apply all_good_set_env; [exact Hs |]. cbn. intros f Hf. exact (Hs id e f E Hf).
Qed.

Lemma all_good_modify_parse (s : Ajv) (id : EnvId) (f : ParseFunc) :
  all_good s -> good_pf f -> all_good (modify_env id (set_parse (Some f)) s).
Proof.
  intros Hs Hf. unfold modify_env. destruct (envs s id) as [e |] eqn:E;
    [| exact Hs].
  apply all_good_set_env; [exact Hs |]. cbn. intros g Hg.
  injection Hg as <-. exact Hf.
Qed.

Section GenContract.
Variable I : Imports.
Hypothesis HI : good_imports I.
Variable pc : ParseCxt -> CM Code.
Variable cp : EnvId -> SchemaObjectMap -> CM EnvId.
Hypothesis Hpc : forall cxt, gen_ok good_code (pc cxt).
Hypothesis Hcp : forall sch defs, gen_ok (fun _ => True) (cp sch defs).

Lemma gen_ok_sub_schema (o : option Schema) :
  gen_ok (fun _ => True) (sub_schema o).
Proof.
  destruct o; [apply gen_ok_ret; exact Logic.I | apply gen_ok_throw].
Qed.

Lemma grows_refl (r : JsVal) : grows r r.
Proof. intros H; exact H. Qed.

Lemma grows_assign (r : JsVal) (t : Target) (v : JsVal) :
  (t = [] -> defined r -> defined v) -> grows r (assign r t v).
Proof.
  intros Hv Hr. destruct t as [| k t'].
  - apply Hv; [reflexivity | exact Hr].
  - cbn [assign]. apply js_set_index_defined, Hr.
Qed.

Lemma kept_grows (t : Target) (r0 r r' : JsVal) :
  kept t r0 r -> grows r r' -> kept t r0 r'.
Proof. intros H1 H2 H0. apply H2, H1, H0. Qed.

Lemma kept_nonempty (t : Target) (k : string) (r r' : JsVal) :
  kept (t ++ [k])%list r r' -> grows r r'.
Proof.
  intros H Hr. apply H. intros _. exact Hr.
Qed.

Lemma good_elements_block (elCode : Code) (t : Target) (r : JsVal) (ix : nat) :
  good_code elCode ->
  good_stmt (fun v => grows r (fst v)) (fun v => grows r (fst v))
    (elements_block elCode t (r, ix)).
Proof.
  intros Hel. unfold elements_block.
  eapply good_bind; [eapply good_lift; apply (Hel [] JUndefined) |].
  intros el Hd. apply good_ret. cbn [fst].
  apply grows_assign. intros ->. cbn [read].
  intros Hr. revert Hr. unfold defined, js_set_item.
  destruct r; try discriminate; congruence.
Qed.

Lemma gen_ok_parseElements (cxt : ParseCxt) :
  gen_ok good_code (parseElements I pc cxt).
Proof.
  unfold parseElements.
  eapply gen_ok_bind; [apply gen_ok_sub_schema |]. intros sch _.
  eapply gen_ok_bind; [apply (Hpc (with_schema cxt sch)) |].
  intros elCode Hel.
  apply gen_ok_ret. intros t r.
  eapply good_bind; [apply (good_parseToken I HI) |]. intros _ _.
  eapply good_bind with (PA := fun v => kept t r (fst v)).
  - apply (good_parseItems I HI (fun v => kept t r (fst v))).
    + intros [r1 ix] Hacc. cbn [fst] in Hacc. intros env st Hw.
      eapply ok_at_weaken;
        [| | apply (good_elements_block elCode t r1 ix Hel env st Hw)];
        cbn beta; intros v Hv; eapply kept_grows; eassumption.
    + cbn [fst]. apply kept_assign. discriminate.
  - intros res Hres. apply good_ret. exact Hres.
Qed.

Lemma gen_ok_parsePropertyValue (cxt : ParseCxt) (sch : Schema) :
  gen_ok good_value_code (parsePropertyValue pc cxt sch).
Proof.
  unfold parsePropertyValue.
  eapply gen_ok_bind; [apply (Hpc (with_schema cxt sch)) |].
  intros code Hcode.
  apply gen_ok_ret. intros key t r env st Hw.
  eapply ok_at_weaken;
    [| | apply (good_lift _ _ (grows r)
                  (code (t ++ [js_to_string key])%list r)
                  (Hcode (t ++ [js_to_string key])%list r) env st Hw)].
  - intros r' Hr'. eapply kept_nonempty, Hr'.
  - intros l Hl. exact Hl.
Qed.

Lemma gen_ok_parseKeyValue (cxt : ParseCxt) (sch : Schema) :
  gen_ok good_block (parseKeyValue I pc cxt sch).
Proof.
  unfold parseKeyValue.
  eapply gen_ok_bind; [apply gen_ok_parsePropertyValue |].
  intros valueCode Hv. apply gen_ok_ret. intros t r.
  eapply good_bind; [apply (good_parseString I HI) |]. intros key _.
  eapply good_bind; [apply good_checkDuplicateProperty |]. intros _ _.
  eapply good_bind; [apply (good_parseToken I HI) |]. intros _ _.
  apply Hv.
Qed.

(** A loop over an object: the block works inside the object that the
    variable holds from the start. *)
Lemma good_object_items {L} (PL : L -> Prop) (cxt : ParseCxt)
  (block : CodeOf JsVal) (P : JsVal -> Prop) (t : Target) (r : JsVal) :
  good_block block ->
  P r ->
  (forall r1 r2, P r1 -> grows r1 r2 -> P r2) ->
  good_stmt P PL (parseItems I cxt "}" (block t) r).
Proof.
  intros Hb Hr Hstep.
  apply (good_parseItems I HI P); [| exact Hr].
  intros r1 Hr1 env st Hw.
  eapply ok_at_weaken; [| | apply (Hb t r1 env st Hw)];
    intros v Hv; eapply Hstep; eassumption.
Qed.

Lemma gen_ok_parseValues (cxt : ParseCxt) :
  gen_ok good_code (parseValues I pc cxt).
Proof.
  unfold parseValues.
  eapply gen_ok_bind; [apply gen_ok_sub_schema |]. intros sch _.
  eapply gen_ok_bind; [apply gen_ok_parseKeyValue |]. intros block Hb.
  apply gen_ok_ret. intros t r.
  eapply good_bind; [apply (good_parseToken I HI) |]. intros _ _.
  apply good_object_items.
  - exact Hb.
  - apply kept_assign. discriminate.
  - intros r1 r2 H1 H2. eapply kept_grows; eassumption.
Qed.

Lemma gen_ok_parseDefinedProperty (cxt : ParseCxt) schemas :
  gen_ok (Forall (fun pcode => good_value_code (snd pcode)))
         (parseDefinedProperty pc cxt schemas).
Proof.
  unfold parseDefinedProperty. apply gen_ok_map. intros [prop sch] _.
  eapply gen_ok_bind; [apply gen_ok_parsePropertyValue |].
  intros code Hc. apply gen_ok_ret. exact Hc.
Qed.

Lemma good_defined_branches codes key t r :
  Forall (fun pcode => good_value_code (snd pcode)) codes ->
  Forall (fun b => forall env st, good_wrappers (wrapper env) ->
                     fst b env st = true ->
                     ok_at (grows r) (grows r) env st (snd b env st))
         (defined_branches codes key t r).
Proof.
  intros Hc. unfold defined_branches. apply Forall_forall.
  intros [c b] Hin. apply in_map_iff in Hin.
  destruct Hin as ([prop code] & Heq & Hin). injection Heq as <- <-.
  rewrite Forall_forall in Hc. specialize (Hc _ Hin).
  cbn [fst snd] in *. intros env st Hw _. apply Hc; assumption.
Qed.

Lemma good_parseSchemaProperties_block (cxt : ParseCxt) disc required optional :
  Forall (fun pcode => good_value_code (snd pcode)) required ->
  Forall (fun pcode => good_value_code (snd pcode)) optional ->
  good_block (parseSchemaProperties_block I cxt disc required optional).
Proof.
  intros Hr Ho t r. unfold parseSchemaProperties_block.
  eapply good_bind; [apply (good_parseString I HI) |]. intros key _.
  eapply good_bind.
  { instantiate (1 := fun _ => True). destruct (given disc).
    - apply good_gen_if; intros env st Hw _.
      + apply good_checkDuplicateProperty, Hw.
      + apply good_ret; [exact Logic.I | exact Hw].
    - apply good_checkDuplicateProperty. }
  intros _ _.
  eapply good_bind; [apply (good_parseToken I HI) |]. intros _ _.
  apply good_if_chain.
  - apply Forall_app; split;
      [| apply Forall_app; split; [| apply Forall_app; split]].
    + constructor; [| constructor]. cbn. intros; discriminate.
    + apply good_defined_branches; assumption.
    + apply good_defined_branches; assumption.
    + destruct (given disc); [| constructor].
      constructor; [| constructor]. cbn [fst snd]. intros env st Hw _.
      refine (good_bind _ _ _ _ _
                (good_parseString I HI _ cxt [] JUndefined) _ env st Hw).
      intros _ _. apply good_ret, grows_refl.
  - destruct (additionalProperties (schema cxt)).
    + intros env st Hw.
      eapply ok_at_weaken;
        [| | apply (good_parseEmpty I HI (grows r) cxt
                      (t ++ [js_to_string key])%list r env st Hw)].
      * intros r' Hr'. eapply kept_nonempty, Hr'.
      * intros l Hl. exact Hl.
    + apply good_parsingErrorMsg.
Qed.

Lemma good_required_check (cxt : ParseCxt) props t r :
  good_stmt (grows r) (fun _ => True) (required_check cxt props t r).
Proof.
  unfold required_check. apply good_gen_if; intros env st Hw _.
  - apply good_parsingErrorMsg, Hw.
  - apply good_ret; [apply grows_refl | exact Hw].
Qed.

Lemma gen_ok_parseSchemaProperties (cxt : ParseCxt) disc :
  gen_ok good_body (parseSchemaProperties I pc cxt disc).
Proof.
  unfold parseSchemaProperties.
  eapply gen_ok_bind; [apply gen_ok_parseDefinedProperty |]. intros required Hr.
  eapply gen_ok_bind; [apply gen_ok_parseDefinedProperty |]. intros optional Ho.
  pose proof (good_parseSchemaProperties_block cxt disc required optional
                Hr Ho) as Hb.
  destruct (properties (schema cxt)) as [[| p props] |].
  - apply gen_ok_throw.
  - apply gen_ok_ret. intros t r.
    eapply good_bind.
    + apply (good_object_items (fun _ => True) cxt _ (grows r) t r Hb
               (grows_refl r)).
      intros r1 r2 H1 H2 H0. apply H2, H1, H0.
    + intros r' Hr'. intros env st Hw.
      eapply ok_at_weaken;
        [| | apply (good_required_check cxt (p :: props) t r' env st Hw)].
      * intros r2 H2 H0. apply H2, Hr', H0.
      * intros l Hl. exact Hl.
  - apply gen_ok_ret. intros t r.
    apply (good_object_items (fun _ => True) cxt _ (grows r) t r Hb
             (grows_refl r)).
    intros r1 r2 H1 H2 H0. apply H2, H1, H0.
Qed.

(** Code that continues an object, run on the object just assigned. *)
Lemma good_body_on_new (body : Code) (t : Target) (r : JsVal) :
  good_body body ->
  good_stmt (kept t r) (fun _ => True) (body t (assign r t (JObj []))).
Proof.
  intros Hb env st Hw.
  eapply ok_at_weaken; [| | apply (Hb t (assign r t (JObj [])) env st Hw)].
  - intros r' Hr'. eapply kept_grows; [| exact Hr'].
    apply kept_assign. discriminate.
  - intros l Hl. exact Hl.
Qed.

Lemma gen_ok_parseProperties (cxt : ParseCxt) :
  gen_ok good_code (parseProperties I pc cxt).
Proof.
  unfold parseProperties.
  eapply gen_ok_bind; [apply gen_ok_parseSchemaProperties |]. intros body Hb.
  apply gen_ok_ret. intros t r.
  eapply good_bind; [apply (good_parseToken I HI) |]. intros _ _.
  apply good_body_on_new, Hb.
Qed.

Lemma good_parseDiscriminator_block (cxt : ParseCxt) disc t r tag :
  good_stmt (fun v => grows r (fst v)) (fun v => grows r (fst v))
    (parseDiscriminator_block I cxt disc t (r, tag)).
Proof.
  unfold parseDiscriminator_block.
  eapply good_bind; [apply (good_parseString I HI) |]. intros key _.
  eapply good_bind; [apply (good_parseToken I HI) |]. intros _ _.
  apply good_gen_if; intros env st Hw _.
  - refine (good_bind _ _ _ _ _
              (good_parseString I HI _ cxt [] tag) _ env st Hw).
    intros tag' _. apply good_gen_break. cbn [fst].
    intros Hr. destruct t; cbn [app assign]; apply js_set_index_defined, Hr.
  - refine (good_bind _ _ _ _ _
              (good_parseEmpty I HI _ cxt [] JUndefined) _ env st Hw).
    intros _ _. apply good_ret. cbn [fst]. apply grows_refl.
Qed.

Lemma good_parseDiscriminator_dispatch (cxt : ParseCxt) branches t r tag :
  Forall (fun b => good_body (snd b)) branches ->
  good_stmt (grows r) (fun _ => True)
    (parseDiscriminator_dispatch cxt branches t r tag).
Proof.
  intros Hb. unfold parseDiscriminator_dispatch.
  apply good_if_chain; [| apply good_parsingErrorMsg].
  constructor.
  - cbn [fst snd]. intros env st Hw _. apply good_parsingErrorMsg, Hw.
  - apply Forall_forall. intros [c b] Hin. apply in_map_iff in Hin.
    destruct Hin as ([tagValue code] & Heq & Hin). injection Heq as <- <-.
    rewrite Forall_forall in Hb. specialize (Hb _ Hin). cbn [fst snd] in *.
    intros env st Hw _. apply Hb; assumption.
Qed.

Lemma gen_ok_parseDiscriminator (cxt : ParseCxt) :
  gen_ok good_code (parseDiscriminator I pc cxt).
Proof.
  unfold parseDiscriminator.
  eapply gen_ok_bind.
  { apply gen_ok_map with (Q := fun b => good_body (snd b)).
    intros [tagValue branch] _.
    eapply gen_ok_bind;
      [apply (gen_ok_parseSchemaProperties (with_schema cxt branch)) |].
    intros code Hc. apply gen_ok_ret. exact Hc. }
  intros branches Hb. apply gen_ok_ret. intros t r.
  eapply good_bind; [apply (good_parseToken I HI) |]. intros _ _.
  intros env st0 Hw. unfold bind at 1.
  pose proof (good_tryParseItems I HI (fun v => kept t r (fst v))
                (fun _ : Empty_set => True) cxt "}"
                (parseDiscriminator_block I cxt (discriminator (schema cxt)) t)
                (assign r t (JObj []), JUndefined)) as Hscan.
  specialize (Hscan
    ltac:(intros [r1 tag1] Hacc env1 st1 Hw1;
          eapply ok_at_weaken;
            [| | apply (good_parseDiscriminator_block cxt
                          (discriminator (schema cxt)) t r1 tag1 env1 st1 Hw1)];
          cbn beta; intros v Hv; eapply kept_grows; eassumption)
    ltac:(cbn [fst]; apply kept_assign; discriminate) env st0 Hw).
  destruct (tryParseItems I cxt "}" _ (assign r t (JObj []), JUndefined)
              env st0)
    as [[r1 tag] st2 | [] st2 | v st2 | m |]; try exact Hscan.
  destruct Hscan as (Hd & Hp). cbn [fst] in Hd.
  unfold bind, gen_assign_jsonPos.
  eapply ok_at_from with (st1 := mkState (jsonPos st0) (errs st2)).
  - cbn. lia.
  - eapply ok_at_weaken;
      [| | apply (good_parseDiscriminator_dispatch cxt branches t r1 tag Hb
                    env (mkState (jsonPos st0) (errs st2)) Hw)].
    + intros r2 H2. eapply kept_grows; eassumption.
    + intros l Hl. exact Hl.
Qed.

Lemma gen_ok_getParser (sch : EnvId) : gen_ok good_funcexpr (getParser sch).
Proof.
  intros s f s' Hs H. unfold getParser in H.
  destruct (envs s sch) as [[x1 x2 x3 [parse |] x5] |] eqn:E;
    injection H as <- <-; split; try exact Hs; try exact Logic.I.
  cbn. apply (Hs sch _ parse E). reflexivity.
Qed.

Lemma gen_ok_new_SchemaEnv sch sid root :
  gen_ok (fun _ => True) (new_SchemaEnv sch sid root).
Proof.
  intros s id s' Hs H. unfold new_SchemaEnv in H. injection H as <- <-.
  split; [exact Logic.I |].
  intros id' e f. cbn. unfold upd. destruct (Nat.eqb id' (next_env s)).
  - intros H; injection H as <-. cbn. discriminate.
  - apply Hs.
Qed.

Lemma gen_ok_parseRef (cxt : ParseCxt) :
  gen_ok good_code (parseRef I pc cp cxt).
Proof.
  unfold parseRef.
  destruct (definitions_get (definitions cxt) _) as [refSchema |];
    [| apply gen_ok_throw].
  destruct (negb (hasRef I refSchema)).
  - apply (Hpc (with_schema cxt refSchema)).
  - intros s code s' Hs H. cbn beta zeta in H. revert s code s' Hs H.
    generalize (match ref (schema cxt) with Some r => r | None => "undefined" end).
    intros r s.
    generalize (match envs s (schemaEnv cxt) with
                | Some e => se_root e
                | None => schemaEnv cxt
                end).
    intros root. revert s.
    change (gen_ok good_code
              (let* env := new_SchemaEnv refSchema (DefSchema r) root in
               let* sch := cp env (definitions cxt) in
               let* f := getParser sch in
               cm_ret (partialParse cxt f))).
    eapply gen_ok_bind; [apply gen_ok_new_SchemaEnv |]. intros env _.
    eapply gen_ok_bind; [apply Hcp |]. intros sch _.
    eapply gen_ok_bind; [apply gen_ok_getParser |]. intros f Hf.
    apply gen_ok_ret. apply good_partialParse. exact Hf.
Qed.

Lemma gen_ok_genParse (form : JTDForm) (cxt : ParseCxt) :
  gen_ok good_code (genParse I pc cp form cxt).
Proof.
  destruct form; cbn [genParse].
  - apply gen_ok_parseElements.
  - apply gen_ok_parseValues.
  - apply gen_ok_parseDiscriminator.
  - apply gen_ok_parseProperties.
  - apply gen_ok_parseProperties.
  - apply gen_ok_ret. apply (good_parseEnum I HI).
  - destruct (parseType I cxt) as [code |] eqn:E; [| apply gen_ok_throw].
    apply gen_ok_ret. apply (good_parseType I HI _ cxt code E).
  - apply gen_ok_parseRef.
Qed.

Lemma gen_ok_parseNullable (cxt : ParseCxt) (parseForm : GenParse) :
  gen_ok good_code (parseForm cxt) ->
  gen_ok good_code (parseNullable I cxt parseForm).
Proof.
  intros Hf. unfold parseNullable.
  destruct (negb (nullable (schema cxt))); [exact Hf |].
  eapply gen_ok_bind; [exact Hf |]. intros form Hform.
  apply gen_ok_ret. intros t r.
  apply (good_tryParseToken I HI); [apply Hform |].
  apply good_ret, kept_assign. discriminate.
Qed.

Lemma gen_ok_parseCode_body (cxt : ParseCxt) :
  gen_ok good_code (parseCode_body I pc cp cxt).
Proof.
  unfold parseCode_body. apply gen_ok_parseNullable.
  destruct (find _ jtdForms) as [f |].
  - apply gen_ok_genParse.
  - apply gen_ok_ret. apply (good_parseEmpty I HI).
Qed.
End GenContract.

(** ** The contract of assembled parse functions *)

Section Assembly.
Variable I : Imports.
Hypothesis HI : good_imports I.
Variable pc : ParseCxt -> CM Code.
Hypothesis Hpc : forall cxt, gen_ok good_code (pc cxt).

Lemma good_emitted_function (cxt : ParseCxt) (code : Code) :
  good_code code -> good_pf (emitted_function I cxt code).
Proof.
  intros Hc.
  intros n w text pos part slots Hw. unfold emitted_function.
  cbn [pf_code pf_name].
  set (env := mkEnv text part n w).
  set (st := mkState match pos with Some p => p | None => 0 end
                     (upd (parseName cxt) None slots)).
  unfold bind, whitespace, gen_if, gen_return.
  cbn [json jsonPart jsonPos errs env].
  specialize (Hc [] JUndefined env st Hw).
  destruct (code [] JUndefined env st) as [d st1 | [] st1 | v st1 | m |].
  - destruct Hc as (Hd & Hp).
    pose proof (skip_mono I HI text (jsonPos st1)) as Hs.
    assert (Hstart : start_of pos <= skipWhitespace I text (jsonPos st1)).
    { unfold st in Hp. cbn [jsonPos] in Hp. unfold start_of. lia. }
    destruct part.
    + split; [| intros _ _; discriminate].
      cbn [call_ok]. split; [reflexivity | exact Hstart].
    + destruct (Nat.eqb _ (jsonLen env)).
      * split; [| intros _ _; discriminate]. reflexivity.
      * split; [| intros _ _; discriminate].
        unfold jsonSyntaxError, parsingErrorMsg, parsingError.
        cbn [call_ok jsonPart env errs jsonPos]. reflexivity.
  - destruct Hc as (Hv & Hp). split; [| intros _ _; discriminate].
    subst v. unfold failure_value. cbn [jsonPart env].
    destruct part; cbn [call_ok].
    + split; [reflexivity |].
      unfold st in Hp. cbn [jsonPos] in Hp. unfold start_of. exact Hp.
    + reflexivity.
  - split; [exact Logic.I | intros _ _; discriminate].
  - split; [exact Logic.I |]. intros Hlen Htot _. apply Hc.
    split; [exact Hlen | exact Htot].
Qed.

Lemma gen_ok_parserFunction (cxt : ParseCxt) :
  gen_ok good_pf (parserFunction I pc cxt).
Proof.
  unfold parserFunction.
  eapply gen_ok_bind; [apply Hpc |]. intros code Hc. apply gen_ok_ret.
  apply good_emitted_function. exact Hc.
Qed.
End Assembly.

Lemma gen_ok_try {A} (P : A -> Prop) (body : CM A) (handler final : Ajv -> Ajv) :
  gen_ok P body ->
  (forall s, all_good s -> all_good (final s)) ->
  gen_ok P (try_catch_rethrow_finally body handler final).
Proof.
  intros Hb Hf s a s' Hs H. unfold try_catch_rethrow_finally in H.
  destruct (body s) as [[a0 | e |] s1] eqn:Eb; try discriminate.
  injection H as <- <-. destruct (Hb s a0 s1 Hs Eb) as (Ha & Hs1).
  split; [exact Ha | apply Hf, Hs1].
Qed.

Lemma gen_ok_update (f : Ajv -> Ajv) :
  (forall s, all_good s -> all_good (f s)) ->
  gen_ok (fun _ => True) (fun s => (Ok tt, f s)).
Proof.
  intros Hf s a s' Hs H. injection H as <- <-. split; [exact Logic.I | auto].
Qed.

Lemma gen_ok_scopeName : gen_ok (fun _ => True) scopeName.
Proof.
  intros s a s' Hs H. unfold scopeName in H. injection H as <- <-.
  split; [exact Logic.I | exact Hs].
Qed.

Lemma gen_ok_compileParser_body (I : Imports) (HI : good_imports I)
  (pc : ParseCxt -> CM Code)
  (Hpc : forall cxt, gen_ok good_code (pc cxt))
  (sch : EnvId) (defs : SchemaObjectMap) :
  gen_ok (fun _ => True) (compileParser_body I pc sch defs).
Proof.
  intros s id s' Hs H. unfold compileParser_body in H.
  destruct (getCompilingSchema s sch) as [c |].
  { injection H as <- <-. split; [exact Logic.I | exact Hs]. }
  revert H.
  generalize (match envs s sch with
              | Some e => se_schema e
              | None => empty_schema
              end).
  intros schema0 H. revert s id s' Hs H.
  change (gen_ok (fun _ : EnvId => True)
    (let* parseName := scopeName in
     let cxt := mkCxt sch defs schema0 parseName in
     let* _ :=
       try_catch_rethrow_finally
         (let* _ := (fun s => (Ok tt, compilations_add sch s)) in
          let* _ := (fun s => (Ok tt, modify_env sch
                                        (set_parseName (Some parseName)) s)) in
          let* parse := parserFunction I pc cxt in
          fun s => (Ok tt, modify_env sch (set_parse (Some parse)) s))
         (fun s => modify_env sch (set_parseName None)
                     (modify_env sch (set_parse None) s))
         (compilations_delete sch) in
     cm_ret sch)).
  eapply gen_ok_bind; [apply gen_ok_scopeName |]. intros parseName _.
  cbn zeta.
  eapply gen_ok_bind; [| intros _ _; apply gen_ok_ret; exact Logic.I].
  apply gen_ok_try with (P := fun _ : unit => True).
  - eapply gen_ok_bind; [apply gen_ok_update; intros s Hs; exact Hs |].
    intros _ _.
    eapply gen_ok_bind;
      [apply gen_ok_update; intros s Hs; apply all_good_modify_parseName, Hs |].
    intros _ _.
    eapply gen_ok_bind; [apply (gen_ok_parserFunction I HI pc Hpc) |].
    intros parse Hparse.
    apply gen_ok_update. intros s Hs. apply all_good_modify_parse; assumption.
  - intros s Hs. exact Hs.
Qed.

(** Every statement [parseCode] emits and every function [compileParser]
    stores keeps the contract, whatever the nesting bound. *)
Lemma gen_ok_parseCode_compileParser (I : Imports) (HI : good_imports I)
  (n : nat) :
  (forall cxt, gen_ok good_code (parseCode n I cxt))
  /\ (forall sch defs, gen_ok (fun _ => True) (compileParser n I sch defs)).
Proof.
  induction n as [| n (IHp & IHc)].
  - split; intros; intros s a s' _ H; discriminate.
  - split.
    + intros cxt. cbn [parseCode].
      apply gen_ok_parseCode_body; assumption.
    + intros sch defs. cbn [compileParser].
      apply gen_ok_compileParser_body; assumption.
Qed.

Lemma parseCode_good (I : Imports) (HI : good_imports I) (n : nat)
  (cxt : ParseCxt) :
  gen_ok good_code (parseCode n I cxt).
Proof. apply gen_ok_parseCode_compileParser, HI. Qed.

Lemma compileParser_good (I : Imports) (HI : good_imports I) (n : nat)
  (sch : EnvId) (defs : SchemaObjectMap) :
  gen_ok (fun _ => True) (compileParser n I sch defs).
Proof. apply gen_ok_parseCode_compileParser, HI. Qed.

(** ** Linked wrappers *)

Lemma link_good (s : Ajv) (loops depth : nat) :
  all_good s -> good_wrappers (link loops depth s).
Proof.
  intros Hs. induction depth as [| d IH]; intros id f Hf.
  - cbn in Hf. destruct (envs s id) as [[x1 x2 x3 [p |] x5] |]; try discriminate.
    injection Hf as <-. intros text pos part slots. exact Logic.I.
  - cbn [link] in Hf.
    destruct (envs s id) as [[x1 x2 x3 [p |] x5] |] eqn:E; try discriminate.
    injection Hf as <-. intros text pos part slots. cbn [fn_name fn_call].
    apply (Hs id _ p E eq_refl loops (link loops d s) text pos part slots IH).
Qed.

(** With a loop bound of at least the length of the input, every call
    through a wrapper comes back: when the stack is used up, with a
    [RangeError]. *)
Lemma link_total (s : Ajv) (text : string) (loops depth : nat) :
  all_good s ->
  String.length text <= loops ->
  total_wrappers text (link loops depth s).
Proof.
  intros Hs Hlen. induction depth as [| d IH];
    intros id f Hf pos part slots.
  - cbn in Hf. destruct (envs s id) as [[x1 x2 x3 [p |] x5] |]; try discriminate.
    injection Hf as <-. cbn. discriminate.
  - cbn [link] in Hf.
    destruct (envs s id) as [[x1 x2 x3 [p |] x5] |] eqn:E; try discriminate.
    injection Hf as <-. cbn [fn_call].
    apply (Hs id _ p E eq_refl loops (link loops d s) text pos part slots
             (link_good s loops d Hs)); assumption.
Qed.

Lemma new_Ajv_good (sch : Schema) : all_good (new_Ajv sch).
Proof.
  intros id e f. unfold new_Ajv, upd; cbn.
  destruct (Nat.eqb id 0); [| discriminate].
  intros H; injection H as <-. cbn. discriminate.
Qed.

(** ** The entry protocol *)

(** What the assembled function does with the outcome of the generator
    chain. *)
Lemma parserFunction_run (I : Imports)
  (pc : ParseCxt -> CM Code) (cxt : ParseCxt)
  (s s' : Ajv) (f : ParseFunc) :
  parserFunction I pc cxt s = (Ok f, s') ->
  exists code,
    pc cxt s = (Ok code, s') /\ pf_name f = parseName cxt /\
    forall n w text pos part slots,
      let env := mkEnv text part n w in
      pf_code f n w text pos part slots =
        match code [] JUndefined env (entry_state cxt pos slots) with
        | Next data st1 =>
            let st2 := after_whitespace I env st1 in
            if part then CRet (RPair data (jsonPos st2)) (errs st2)
            else if Nat.eqb (jsonPos st2) (String.length text)
                 then CRet (RVal data) (errs st2)
                 else CRet (RVal JUndefined)
                        (errs (record_error cxt (unexpected_token env st2) st2))
        | Break l _ => match l with end
        | Return v st1 => CRet v (errs st1)
        | Throw m => CThrow m
        | Diverge => CDiverge
        end.
Proof.
  intros H. unfold parserFunction, cm_bind, cm_ret in H.
  destruct (pc cxt s) as [[code | e |] s1] eqn:Ec; try discriminate.
  injection H as <- <-. exists code. split; [reflexivity |].
  split; [reflexivity |].
  intros n w text pos part slots env. unfold emitted_function.
  cbn [pf_code].
  unfold bind at 1. fold env. unfold entry_state, start_of.
  destruct (code [] JUndefined env _) as [d st1 | [] st1 | v st1 | m |];
    try reflexivity.
  unfold bind, whitespace, gen_if, gen_return. cbn [jsonPart env].
  destruct part; [reflexivity |].
  unfold jsonLen. cbn [json jsonPos env after_whitespace].
  destruct (Nat.eqb _ (String.length text)); reflexivity.
Qed.

(** ** The reference scanner keeps the scanner contract *)

Lemma Scanner_parseJsonNumber_good (md : option nat) :
  good_scan (fun s p => Scanner.parseJsonNumber s p md).
Proof.
  intros s p. unfold Scanner.parseJsonNumber.
  destruct (Scanner.sign_of (Scanner.drop p s)) as [[neg body] sign].
  destruct (Scanner.digits body 0%Z 0) as [z k].
  destruct (Nat.eqb k 0); [cbn; lia |].
  destruct (match md with Some m => Nat.ltb m k | None => false end);
    cbn; lia.
Qed.

Lemma Scanner_imports_good : good_imports Scanner.imports.
Proof.
  constructor; cbn.
  - intros s p. unfold Scanner.skipWhitespace. lia.
  - intros s p. unfold Scanner.parseJsonString.
    destruct (Scanner.str_body (Scanner.drop p s)) as [[t k] |]; cbn; lia.
  - apply Scanner_parseJsonNumber_good.
  - intros s p. unfold Scanner.parseJson.
    destruct (Scanner.value _ _) as [[v after] |]; cbn.
    + destruct v; cbn; lia.
    + lia.
Qed.

(** C2: the function assembled by [parserFunction] runs the generator chain
    on the variable [data] from the start position (0 when none is given)
    and skips the whitespace after it; in partial mode it returns the pair
    of the value and the position, also when the chain failed
    ([[undefined, position]]); otherwise it returns the value alone when the
    position after the skipped whitespace is the input length, and else
    fails with a syntax error recorded at that position.  On [{} trailing] a
    schema that accepts the empty object succeeds in partial mode with
    position 3, after the whitespace that follows the closing brace, and
    fails with a syntax error at 3 otherwise. *)
Theorem parserFunction_entry_protocol (I : Imports) (n : nat) (cxt : ParseCxt)
  (s0 s : Ajv) (f : ParseFunc) :
  good_imports I ->
  all_good s0 ->
  parserFunction I (parseCode n I) cxt s0 = (Ok f, s) ->
  (exists code,
     parseCode n I cxt s0 = (Ok code, s) /\
     forall m w text pos part slots,
       good_wrappers w ->
       let env := mkEnv text part m w in
       match code [] JUndefined env (entry_state cxt pos slots) with
       | Next data st1 =>
           let p := skipWhitespace I text (jsonPos st1) in
           defined data /\
           pf_code f m w text pos part slots =
             if part then CRet (RPair data p) (errs st1)
             else if Nat.eqb p (String.length text)
                  then CRet (RVal data) (errs st1)
                  else CRet (RVal JUndefined)
                         (upd (parseName cxt)
                            (Some (mkError
                                     (unexpected_token env (mkState p (errs st1)))
                                     p))
                            (errs st1))
       | Break _ _ => False
       | Return v st1 =>
           pf_code f m w text pos part slots =
             CRet (if part then RPair JUndefined (jsonPos st1)
                   else RVal JUndefined) (errs st1)
       | Throw msg => pf_code f m w text pos part slots = CThrow msg
       | Diverge => pf_code f m w text pos part slots = CDiverge
       end)
  /\ observe (compile_and_parse Scanner.imports 4
                (values_schema empty_schema) [] text_trailing true)
     = Some (RPair (JObj []) 3, None)
  /\ observe (compile_and_parse Scanner.imports 4
                (values_schema empty_schema) [] text_trailing false)
     = Some (RVal JUndefined, Some (mkError "unexpected token t" 3)).
Proof.
  intros HI Hs0 Hf. split; [| split; vm_compute; reflexivity].
  destruct (parserFunction_run I (parseCode n I) cxt s0 s f Hf)
    as (code & Hcode & _ & Hrun).
  exists code. split; [exact Hcode |].
  intros m w text pos part slots Hw env.
  destruct (parseCode_good I HI n cxt s0 code s Hs0 Hcode) as (Hgood & _).
  specialize (Hgood [] JUndefined env (entry_state cxt pos slots) Hw).
  rewrite (Hrun m w text pos part slots). fold env.
  destruct (code [] JUndefined env (entry_state cxt pos slots))
    as [d st1 | [] st1 | v st1 | msg |]; try reflexivity.
  - destruct Hgood as (Hd & _). split; [| reflexivity].
    apply Hd. intros H. exfalso. apply H. reflexivity.
  - destruct Hgood as (Hv & _). subst v. reflexivity.
Qed.

(** On [{} trailing] the position returned in partial mode is not 2, the
    position just after the closing brace. *)
Lemma partial_position_skips_whitespace :
  ~ (exists e,
       compile_and_parse Scanner.imports 4 (values_schema empty_schema) []
         text_trailing true
       = Ok (CRet (RPair (JObj []) 2) e))
  /\ ~ (exists e,
       compile_and_parse Scanner.imports 4 (optionalProperties_schema []) []
         text_trailing true
       = Ok (CRet (RPair (JObj []) 2) e))
  /\ ~ (exists e,
       compile_and_parse Scanner.imports 4 empty_schema []
         text_trailing true
       = Ok (CRet (RPair (JObj []) 2) e)).
Proof.
  repeat split; intros (e & H);
    apply (f_equal observe) in H; vm_compute in H; discriminate.
Qed.

(** ** Item loops, turn by turn *)

Lemma for_loop_reach {L A} (I : Imports) (cxt : ParseCxt) (endToken : string)
  (block : A -> Stmt A A) (env : REnv) k acc st acc' st' :
  items_reach I cxt endToken block env k acc st acc' st' ->
  forall n,
    @for_loop L A (k + n) (items_cond endToken) (items_body I cxt block)
      acc env st
    = for_loop n (items_cond endToken) (items_body I cxt block) acc' env st'.
Proof.
  induction 1 as [| k acc st acc1 st1 acc' st' Hc Hb _ IH]; intros n.
  - reflexivity.
  - cbn [Nat.add for_loop]. rewrite Hc, Hb. apply IH.
Qed.

(** The loop from a turn it reaches: what is left of it is the loop started
    there. *)
Lemma tryParseItems_from {L A} (I : Imports) (cxt : ParseCxt)
  (endToken : string) (block : A -> Stmt A A) (env : REnv)
  k acc st acc' st' :
  items_reach I cxt endToken block env k acc st acc' st' ->
  k <= fuel env ->
  @tryParseItems I L A cxt endToken block acc env st
  = for_loop (fuel env - k) (items_cond endToken) (items_body I cxt block)
      acc' env st'.
Proof.
  intros Hr Hk. unfold tryParseItems, gen_for.
  replace (fuel env) with (k + (fuel env - k)) at 1 by lia.
  apply (for_loop_reach I cxt endToken block env k acc st acc' st' Hr).
Qed.

(** A [return] or [throw] of the block in a turn the loop reaches ends the
    whole loop the same way. *)
Lemma tryParseItems_block_aborts {L A} (I : Imports) (cxt : ParseCxt)
  (endToken : string) (block : A -> Stmt A A) (env : REnv)
  k acc st acc' st' :
  items_reach I cxt endToken block env k acc st acc' st' ->
  k < fuel env ->
  items_cond endToken env st' = true ->
  (forall v st'', block acc' env st' = Return v st'' ->
     @tryParseItems I L A cxt endToken block acc env st = Return v st'')
  /\ (forall msg, block acc' env st' = Throw msg ->
     @tryParseItems I L A cxt endToken block acc env st = Throw msg).
Proof.
  intros Hr Hk Hc.
  rewrite (tryParseItems_from I cxt endToken block env k acc st acc' st' Hr)
    by lia.
  replace (fuel env - k) with (S (fuel env - S k)) by lia.
  cbn [for_loop]. rewrite Hc. unfold items_body, bind.
  split; intros ? ; intros; rewrite H; reflexivity.
Qed.

Lemma parseItems_block_aborts {L A} (I : Imports) (cxt : ParseCxt)
  (endToken : string) (block : A -> Stmt A A) (env : REnv)
  k acc st acc' st' :
  items_reach I cxt endToken block env k acc st acc' st' ->
  k < fuel env ->
  items_cond endToken env st' = true ->
  (forall v st'', block acc' env st' = Return v st'' ->
     @parseItems I L A cxt endToken block acc env st = Return v st'')
  /\ (forall msg, block acc' env st' = Throw msg ->
     @parseItems I L A cxt endToken block acc env st = Throw msg).
Proof.
  intros Hr Hk Hc.
  destruct (@tryParseItems_block_aborts L A I cxt endToken block env
              k acc st acc' st' Hr Hk Hc) as (HR & HT).
  unfold parseItems, bind. split.
  - intros v st'' H. rewrite (HR v st'' H). reflexivity.
  - intros msg H. rewrite (HT msg H). reflexivity.
Qed.

(** A [break] of the block in a turn the loop reaches leaves the loop with
    the variables it carries. *)
Lemma tryParseItems_block_breaks {L A} (I : Imports) (cxt : ParseCxt)
  (endToken : string) (block : A -> Stmt A A) (env : REnv)
  k acc st acc' st' l st'' :
  items_reach I cxt endToken block env k acc st acc' st' ->
  k < fuel env ->
  items_cond endToken env st' = true ->
  block acc' env st' = Break l st'' ->
  @tryParseItems I L A cxt endToken block acc env st = Next l st''.
Proof.
  intros Hr Hk Hc Hb.
  rewrite (tryParseItems_from I cxt endToken block env k acc st acc' st' Hr)
    by lia.
  replace (fuel env - k) with (S (fuel env - S k)) by lia.
  cbn [for_loop]. rewrite Hc. unfold items_body, bind. rewrite Hb.
  reflexivity.
Qed.

Lemma for_loop_cond_false {L A} (n : nat) (cond : REnv -> RState -> bool)
  (body : A -> Stmt A A) (acc : A) (env : REnv) (st : RState) :
  cond env st = false ->
  @for_loop L A n cond body acc env st = Next acc st.
Proof. intros H. destruct n; cbn [for_loop]; rewrite H; reflexivity. Qed.

Lemma state_eta (st : RState) : mkState (jsonPos st) (errs st) = st.
Proof. destruct st; reflexivity. Qed.

(** Once the condition of the loop is false after [k] turns, the loop ends
    with the variables of that moment. *)
Lemma tryParseItems_ends {L A} (I : Imports) (cxt : ParseCxt)
  (endToken : string) (block : A -> Stmt A A) (env : REnv)
  (k : nat) (acc : A) (st : RState) (acc' : A) (st' : RState) :
  items_reach I cxt endToken block env k acc st acc' st' ->
  k <= fuel env ->
  items_cond endToken env st' = false ->
  @tryParseItems I L A cxt endToken block acc env st = Next acc' st'.
Proof.
  intros Hr Hk Hcond.
  rewrite (tryParseItems_from I cxt endToken block env k acc st acc' st' Hr)
    by lia.
  apply for_loop_cond_false. exact Hcond.
Qed.

(** The condition of the loop is false where the end token stands. *)
Lemma items_cond_at_end_token (endToken : string) (env : REnv) (st : RState) :
  String.length endToken = 1 ->
  substring (jsonPos st) 1 (json env) = endToken ->
  items_cond endToken env st = false.
Proof.
  intros Hlen Hsub. unfold items_cond. rewrite <- Hlen at 1.
  rewrite jsonSlice_eq_substring by lia. rewrite Hlen, Hsub, String.eqb_refl.
  apply andb_false_r.
Qed.

(** The loop and the end token after it, when the end token stands where
    the loop tests its condition after [k] turns. *)
Lemma parseItems_at_end_token {L A} (I : Imports) (cxt : ParseCxt)
  (endToken : string) (block : A -> Stmt A A) (env : REnv)
  (k : nat) (acc : A) (st : RState) (acc' : A) (st' : RState) :
  items_reach I cxt endToken block env k acc st acc' st' ->
  k <= fuel env ->
  String.length endToken = 1 ->
  substring (jsonPos st') 1 (json env) = endToken ->
  skipWhitespace I (json env) (jsonPos st') = jsonPos st' ->
  @parseItems I L A cxt endToken block acc env st = Next acc' (advance 1 st').
Proof.
  intros Hr Hk Hlen Hsub Hws.
  unfold parseItems, bind.
  rewrite (tryParseItems_ends I cxt endToken block env k acc st acc' st' Hr Hk
             (items_cond_at_end_token endToken env st' Hlen Hsub)).
  rewrite parseToken_run by lia. cbn zeta.
  unfold after_whitespace. rewrite Hws, state_eta, Hlen, Hsub, String.eqb_refl.
  reflexivity.
Qed.

Lemma items_body_next {A} (I : Imports) (cxt : ParseCxt) (block : A -> Stmt A A)
  (acc : A) (env : REnv) (st : RState) (acc1 : A) (st1 : RState) :
  items_body I cxt block acc env st = Next acc1 st1 ->
  exists st0, block acc env st = Next acc1 st0.
Proof.
  unfold items_body, bind at 1.
  destruct (block acc env st) as [a st0 | l st0 | v st0 | m |];
    try discriminate.
  rewrite tryParseToken_run by (cbn; lia). cbn zeta.
  destruct (String.eqb _ ","); [| discriminate].
  unfold ret. intros H. injection H as <- _. exists st0. reflexivity.
Qed.

Lemma if_chain_skip {L A}
  (branches : list ((REnv -> RState -> bool) * Stmt L A)) (e : Stmt L A)
  (env : REnv) (st : RState) :
  Forall (fun b => fst b env st = false) branches ->
  if_chain branches e env st = e env st.
Proof.
  induction 1 as [| [c b] rest Hc _ IH]; cbn [if_chain]; [reflexivity |].
  unfold gen_if. cbn [fst] in Hc. rewrite Hc. exact IH.
Qed.

Lemma if_chain_app {L A}
  (b1 b2 : list ((REnv -> RState -> bool) * Stmt L A)) (e : Stmt L A) :
  if_chain (b1 ++ b2) e = if_chain b1 (if_chain b2 e).
Proof.
  induction b1 as [| [c b] rest IH]; cbn [app if_chain]; [reflexivity |].
  now rewrite IH.
Qed.

Lemma defined_branches_skip (codes : list (string * (JsVal -> CodeOf JsVal)))
  (key : JsVal) (t : Target) (r : JsVal) (env : REnv) (st : RState) :
  matches_none key (map fst codes) ->
  Forall (fun b => fst b env st = false) (defined_branches codes key t r).
Proof.
  intros Hn. unfold defined_branches. apply Forall_forall.
  intros [c b] Hin. apply in_map_iff in Hin.
  destruct Hin as ([prop code] & Heq & Hin). injection Heq as <- <-.
  cbn [fst]. apply Hn. apply in_map_iff. exists (prop, code). split;
    [reflexivity | exact Hin].
Qed.

Lemma cm_map_Forall2 {A B} (f : A -> CM B) (l : list A) (s s' : Ajv)
  (ys : list B) :
  cm_map f l s = (Ok ys, s') ->
  Forall2 (fun x y => exists s1 s2, f x s1 = (Ok y, s2)) l ys.
Proof.
  revert s s' ys. induction l as [| x rest IH]; intros s s' ys H;
    cbn [cm_map] in H.
  - unfold cm_ret in H. injection H as <- <-. constructor.
  - unfold cm_bind, cm_ret in H.
    destruct (f x s) as [[y | e |] s1] eqn:Ef; try discriminate.
    destruct (cm_map f rest s1) as [[ys' | e |] s2] eqn:Em; try discriminate.
    injection H as <- <-. constructor.
    + exists s, s1. exact Ef.
    + apply (IH s1 s2 ys' Em).
Qed.

(** ** Scanner calls, step by step *)

(** The call of a scanner: its data is assigned to the target, the position
    is the one it came back with, and the target is read back: when that
    gives [undefined] the invocation fails with what the scanner left as
    its error. *)
Lemma parseWith_run {L} (cxt : ParseCxt) (f : string -> nat -> ScanResult)
  (t : Target) (r : JsVal) (env : REnv) (st : RState) :
  @parseWith L cxt f t r env st =
    let res := f (json env) (jsonPos st) in
    let r1 := assign r t (sr_data res) in
    if is_undefined (read r1 t)
    then Return (failure_value env (mkState (sr_pos res) (errs st)))
                (mkState (sr_pos res)
                   (upd (parseName cxt) (sr_error res) (errs st)))
    else Next r1 (mkState (sr_pos res) (errs st)).
Proof.
  unfold parseWith, partialParse, bind, gen_if, parsingError, ret.
  cbn [apply_func]. cbn zeta. destruct (is_undefined _); reflexivity.
Qed.

(** With a variable as target the data that is tested is what the scanner
    returned. *)
Lemma parseWith_var_run {L} (cxt : ParseCxt) (f : string -> nat -> ScanResult)
  (r : JsVal) (env : REnv) (st : RState) :
  @parseWith L cxt f [] r env st =
    let res := f (json env) (jsonPos st) in
    if is_undefined (sr_data res)
    then Return (failure_value env (mkState (sr_pos res) (errs st)))
                (mkState (sr_pos res)
                   (upd (parseName cxt) (sr_error res) (errs st)))
    else Next (sr_data res) (mkState (sr_pos res) (errs st)).
Proof. rewrite parseWith_run. reflexivity. Qed.

Lemma parseWith_next {L} (cxt : ParseCxt) f r env st d st' :
  @parseWith L cxt f [] r env st = Next d st' -> defined d.
Proof.
  rewrite parseWith_var_run. cbn zeta.
  destruct (is_undefined _) eqn:E; [discriminate |].
  intros H; injection H as <- _. apply is_undefined_false, E.
Qed.

Lemma parseWith_no_break {L} (cxt : ParseCxt) f t r env st l st' :
  @parseWith L cxt f t r env st <> Break l st'.
Proof.
  rewrite parseWith_run. cbn zeta. destruct (is_undefined _); discriminate.
Qed.

Lemma parseToken_no_break {L} (I : Imports) (cxt : ParseCxt) tok env st l st' :
  1 <= String.length tok ->
  @parseToken I L cxt tok env st <> Break l st'.
Proof.
  intros Hl. rewrite parseToken_run by exact Hl. cbn zeta.
  destruct (String.eqb _ tok); discriminate.
Qed.

Lemma parseString_run {L} (I : Imports) (cxt : ParseCxt) t r env st :
  @parseString I L cxt t r env st =
    let st1 := after_whitespace I env st in
    if String.eqb (substring (jsonPos st1) 1 (json env)) dquote
    then parseWith cxt (parseJsonString I) t r env (advance 1 st1)
    else jsonSyntaxError cxt env st1.
Proof.
  unfold parseString, bind.
  rewrite (parseToken_run I cxt dquote env st) by (cbn; lia).
  cbn zeta. change (String.length dquote) with 1.
  destruct (String.eqb _ dquote); reflexivity.
Qed.

Lemma parseString_next {L} (I : Imports) (cxt : ParseCxt) r env st d st' :
  @parseString I L cxt [] r env st = Next d st' -> defined d.
Proof.
  rewrite parseString_run. cbn zeta.
  destruct (String.eqb _ dquote); [apply parseWith_next | discriminate].
Qed.

Lemma parseString_no_break {L} (I : Imports) (cxt : ParseCxt) t r env st l st' :
  @parseString I L cxt t r env st <> Break l st'.
Proof.
  rewrite parseString_run. cbn zeta.
  destruct (String.eqb _ dquote); [apply parseWith_no_break | discriminate].
Qed.

(** A variable that a string is parsed into does not matter before. *)
Lemma parseString_var {L} (I : Imports) (cxt : ParseCxt) r r' env st :
  @parseString I L cxt [] r env st = @parseString I L cxt [] r' env st.
Proof. rewrite !parseString_run. reflexivity. Qed.

Lemma strict_eq_str_true (v : JsVal) (s : string) :
  strict_eq_str v s = true <-> v = JStr s.
Proof.
  destruct v; cbn; split; intros H; try discriminate.
  - apply String.eqb_eq in H. now subst.
  - injection H as ->. apply String.eqb_refl.
Qed.

(** ** One key of a properties object *)

Lemma parseWith_scanned {L} (cxt : ParseCxt) (f : string -> nat -> ScanResult)
  (t : Target) (r : JsVal) (env : REnv) (st : RState) :
  @parseWith L cxt f t r env st
  = scanned cxt (f (json env) (jsonPos st)) t r env st.
Proof. rewrite parseWith_run. reflexivity. Qed.

(** The duplicate check that [parseSchemaProperties] emits: with a
    discriminator that is given, the tag is not checked. *)
Lemma duplicate_check_run {L} (disc : option string) (data key : JsVal)
  (env : REnv) (st : RState) :
  (if given disc then
     gen_if (fun _ _ => negb (is_tag key disc))
       (checkDuplicateProperty data key) (ret tt)
   else checkDuplicateProperty data key) env st =
  if negb (exempt disc key) && isOwnProperty data (js_to_string key)
  then @Throw L unit (duplicate_message key)
  else Next tt st.
Proof.
  unfold exempt, checkDuplicateProperty, gen_if, gen_throw, ret,
    duplicate_message.
  destruct (given disc); cbn [andb negb].
  - destruct (is_tag key disc); cbn [negb andb]; [reflexivity |].
    destruct (isOwnProperty data (js_to_string key)); reflexivity.
  - destruct (isOwnProperty data (js_to_string key)); reflexivity.
Qed.

(** The block once the key is read: the duplicate check, then the value. *)
Lemma properties_block_key (I : Imports) (cxt : ParseCxt)
  (disc : option string)
  (required optional : list (string * (JsVal -> CodeOf JsVal)))
  (t : Target) (r : JsVal) (env : REnv) (st : RState) (key : JsVal)
  (st1 : RState) :
  @parseString I JsVal cxt [] JUndefined env st = Next key st1 ->
  parseSchemaProperties_block I cxt disc required optional t r env st =
    if negb (exempt disc key) && isOwnProperty (read r t) (js_to_string key)
    then Throw (duplicate_message key)
    else parseSchemaProperties_value I cxt disc required optional key t r
           env st1.
Proof.
  intros Hk. unfold parseSchemaProperties_block.
  unfold bind at 1. rewrite Hk. unfold bind at 1.
  rewrite duplicate_check_run.
  destruct (negb (exempt disc key) && isOwnProperty (read r t) (js_to_string key));
    reflexivity.
Qed.

Lemma if_chain_defined_branches
  (codes : list (string * (JsVal -> CodeOf JsVal)))
  (key : JsVal) (t : Target) (r : JsVal)
  (rest : list ((REnv -> RState -> bool) * Stmt JsVal JsVal))
  (e : Stmt JsVal JsVal) (env : REnv) (st : RState) :
  if_chain (defined_branches codes key t r ++ rest) e env st =
    match find (fun c => strict_eq_str key (fst c)) codes with
    | Some c => snd c key t r env st
    | None => if_chain rest e env st
    end.
Proof.
  induction codes as [| [prop code] codes IH]; [reflexivity |].
  cbn [defined_branches map app if_chain find fst snd]. unfold gen_if.
  destruct (strict_eq_str key prop); [reflexivity | exact IH].
Qed.

Lemma defined_branches_app
  (c1 c2 : list (string * (JsVal -> CodeOf JsVal)))
  (key : JsVal) (t : Target) (r : JsVal) :
  (defined_branches c1 key t r ++ defined_branches c2 key t r)%list
  = defined_branches (c1 ++ c2) key t r.
Proof. unfold defined_branches. now rewrite map_app. Qed.

(** The value of a key after the colon: the first branch of its name among
    the declared properties, those under [properties] first; else, for the
    tag the generator was given, a string that is parsed into a variable
    of its own; else an additional property. *)
Lemma properties_value_run (I : Imports) (cxt : ParseCxt)
  (disc : option string)
  (required optional : list (string * (JsVal -> CodeOf JsVal)))
  (key : JsVal) (t : Target) (r : JsVal) (env : REnv) (st1 st2 : RState) :
  @parseToken I JsVal cxt ":" env st1 = Next tt st2 ->
  parseSchemaProperties_value I cxt disc required optional key t r env st1 =
    match find (fun c => strict_eq_str key (fst c)) (required ++ optional) with
    | Some c => snd c key t r env st2
    | None =>
        if exempt disc key
        then (_tag <- parseString I cxt [] JUndefined ;; ret r) env st2
        else if additionalProperties (schema cxt)
             then parseEmpty I cxt (t ++ [js_to_string key])%list r env st2
             else Return (failure_value env st2)
                    (record_error cxt
                       ("property " ++ js_to_string key ++ " not allowed") st2)
    end.
Proof.
  intros Hcolon. unfold parseSchemaProperties_value.
  unfold bind at 1. rewrite Hcolon.
  cbn [app if_chain]. unfold gen_if at 1. cbn beta iota.
  rewrite app_assoc, defined_branches_app, if_chain_defined_branches.
  destruct (find _ (required ++ optional)); [reflexivity |].
  unfold exempt. destruct (given disc); cbn [andb if_chain].
  - unfold gen_if at 1. destruct (is_tag key disc); [reflexivity |].
    destruct (additionalProperties (schema cxt)); reflexivity.
  - destruct (additionalProperties (schema cxt)); reflexivity.
Qed.

Lemma find_none_matches_none {B} (key : JsVal) (codes : list (string * B)) :
  matches_none key (map fst codes) ->
  find (fun c => strict_eq_str key (fst c)) codes = None.
Proof.
  intros Hn. induction codes as [| [prop code] codes IH]; [reflexivity |].
  cbn [find fst]. rewrite (Hn prop) by (left; reflexivity).
  apply IH. intros p Hp. apply Hn. right. exact Hp.
Qed.

(** The branches that [parseDefinedProperty] emits: one per declaration, in
    their order, each the code of the declared schema on [data[key]]. *)
Lemma parseDefinedProperty_codes (pc : ParseCxt -> CM Code) (cxt : ParseCxt)
  (schemas : option (list (string * Schema))) (s s' : Ajv)
  (codes : list (string * (JsVal -> CodeOf JsVal))) :
  parseDefinedProperty pc cxt schemas s = (Ok codes, s') ->
  Forall2 (property_code_of pc cxt) (decls_of schemas) codes.
Proof.
  unfold parseDefinedProperty, decls_of. intros H.
  apply cm_map_Forall2 in H.
  induction H as [| [prop sch] y decls codes' (s1 & s2 & Hy) _ IH];
    constructor; [| exact IH].
  unfold cm_bind, parsePropertyValue, cm_bind, cm_ret in Hy.
  destruct (pc (with_schema cxt sch) s1) as [[code | e |] s3] eqn:Ep;
    try discriminate.
  injection Hy as <- <-. split; [reflexivity |].
  exists s1, s3, code. split; [exact Ep | reflexivity].
Qed.

Lemma property_codes_names (pc : ParseCxt -> CM Code) (cxt : ParseCxt)
  (decls : list (string * Schema))
  (codes : list (string * (JsVal -> CodeOf JsVal))) :
  Forall2 (property_code_of pc cxt) decls codes ->
  map fst codes = map fst decls.
Proof.
  induction 1 as [| d c decls codes (Hn & _) _ IH]; [reflexivity |].
  cbn [map]. now rewrite Hn, IH.
Qed.

(** What [parseSchemaProperties] emits: the loop over the keys with its
    block, and after it the test of the required names. *)
Lemma parseSchemaProperties_inv (I : Imports) (pc : ParseCxt -> CM Code)
  (cxt : ParseCxt) (disc : option string) (s s' : Ajv) (body : Code) :
  parseSchemaProperties I pc cxt disc s = (Ok body, s') ->
  exists required optional,
    Forall2 (property_code_of pc cxt) (decls_of (properties (schema cxt)))
      required /\
    Forall2 (property_code_of pc cxt)
      (decls_of (optionalProperties (schema cxt))) optional /\
    forall t r env st,
      body t r env st =
        match @parseItems I Empty_set JsVal cxt "}"
                (parseSchemaProperties_block I cxt disc required optional t)
                r env st with
        | Next r' st' => properties_end cxt t r' env st'
        | o => o
        end.
Proof.
  unfold parseSchemaProperties. unfold cm_bind at 1.
  destruct (parseDefinedProperty pc cxt (properties (schema cxt)) s)
    as [[required | e |] s1] eqn:Er; try discriminate.
  unfold cm_bind at 1.
  destruct (parseDefinedProperty pc cxt (optionalProperties (schema cxt)) s1)
    as [[optional | e |] s2] eqn:Eo; try discriminate.
  intros H. exists required, optional.
  split; [apply (parseDefinedProperty_codes pc cxt _ s s1), Er |].
  split; [apply (parseDefinedProperty_codes pc cxt _ s1 s2), Eo |].
  unfold properties_end.
  destruct (properties (schema cxt)) as [[| p props] |];
    try discriminate; unfold cm_ret in H; injection H as <- _;
    intros t r env st.
  - unfold bind, required_check, gen_if, parsingErrorMsg, parsingError, ret.
    destruct (parseItems I cxt "}" _ r env st) as [r' st' | [] ? | ? ? | ? |];
      try reflexivity.
    destruct (allProps (p :: props) (read r' t)); reflexivity.
  - destruct (parseItems I cxt "}" _ r env st) as [r' st' | [] ? | ? ? | ? |];
      reflexivity.
Qed.

(** The loop and the end token after it, when the turn the loop has reached
    is not followed by a comma. *)
Lemma parseItems_last_turn {L A} (I : Imports) (cxt : ParseCxt)
  (endToken : string) (block : A -> Stmt A A) (env : REnv)
  (k : nat) (acc : A) (st : RState) (acc' : A) (st' : RState)
  (acc1 : A) (st1 : RState) :
  items_reach I cxt endToken block env k acc st acc' st' ->
  k < fuel env ->
  items_cond endToken env st' = true ->
  block acc' env st' = Next acc1 st1 ->
  1 <= String.length endToken ->
  let st2 := after_whitespace I env st1 in
  let st3 := after_whitespace I env st2 in
  String.eqb (substring (jsonPos st2) 1 (json env)) "," = false ->
  @parseItems I L A cxt endToken block acc env st =
    if String.eqb
         (substring (jsonPos st3) (String.length endToken) (json env)) endToken
    then Next acc1 (advance (String.length endToken) st3)
    else Return (failure_value env st3)
                (record_error cxt (unexpected_token env st3) st3).
Proof.
  intros Hr Hk Hc Hb Hlen st2 st3 Hcomma.
  unfold parseItems, bind at 1.
  rewrite (tryParseItems_from I cxt endToken block env k acc st acc' st' Hr)
    by lia.
  replace (fuel env - k) with (S (fuel env - S k)) by lia.
  cbn [for_loop]. rewrite Hc. unfold items_body, bind at 1. rewrite Hb.
  rewrite tryParseToken_run by (cbn; lia). cbn zeta.
  change (String.length ",") with 1. fold st2. rewrite Hcomma.
  unfold gen_break. unfold bind at 1.
  rewrite parseToken_run by exact Hlen. cbn zeta. fold st3.
  destruct (String.eqb _ endToken); reflexivity.
Qed.

(** ** Properties: undeclared keys, required names, duplicates *)

Lemma allProps_false_iff (props : list (string * Schema)) (data : JsVal) :
  allProps props data = false <->
  exists p, In p (map fst props) /\ isOwnProperty data p = false.
Proof.
  unfold allProps. induction props as [| [name sch] rest IH]; cbn [forallb map fst].
  - split; [discriminate | intros (p & [] & _)].
  - rewrite andb_false_iff. split.
    + intros [H | H].
      * exists name. split; [left; reflexivity | exact H].
      * apply IH in H. destruct H as (p & Hin & Hp). exists p.
        split; [right; exact Hin | exact Hp].
    + intros (p & [<- | Hin] & Hp).
      * left. exact Hp.
      * right. apply IH. exists p. split; assumption.
Qed.



(** What [parseKeyValue] emits: the key is parsed into a variable of its own
    and checked against the object, and after the colon the code of the
    value schema runs with the target [data[key]]. *)
Lemma parseKeyValue_inv (I : Imports) (pc : ParseCxt -> CM Code)
  (cxt : ParseCxt) (sch : Schema) (s s' : Ajv) (block : CodeOf JsVal) :
  parseKeyValue I pc cxt sch s = (Ok block, s') ->
  exists valueCode,
    pc (with_schema cxt sch) s = (Ok valueCode, s') /\
    forall t r env st,
      block t r env st =
        match @parseString I JsVal cxt [] JUndefined env st with
        | Next key st1 =>
            if isOwnProperty (read r t) (js_to_string key)
            then Throw (duplicate_message key)
            else (parseToken I cxt ":" ;;
                  lift (valueCode (t ++ [js_to_string key])%list r)) env st1
        | o => o
        end.
Proof.
  unfold parseKeyValue, parsePropertyValue, cm_bind, cm_ret.
  destruct (pc (with_schema cxt sch) s) as [[valueCode | e |] s1] eqn:Ep;
    try discriminate.
  intros H. injection H as <- <-. exists valueCode. split; [reflexivity |].
  intros t r env st. unfold bind at 1.
  destruct (parseString I cxt [] JUndefined env st)
    as [key st1 | l st1 | v st1 | m |]; try reflexivity.
  unfold bind at 1, checkDuplicateProperty, gen_if, gen_throw, ret,
    duplicate_message.
  destruct (isOwnProperty (read r t) (js_to_string key)); reflexivity.
Qed.

Lemma parseValues_inv (I : Imports) (pc : ParseCxt -> CM Code)
  (cxt : ParseCxt) (s s' : Ajv) (code : Code) :
  parseValues I pc cxt s = (Ok code, s') ->
  exists sch block,
    values (schema cxt) = Some sch /\
    parseKeyValue I pc cxt sch s = (Ok block, s') /\
    code = fun t r =>
      parseToken I cxt "{" ;;
      parseItems I cxt "}" (block t) (assign r t (JObj [])).
Proof.
  unfold parseValues. destruct (values (schema cxt)) as [sch |];
    [| discriminate].
  cbn [sub_schema]. unfold cm_bind at 1, cm_ret at 1. unfold cm_bind.
  destruct (parseKeyValue I pc cxt sch s) as [[block | e |] s1] eqn:Ek;
    try discriminate.
  unfold cm_ret. intros H. injection H as <- <-.
  exists sch, block. split; [reflexivity |]. split; [exact Ek | reflexivity].
Qed.

Lemma exempt_true_iff (disc : option string) (key : JsVal) :
  exempt disc key = true <->
  exists d, disc = Some d /\ d <> EmptyString /\ key = JStr d.
Proof.
  unfold exempt, given, is_tag. destruct disc as [d |].
  - rewrite andb_true_iff, negb_true_iff, String.eqb_neq, strict_eq_str_true.
    split.
    + intros (Hd & Hk). exists d. repeat split; assumption.
    + intros (d' & Heq & Hd & Hk). injection Heq as <-. split; assumption.
  - cbn. split; [discriminate | intros (d & H & _); discriminate].
Qed.


(** ** The discriminator *)

Lemma parseDiscriminator_dispatch_run (cxt : ParseCxt)
  (branches : list (string * Code)) (t : Target)
  (r tag : JsVal) (env : REnv) (st : RState) :
  parseDiscriminator_dispatch cxt branches t r tag env st =
    if is_undefined tag
    then fails_with cxt "discriminator tag not found" env st
    else match branch_of tag branches with
         | Some b => snd b t r env st
         | None => fails_with cxt "discriminator value not in schema" env st
         end.
Proof.
  unfold parseDiscriminator_dispatch. cbn [if_chain]. unfold gen_if at 1.
  destruct (is_undefined tag); [reflexivity |].
  unfold branch_of.
  induction branches as [| [tagValue code] rest IH]; cbn [map if_chain find fst snd].
  - reflexivity.
  - unfold gen_if at 1. destruct (strict_eq_str tag tagValue); [reflexivity |].
    exact IH.
Qed.

(** The block of the first scan once the key and the colon are read. *)
Lemma discriminator_block_run (I : Imports) (cxt : ParseCxt)
  (disc : option string) (t : Target) (r tag : JsVal) (env : REnv)
  (st : RState) (key : JsVal) (st1 st2 : RState) :
  @parseString I (JsVal * JsVal) cxt [] JUndefined env st = Next key st1 ->
  @parseToken I (JsVal * JsVal) cxt ":" env st1 = Next tt st2 ->
  parseDiscriminator_block I cxt disc t (r, tag) env st =
    if is_tag key disc
    then match @parseString I (JsVal * JsVal) cxt [] JUndefined env st2 with
         | Next tag' st3 =>
             Break (assign r (t ++ [js_to_string key])%list tag', tag') st3
         | Break l st3 => Break l st3
         | Return v st3 => Return v st3
         | Throw m => Throw m
         | Diverge => Diverge
         end
    else match @parseEmpty I (JsVal * JsVal) cxt [] JUndefined env st2 with
         | Next _ st3 => Next (r, tag) st3
         | Break l st3 => Break l st3
         | Return v st3 => Return v st3
         | Throw m => Throw m
         | Diverge => Diverge
         end.
Proof.
  intros Hk Hc. unfold parseDiscriminator_block.
  unfold bind at 1. rewrite Hk. unfold bind at 1. rewrite Hc.
  unfold gen_if. destruct (is_tag key disc).
  - unfold bind. rewrite (parseString_var I cxt tag JUndefined).
    destruct (parseString I cxt [] JUndefined env st2); reflexivity.
  - unfold bind.
    destruct (parseEmpty I cxt [] JUndefined env st2); reflexivity.
Qed.

(** A turn of the first scan that falls through has recorded nothing. *)
Lemma discriminator_block_next (I : Imports) (cxt : ParseCxt)
  (disc : option string) (t : Target) (acc : JsVal * JsVal) (env : REnv)
  (st : RState) (acc1 : JsVal * JsVal) (st1 : RState) :
  parseDiscriminator_block I cxt disc t acc env st = Next acc1 st1 ->
  acc1 = acc.
Proof.
  destruct acc as [r tag]. unfold parseDiscriminator_block, bind.
  destruct (parseString I cxt [] JUndefined env st)
    as [key st2 | ? ? | ? ? | ? |]; try discriminate.
  destruct (parseToken I cxt ":" env st2) as [[] st3 | ? ? | ? ? | ? |];
    try discriminate.
  unfold gen_if. destruct (is_tag key disc).
  - destruct (parseString I cxt [] tag env st3); discriminate.
  - destruct (parseEmpty I cxt [] JUndefined env st3); try discriminate.
    unfold ret. intros H. injection H as <- _. reflexivity.
Qed.

Lemma discriminator_reach_same (I : Imports) (cxt : ParseCxt)
  (disc : option string) (t : Target) (env : REnv) k acc st acc' st' :
  items_reach I cxt "}" (parseDiscriminator_block I cxt disc t) env k
    acc st acc' st' ->
  acc' = acc.
Proof.
  induction 1 as [| k acc st acc1 st1 acc' st' _ Hb _ IH]; [reflexivity |].
  destruct (items_body_next I cxt _ acc env st acc1 st1 Hb) as (st0 & Hblock).
  rewrite IH. exact (discriminator_block_next I cxt disc t acc env st acc1 st0
                       Hblock).
Qed.

(** The loop alone, when the turn the loop has reached is not followed by a
    comma: it is left where the comma was looked for. *)
Lemma tryParseItems_last_turn {L A} (I : Imports) (cxt : ParseCxt)
  (endToken : string) (block : A -> Stmt A A) (env : REnv)
  (k : nat) (acc : A) (st : RState) (acc' : A) (st' : RState)
  (acc1 : A) (st1 : RState) :
  items_reach I cxt endToken block env k acc st acc' st' ->
  k < fuel env ->
  items_cond endToken env st' = true ->
  block acc' env st' = Next acc1 st1 ->
  String.eqb (substring (jsonPos (after_whitespace I env st1)) 1 (json env))
    "," = false ->
  @tryParseItems I L A cxt endToken block acc env st
  = Next acc1 (after_whitespace I env st1).
Proof.
  intros Hr Hk Hc Hb Hcomma.
  rewrite (tryParseItems_from I cxt endToken block env k acc st acc' st' Hr)
    by lia.
  replace (fuel env - k) with (S (fuel env - S k)) by lia.
  cbn [for_loop]. rewrite Hc. unfold items_body, bind at 1. rewrite Hb.
  rewrite tryParseToken_run by (cbn; lia). cbn zeta.
  change (String.length ",") with 1. rewrite Hcomma. reflexivity.
Qed.

(** What [parseDiscriminator] emits: the opening brace, the first scan, the
    rewind and the chain over the tag values. *)
Lemma parseDiscriminator_inv (I : Imports) (pc : ParseCxt -> CM Code)
  (cxt : ParseCxt) (s s' : Ajv) (code : Code) :
  parseDiscriminator I pc cxt s = (Ok code, s') ->
  exists branches,
    Forall2 (branch_code_of I pc cxt) (mapping (schema cxt)) branches /\
    forall t r env st,
      code t r env st =
        match @parseToken I Empty_set cxt "{" env st with
        | Next _ st0 =>
            match @tryParseItems I Empty_set _ cxt "}"
                    (parseDiscriminator_block I cxt
                       (discriminator (schema cxt)) t)
                    (scan_start t r) env st0 with
            | Next vars st2 =>
                parseDiscriminator_dispatch cxt branches t (fst vars)
                  (snd vars) env (rewound st0 st2)
            | Break l _ => match l with end
            | Return v st2 => Return v st2
            | Throw m => Throw m
            | Diverge => Diverge
            end
        | Break l _ => match l with end
        | Return v st0 => Return v st0
        | Throw m => Throw m
        | Diverge => Diverge
        end.
Proof.
  unfold parseDiscriminator, cm_bind, cm_ret.
  destruct (cm_map _ (mapping (schema cxt)) s) as [[branches | e |] s1] eqn:Em;
    try discriminate.
  intros H. injection H as <- <-. exists branches. split.
  - apply cm_map_Forall2 in Em.
    induction Em as [| [tv br] [tv' bc] l l' (s1' & s2' & Hx) _ IH];
      constructor; [| exact IH].
    unfold cm_bind, cm_ret in Hx.
    destruct (parseSchemaProperties I pc (with_schema cxt br)
                (discriminator (schema cxt)) s1')
      as [[c | e |] s3] eqn:Ep; try discriminate.
    injection Hx as <- <- <-. split; [reflexivity |].
    exists s1', s3. exact Ep.
  - intros t r env st. unfold bind at 1.
    destruct (parseToken I cxt "{" env st) as [[] st0 | [] ? | ? ? | ? |];
      try reflexivity.
    unfold bind at 1. unfold scan_start.
    destruct (tryParseItems I cxt "}" _ _ env st0)
      as [[r1 tag] st2 | [] ? | ? ? | ? |]; reflexivity.
Qed.

(** What a branch of a reparse does at its end, as the code of any
    properties object. *)
Lemma properties_body_ends (I : Imports) (cxt : ParseCxt)
  (block : CodeOf JsVal) (body : Code) :
  (forall t r env st,
     body t r env st =
       match @parseItems I Empty_set JsVal cxt "}" (block t) r env st with
       | Next r' st' => properties_end cxt t r' env st'
       | o => o
       end) ->
  forall t r env st k acc st_k,
    items_reach I cxt "}" (block t) env k r st acc st_k ->
    (k <= fuel env ->
     substring (jsonPos st_k) 1 (json env) = "}" ->
     skipWhitespace I (json env) (jsonPos st_k) = jsonPos st_k ->
     body t r env st = properties_end cxt t acc env (advance 1 st_k))
    /\ (forall acc1 st1,
          k < fuel env ->
          items_cond "}" env st_k = true ->
          block t acc env st_k = Next acc1 st1 ->
          let st2 := after_whitespace I env st1 in
          let st3 := after_whitespace I env st2 in
          String.eqb (substring (jsonPos st2) 1 (json env)) "," = false ->
          substring (jsonPos st3) 1 (json env) = "}" ->
          body t r env st = properties_end cxt t acc1 env (advance 1 st3)).
Proof.
  intros Hbody t r env st k acc st_k Hreach. split.
  - intros Hk Hsub Hws. rewrite Hbody.
    rewrite (parseItems_at_end_token I cxt "}" (block t) env k r st acc st_k
               Hreach Hk eq_refl Hsub Hws).
    reflexivity.
  - intros acc1 st1 Hk Hcond Hturn st2 st3 Hcomma Hsub.
    rewrite Hbody.
    rewrite (parseItems_last_turn I cxt "}" (block t) env k r st acc st_k
               acc1 st1 Hreach Hk Hcond Hturn ltac:(cbn; lia) Hcomma).
    change (String.length "}") with 1. fold st2 st3.
    rewrite Hsub. reflexivity.
Qed.



(** ** Construction errors *)

Lemma env_kept_ret {A} (a : A) : env_kept (cm_ret a).
Proof. intros s r s' H id Hid. injection H as _ <-. exact Hid. Qed.

Lemma env_kept_throw {A} (e : Exn) : env_kept (@cm_throw A e).
Proof. intros s r s' H id Hid. injection H as _ <-. exact Hid. Qed.

Lemma env_kept_bind {A B} (m : CM A) (k : A -> CM B) :
  env_kept m -> (forall a, env_kept (k a)) -> env_kept (cm_bind m k).
Proof.
  intros Hm Hk s r s' H id Hid. unfold cm_bind in H.
  destruct (m s) as [[a | e |] s1] eqn:Em.
  - apply (Hk a s1 r s' H id). apply (Hm s _ s1 Em id Hid).
  - injection H as _ <-. apply (Hm s _ s1 Em id Hid).
  - injection H as _ <-. apply (Hm s _ s1 Em id Hid).
Qed.

Lemma env_kept_map {A B} (f : A -> CM B) (l : list A) :
  (forall x, env_kept (f x)) -> env_kept (cm_map f l).
Proof.
  intros Hf. induction l as [| x rest IH]; cbn [cm_map].
  - apply env_kept_ret.
  - apply env_kept_bind; [apply Hf |]. intros y.
    apply env_kept_bind; [exact IH |]. intros ys. apply env_kept_ret.
Qed.

Lemma env_kept_update (f : Ajv -> Ajv) :
  (forall s id, envs s id <> None -> envs (f s) id <> None) ->
  env_kept (fun s => (Ok tt, f s)).
Proof. intros Hf s r s' H id Hid. injection H as _ <-. apply Hf, Hid. Qed.

Lemma envs_modify_env (sch : EnvId) (f : SchemaEnv -> SchemaEnv) (s : Ajv)
  (id : EnvId) :
  envs s id <> None -> envs (modify_env sch f s) id <> None.
Proof.
  intros Hid. unfold modify_env. destruct (envs s sch) as [e |]; [| exact Hid].
  cbn. unfold upd. destruct (Nat.eqb id sch); [discriminate | exact Hid].
Qed.

Lemma env_kept_try {A} (body : CM A) (handler final : Ajv -> Ajv) :
  env_kept body ->
  (forall s id, envs s id <> None -> envs (handler s) id <> None) ->
  (forall s id, envs s id <> None -> envs (final s) id <> None) ->
  env_kept (try_catch_rethrow_finally body handler final).
Proof.
  intros Hb Hh Hf s r s' H id Hid. unfold try_catch_rethrow_finally in H.
  destruct (body s) as [[a | e |] s1] eqn:Eb; injection H as _ <-.
  - apply Hf. apply (Hb s _ s1 Eb id Hid).
  - apply Hf, Hh. apply (Hb s _ s1 Eb id Hid).
  - apply (Hb s _ s1 Eb id Hid).
Qed.

Section EnvKept.
Variable I : Imports.
Variable pc : ParseCxt -> CM Code.
Variable cp : EnvId -> SchemaObjectMap -> CM EnvId.
Hypothesis Hpc : forall cxt, env_kept (pc cxt).
Hypothesis Hcp : forall sch defs, env_kept (cp sch defs).

Lemma env_kept_sub_schema (o : option Schema) : env_kept (sub_schema o).
Proof. destruct o; [apply env_kept_ret | apply env_kept_throw]. Qed.

Lemma env_kept_parsePropertyValue cxt sch :
  env_kept (parsePropertyValue pc cxt sch).
Proof.
  unfold parsePropertyValue. apply env_kept_bind; [apply Hpc |].
  intros code. apply env_kept_ret.
Qed.

Lemma env_kept_parseDefinedProperty cxt schemas :
  env_kept (parseDefinedProperty pc cxt schemas).
Proof.
  unfold parseDefinedProperty. apply env_kept_map. intros [prop sch].
  apply env_kept_bind; [apply env_kept_parsePropertyValue |].
  intros code. apply env_kept_ret.
Qed.

Lemma env_kept_parseSchemaProperties cxt disc :
  env_kept (parseSchemaProperties I pc cxt disc).
Proof.
  unfold parseSchemaProperties.
  apply env_kept_bind; [apply env_kept_parseDefinedProperty |]. intros required.
  apply env_kept_bind; [apply env_kept_parseDefinedProperty |]. intros optional.
  destruct (properties (schema cxt)) as [[| p ps] |];
    [apply env_kept_throw | apply env_kept_ret | apply env_kept_ret].
Qed.

Lemma env_kept_parseRef cxt : env_kept (parseRef I pc cp cxt).
Proof.
  unfold parseRef.
  destruct (definitions_get (definitions cxt) _) as [refSchema |];
    [| apply env_kept_throw].
  destruct (negb (hasRef I refSchema)); [apply Hpc |].
  intros s r s' H. cbn beta zeta in H. revert H.
  generalize (match envs s (schemaEnv cxt) with
              | Some e => se_root e
              | None => schemaEnv cxt
              end).
  intros root. revert s r s'.
  apply env_kept_bind.
  - intros s r s' H id Hid. unfold new_SchemaEnv in H. injection H as _ <-.
    cbn. unfold upd. destruct (Nat.eqb id (next_env s));
      [discriminate | exact Hid].
  - intros env. apply env_kept_bind; [apply Hcp |]. intros sch.
    apply env_kept_bind.
    + intros s r s' H id Hid. unfold getParser in H.
      destruct (envs s sch) as [[x1 x2 x3 [p |] x5] |];
        injection H as _ <-; exact Hid.
    + intros f. apply env_kept_ret.
Qed.

Lemma env_kept_genParse form cxt : env_kept (genParse I pc cp form cxt).
Proof.
  destruct form; cbn [genParse].
  - unfold parseElements.
    apply env_kept_bind; [apply env_kept_sub_schema |]. intros sch.
    apply env_kept_bind; [apply Hpc |]. intros code. apply env_kept_ret.
  - unfold parseValues, parseKeyValue.
    apply env_kept_bind; [apply env_kept_sub_schema |]. intros sch.
    apply env_kept_bind.
    + apply env_kept_bind; [apply env_kept_parsePropertyValue |].
      intros code. apply env_kept_ret.
    + intros block. apply env_kept_ret.
  - unfold parseDiscriminator. apply env_kept_bind.
    + apply env_kept_map. intros [tagValue branch].
      apply env_kept_bind; [apply env_kept_parseSchemaProperties |].
      intros code. apply env_kept_ret.
    + intros branches. apply env_kept_ret.
  - unfold parseProperties.
    apply env_kept_bind; [apply env_kept_parseSchemaProperties |].
    intros body. apply env_kept_ret.
  - unfold parseProperties.
    apply env_kept_bind; [apply env_kept_parseSchemaProperties |].
    intros body. apply env_kept_ret.
  - apply env_kept_ret.
  - destruct (parseType I cxt); [apply env_kept_ret | apply env_kept_throw].
  - apply env_kept_parseRef.
Qed.

Lemma env_kept_parseCode_body cxt : env_kept (parseCode_body I pc cp cxt).
Proof.
  unfold parseCode_body, parseNullable.
  assert (Hform : env_kept
            (match find (fun key => key_in key (schema cxt)) jtdForms with
             | Some f => genParse I pc cp f
             | None => parseEmpty_gen I
             end cxt)).
  { destruct (find _ jtdForms); [apply env_kept_genParse | apply env_kept_ret]. }
  destruct (negb (nullable (schema cxt))); [exact Hform |].
  apply env_kept_bind; [exact Hform |]. intros form. apply env_kept_ret.
Qed.

Lemma env_kept_parserFunction cxt : env_kept (parserFunction I pc cxt).
Proof.
  unfold parserFunction. apply env_kept_bind; [apply Hpc |].
  intros code. apply env_kept_ret.
Qed.
End EnvKept.

Lemma envs_compilations_delete sch s id :
  envs (compilations_delete sch s) id = envs s id.
Proof. reflexivity. Qed.

Lemma not_in_compilations_delete sch s :
  ~ In sch (_compilations (compilations_delete sch s)).
Proof.
  cbn. intros H. apply filter_In in H as (_ & H).
  rewrite Nat.eqb_refl in H. discriminate.
Qed.

Lemma handler_cleans sch s e :
  envs s sch = Some e ->
  envs (modify_env sch (set_parseName None)
          (modify_env sch (set_parse None) s)) sch
  = Some (mkSchemaEnv (se_schema e) (se_schema_id e) (se_root e) None None).
Proof.
  intros He. unfold modify_env at 2. rewrite He.
  unfold modify_env. cbn. unfold upd. rewrite !Nat.eqb_refl. cbn.
  unfold upd. rewrite Nat.eqb_refl. reflexivity.
Qed.

(** However [compileParser] fails, its catch and finally blocks leave the
    environment without parse function and parse name and out of the
    in-flight registry; no environment is ever lost. *)
Lemma compileParser_body_fails_clean (I : Imports)
  (pc : ParseCxt -> CM Code)
  (Hpc : forall cxt, env_kept (pc cxt))
  (sch : EnvId) (defs : SchemaObjectMap) (s s' : Ajv) (r : Res EnvId) :
  compileParser_body I pc sch defs s = (r, s') ->
  (forall id, envs s id <> None -> envs s' id <> None)
  /\ (envs s sch <> None -> forall ex, r = Thrown ex -> cleaned sch s').
Proof.
  intros H. unfold compileParser_body in H.
  destruct (getCompilingSchema s sch) as [c |].
  { injection H as <- <-. split; [auto | discriminate]. }
  revert H.
  generalize (match envs s sch with
              | Some e => se_schema e
              | None => empty_schema
              end).
  intros schema0 H.
  unfold cm_bind, scopeName, try_catch_rethrow_finally, cm_ret in H.
  cbn zeta in H.
  set (s1 := mkAjv (_compilations s) (envs s) (next_env s) (S (scope_names s)))
    in H.
  set (cxt := mkCxt sch defs schema0 (scope_names s)) in H.
  match type of H with
  | context [parserFunction I pc cxt ?x] => set (s_in := x) in H
  end.
  assert (Hin : forall id, envs s id <> None -> envs s_in id <> None).
  { intros id Hid. unfold s_in. apply envs_modify_env. exact Hid. }
  pose proof (env_kept_parserFunction I pc Hpc cxt s_in) as Hpf.
  destruct (parserFunction I pc cxt s_in) as [[f | e |] s2] eqn:Ep;
    cbn beta iota in H; injection H as <- <-; specialize (Hpf _ s2 eq_refl).
  - split; [| discriminate]. intros id Hid.
    rewrite envs_compilations_delete. apply envs_modify_env. auto.
  - split.
    + intros id Hid. rewrite envs_compilations_delete.
      do 2 apply envs_modify_env. auto.
    + intros Hsch ex _. pose proof (Hpf sch (Hin sch Hsch)) as H2.
      destruct (envs s2 sch) as [e2 |] eqn:E2; [| contradiction].
      split; [| apply not_in_compilations_delete].
      eexists. rewrite envs_compilations_delete.
      split; [apply (handler_cleans sch s2 e2 E2) |].
      split; reflexivity.
  - split; [| discriminate]. intros id Hid. auto.
Qed.

Lemma env_kept_parseCode_compileParser (I : Imports) (n : nat) :
  (forall cxt, env_kept (parseCode n I cxt))
  /\ (forall sch defs, env_kept (compileParser n I sch defs)).
Proof.
  induction n as [| n (IHp & IHc)].
  - split; intros; intros s r s' H id Hid; injection H as _ <-; exact Hid.
  - split.
    + intros cxt. cbn [parseCode]. apply env_kept_parseCode_body; assumption.
    + intros sch defs s r s' H. cbn [compileParser] in H.
      apply (compileParser_body_fails_clean I (parseCode n I) IHp sch defs
               s s' r H).
Qed.

Lemma parseCode_missing_ref (I : Imports) (n : nat) (cxt : ParseCxt)
  (r : string) (s : Ajv) :
  form_by_priority (schema cxt) = Some F_ref ->
  ref (schema cxt) = Some r ->
  definitions_get (definitions cxt) r = None ->
  parseCode (S n) I cxt s
  = (Thrown (MissingRefError EmptyString r ("No definition " ++ r)), s).
Proof.
  intros Hform Href Hdef. cbn [parseCode]. unfold parseCode_body.
  rewrite find_form_by_priority, Hform. unfold parseNullable.
  cbn [genParse]. unfold parseRef. rewrite Href, Hdef.
  destruct (negb (nullable (schema cxt))); reflexivity.
Qed.

Lemma compileParser_fails_clean (I : Imports) (n : nat) (sch : EnvId)
  (defs : SchemaObjectMap) (s s' : Ajv) (ex : Exn) :
  compileParser n I sch defs s = (Thrown ex, s') ->
  envs s sch <> None ->
  cleaned sch s'.
Proof.
  intros H Hsch. destruct n as [| n]; [discriminate |].
  cbn [compileParser] in H.
  destruct (env_kept_parseCode_compileParser I n) as (Hp & _).
  destruct (compileParser_body_fails_clean I (parseCode n I) Hp sch defs
              s s' _ H) as (_ & Hclean).
  exact (Hclean Hsch ex eq_refl).
Qed.

(** C8: compiling a schema whose form is [ref] fails while the parser is
    built, with the [MissingRefError] "No definition <name>" thrown out of
    [compileParser] (an exception of the compilation, no outcome of a
    parse), when the lookup [definitions[name]] finds nothing: the
    definitions have no own property of that name and [Object.prototype]
    has none either.  Whenever [compileParser] throws, the environment is
    left without its parse function and parse name and is no longer
    registered as in flight, all other environments being kept.  A name
    that [Object.prototype] holds is found although the definitions do not
    hold it: [{ref: "toString"}] with empty definitions compiles, to a
    parser that accepts any value, and with [constructor] to one that
    accepts any object. *)
Theorem missing_ref_fails_compile (I : Imports) (n : nat) (sch : EnvId)
  (defs : SchemaObjectMap) (s : Ajv) (e : SchemaEnv) (r : string) :
  envs s sch = Some e ->
  getCompilingSchema s sch = None ->
  form_by_priority (se_schema e) = Some F_ref ->
  ref (se_schema e) = Some r ->
  own_schema defs r = None ->
  inherited_schema r = None ->
  (exists s',
     compileParser (S (S n)) I sch defs s
     = (Thrown (MissingRefError EmptyString r ("No definition " ++ r)), s')
     /\ cleaned sch s'
     /\ forall id, envs s id <> None -> envs s' id <> None)
  /\ (forall m sch2 defs2 s2 s2' ex,
        compileParser m I sch2 defs2 s2 = (Thrown ex, s2') ->
        envs s2 sch2 <> None ->
        cleaned sch2 s2'
        /\ forall id, envs s2 id <> None -> envs s2' id <> None)
  /\ (forall name,
        inherited_schema name = None <->
        name <> "constructor" /\ name <> "__proto__"
        /\ ~ In name object_prototype_names)
  /\ (fst (compileParser 3 Scanner.imports 0 []
             (new_Ajv (ref_schema "toString" false))) = Ok 0
      /\ observe (compile_and_parse Scanner.imports 3
                    (ref_schema "toString" false) [] "5" false)
         = Some (RVal (JNum 5), None)
      /\ observe (compile_and_parse Scanner.imports 4
                    (ref_schema "constructor" false) [] "{}" false)
         = Some (RVal (JObj []), None)
      /\ fst (compileParser 3 Scanner.imports 0 []
                (new_Ajv (ref_schema "nope" false)))
         = Thrown (MissingRefError EmptyString "nope" "No definition nope")).
Proof.
  intros He Hget Hform Href Hown Hinh.
  assert (Hdef : definitions_get defs r = None).
  { unfold definitions_get. rewrite Hown. exact Hinh. }
  split; [| split; [| split]].
  - destruct (compileParser (S (S n)) I sch defs s) as [res s'] eqn:Ec.
    assert (Hres : res = Thrown (MissingRefError EmptyString r
                                   ("No definition " ++ r))).
    { cbn [compileParser] in Ec. unfold compileParser_body in Ec.
      rewrite Hget, He in Ec.
      unfold cm_bind, scopeName, try_catch_rethrow_finally, parserFunction,
        cm_bind in Ec.
      rewrite (parseCode_missing_ref I n _ r) in Ec by (cbn; assumption).
      injection Ec as <- _. reflexivity. }
    subst res. exists s'. split; [reflexivity |].
    assert (Hsch : envs s sch <> None) by (rewrite He; discriminate).
    split; [exact (compileParser_fails_clean I _ sch defs s s' _ Ec Hsch) |].
    destruct (env_kept_parseCode_compileParser I (S (S n))) as (_ & Hk).
    exact (Hk sch defs s _ s' Ec).
  - intros m sch2 defs2 s2 s2' ex Hc Hsch. split.
    + exact (compileParser_fails_clean I m sch2 defs2 s2 s2' ex Hc Hsch).
    + destruct (env_kept_parseCode_compileParser I m) as (_ & Hk).
      exact (Hk sch2 defs2 s2 _ s2' Hc).
  - intros name. unfold inherited_schema.
    destruct (String.eqb name "constructor") eqn:E1.
    { apply String.eqb_eq in E1. split; [discriminate |].
      intros (H & _). contradiction. }
    apply String.eqb_neq in E1.
    destruct (String.eqb name "__proto__") eqn:E2; cbn [orb].
    { apply String.eqb_eq in E2. split; [discriminate |].
      intros (_ & H & _). contradiction. }
    apply String.eqb_neq in E2.
    destruct (existsb (String.eqb name) object_prototype_names) eqn:E3.
    + split; [discriminate |]. intros (_ & _ & H). exfalso. apply H.
      apply existsb_exists in E3 as (x & Hx & Ex).
      apply String.eqb_eq in Ex. subst x. exact Hx.
    + split; [| reflexivity]. intros _. split; [exact E1 |].
      split; [exact E2 |]. intros Hin.
      assert (existsb (String.eqb name) object_prototype_names = true).
      { apply existsb_exists. exists name. split; [exact Hin |].
        apply String.eqb_refl. }
      congruence.
  - repeat split; vm_compute; reflexivity.
Qed.

(** ** Termination *)

Lemma loop_compiles (k : nat) :
  compileParser (S (S (S (S (S k))))) Scanner.imports 0 loop_defs
    (new_Ajv loop_schema) = (Ok 0, loop_instance k)
  /\ parse_of (loop_instance k) 0 = Some loop_root_unit
  /\ parse_of (loop_instance k) 1 = Some loop_unit.
Proof. repeat split; reflexivity. Qed.

Lemma loop_unit_overflows (n : nat) (w : EnvId -> option FnObj) (g : FnObj)
  text pos part slots :
  w 1 = Some g ->
  (forall t p pt sl, fn_call g t p pt sl = CThrow stack_overflow) ->
  pf_code loop_unit n w text pos part slots = CThrow stack_overflow.
Proof.
  intros Hw Hg. unfold loop_unit, emitted_function. cbn [pf_code].
  unfold bind at 1. unfold partialParse at 1. unfold bind at 1.
  cbn [apply_func wrapper]. rewrite Hw, Hg. reflexivity.
Qed.

Lemma loop_link_overflows (k loops m : nat) :
  exists g, link loops m (loop_instance k) 1 = Some g
            /\ forall t p pt sl, fn_call g t p pt sl = CThrow stack_overflow.
Proof.
  induction m as [| m (g & Hg & Hdiv)].
  - eexists. split; [reflexivity |]. intros; reflexivity.
  - eexists. split; [reflexivity |]. intros t p pt sl. cbn [fn_call].
    exact (loop_unit_overflows loops _ g t p pt sl Hg Hdiv).
Qed.

Lemma loop_root_unit_overflows (n : nat) (w : EnvId -> option FnObj)
  (g : FnObj) text pos part slots :
  w 1 = Some g ->
  (forall t p pt sl, fn_call g t p pt sl = CThrow stack_overflow) ->
  pf_code loop_root_unit n w text pos part slots = CThrow stack_overflow.
Proof.
  intros Hw Hg. unfold loop_root_unit, emitted_function. cbn [pf_code].
  unfold bind at 1. unfold partialParse at 1. unfold bind at 1.
  cbn [apply_func fn_call fn_name wrapper fuel].
  rewrite (loop_unit_overflows n w g _ _ _ _ Hw Hg). reflexivity.
Qed.

Lemma loop_invoke_overflows (k loops depth : nat) text pos part slots :
  invoke_with loops depth (loop_instance k) 0 text pos part slots
  = CThrow stack_overflow.
Proof.
  unfold invoke_with. destruct depth as [| m]; [reflexivity |].
  change (link loops (S m) (loop_instance k) 0)
    with (Some (mkFn (pf_name loop_root_unit)
                 (fun text startPos partial slots =>
                    pf_code loop_root_unit loops
                      (link loops m (loop_instance k))
                      text startPos partial slots))).
  cbn [fn_call].
  destruct (loop_link_overflows k loops m) as (g & Hg & Hdiv).
  exact (loop_root_unit_overflows loops _ g text pos part slots Hg Hdiv).
Qed.

(** A turn of an item loop that goes on has found a comma where the block
    left off, after whitespace, and has moved past it. *)
Lemma items_body_comma {A} (I : Imports) (cxt : ParseCxt)
  (block : A -> Stmt A A) (acc : A) (env : REnv) (st : RState)
  (acc' : A) (st' : RState) :
  items_body I cxt block acc env st = Next acc' st' ->
  exists st0,
    block acc env st = Next acc' st0
    /\ substring (jsonPos (after_whitespace I env st0)) 1 (json env) = ","
    /\ st' = advance 1 (after_whitespace I env st0).
Proof.
  unfold items_body, bind at 1.
  destruct (block acc env st) as [a st0 | ? ? | ? ? | ? |]; try discriminate.
  rewrite tryParseToken_run by (cbn; lia). cbn zeta.
  change (String.length ",") with 1.
  destruct (String.eqb (substring _ 1 (json env)) ",") eqn:E;
    [| discriminate].
  unfold ret. intros H. injection H as <- <-.
  exists st0. split; [reflexivity |]. split; [| reflexivity].
  apply String.eqb_eq. exact E.
Qed.

(** A turn of an item loop whose block keeps the contract and after which
    the loop goes on has moved the position forward. *)
Lemma turn_advances {A} (I : Imports) (HI : good_imports I)
  (Inv : A -> Prop) (cxt : ParseCxt) (block : A -> Stmt A A) (acc : A)
  (env : REnv) (st : RState) (acc' : A) (st' : RState) :
  good_stmt Inv Inv (block acc) ->
  good_wrappers (wrapper env) ->
  items_body I cxt block acc env st = Next acc' st' ->
  jsonPos st < jsonPos st'.
Proof.
  intros Hb Hw H.
  pose proof (items_body_ok I HI Inv cxt block acc env st Hb Hw) as Hok.
  rewrite H in Hok. destruct Hok as (_ & Hp). exact Hp.
Qed.

(** C9: with a loop bound of at least the length of the input, every
    invocation of a compiled parser comes back, whatever room the call
    stack has: with a value, with a recorded failure, or with an exception;
    in partial mode the position it returns is not before the start.  Every
    piece of code the generator emits comes back as well and ends at a
    position not before the one it started at, the rewind of a
    discriminator going back to the position after the opening brace of its
    own object.  The condition of an item loop holds only before the end of
    the input, and a turn after which the loop goes on has consumed a
    comma: in the loops over elements, over keys and values, over
    properties and in the first scan of a discriminator every such turn
    ends at a later position than it began.  Input that lacks its closing
    bracket is a recorded failure; the
    list of the specification that refers to itself is parsed; and the
    parser of [{ref: "loop"}] with the definitions [{loop: {ref: "loop"}}],
    whose calls of itself consume nothing, comes back with the
    [RangeError] of the exhausted call stack. *)
Theorem loops_terminate_position_advances (I : Imports) (n : nat)
  (sch : Schema) (defs : SchemaObjectMap) (id : EnvId) (s : Ajv) :
  good_imports I ->
  compileParser n I 0 defs (new_Ajv sch) = (Ok id, s) ->
  (forall loops depth text pos part slots,
     String.length text <= loops ->
     match invoke_with loops depth s id text pos part slots with
     | CRet (RPair _ p) _ => part = true /\ start_of pos <= p
     | CRet (RVal _) _ => part = false
     | CThrow _ => True
     | CDiverge => False
     end)
  /\ (forall m cxt code s1 loops depth text part t r st,
        parseCode m I cxt s = (Ok code, s1) ->
        String.length text <= loops ->
        match code t r (mkEnv text part loops (link loops depth s1)) st with
        | Next _ st' => jsonPos st <= jsonPos st'
        | Break l _ => match l with end
        | Return _ st' => jsonPos st <= jsonPos st'
        | Throw _ => True
        | Diverge => False
        end)
  /\ (forall endToken env st,
        items_cond endToken env st = true -> jsonPos st < jsonLen env)
  /\ (forall (A : Type) cxt (block : A -> Stmt A A) acc env st acc' st',
        items_body I cxt block acc env st = Next acc' st' ->
        exists st0,
          block acc env st = Next acc' st0
          /\ substring (jsonPos (after_whitespace I env st0)) 1 (json env)
             = ","
          /\ st' = advance 1 (after_whitespace I env st0)
          /\ jsonPos st0 < jsonPos st')
  /\ (forall m cxt cxt' elCode s1 t r ix loops depth text part st acc' st',
        parseCode m I cxt' s = (Ok elCode, s1) ->
        items_body I cxt (elements_block elCode t) (r, ix)
          (mkEnv text part loops (link loops depth s1)) st = Next acc' st' ->
        jsonPos st < jsonPos st')
  /\ (forall m cxt vsch block s1 t r loops depth text part st acc' st',
        parseKeyValue I (parseCode m I) cxt vsch s = (Ok block, s1) ->
        items_body I cxt (block t) r
          (mkEnv text part loops (link loops depth s1)) st = Next acc' st' ->
        jsonPos st < jsonPos st')
  /\ (forall m cxt disc required optional s1 s2 t r loops depth text part st
             acc' st',
        parseDefinedProperty (parseCode m I) cxt (properties (schema cxt)) s
        = (Ok required, s1) ->
        parseDefinedProperty (parseCode m I) cxt
          (optionalProperties (schema cxt)) s1 = (Ok optional, s2) ->
        items_body I cxt
          (parseSchemaProperties_block I cxt disc required optional t) r
          (mkEnv text part loops (link loops depth s2)) st = Next acc' st' ->
        jsonPos st < jsonPos st')
  /\ (forall cxt disc t acc loops depth text part st acc' st',
        items_body I cxt (parseDiscriminator_block I cxt disc t) acc
          (mkEnv text part loops (link loops depth s)) st = Next acc' st' ->
        jsonPos st < jsonPos st')
  /\ observe (compile_and_parse Scanner.imports 6
                (elements_schema (type_schema "int8")) []
                text_unterminated false)
     = Some (RVal JUndefined, Some (mkError "unexpected token undefined" 6))
  /\ observe (compile_and_parse Scanner.imports 42 list_schema list_defs
                text_list false)
     = Some (RVal (JObj [("value", JNum 1);
                         ("next", JObj [("value", JNum 2); ("next", JNull)])]),
             None)
  /\ (forall k loops depth text pos part slots,
        compileParser (5 + k) Scanner.imports 0 loop_defs (new_Ajv loop_schema)
        = (Ok 0, loop_instance k)
        /\ invoke_with loops depth (loop_instance k) 0 text pos part slots
           = CThrow stack_overflow).
Proof.
  intros HI Hgen.
  destruct (compileParser_good I HI n 0 defs (new_Ajv sch) id s
              (new_Ajv_good sch) Hgen) as (_ & Hs).
  split; [| split; [| split; [| split; [| split; [| split; [| split;
    [| split; [| split; [| split]]]]]]]]].
  - intros loops depth text pos part slots Hlen. unfold invoke_with.
    destruct depth as [| d]; cbn [link].
    + destruct (envs s id) as [[x1 x2 x3 [p |] x5] |]; exact Logic.I.
    + destruct (envs s id) as [[x1 x2 x3 [p |] x5] |] eqn:E;
        try exact Logic.I.
      cbn [fn_call].
      destruct (Hs id _ p E eq_refl loops (link loops d s) text pos part slots
                  (link_good s loops d Hs)) as (Hok & Hfin).
      specialize (Hfin Hlen (link_total s text loops d Hs Hlen)).
      destruct (pf_code p loops (link loops d s) text pos part slots)
        as [[v | v q] e | msg |].
      * exact Hok.
      * exact Hok.
      * exact Logic.I.
      * apply Hfin. reflexivity.
  - intros m cxt code s1 loops depth text part t r st Hcode Hlen.
    destruct (parseCode_good I HI m cxt s code s1 Hs Hcode) as (Hgood & Hs1).
    pose proof (Hgood t r (mkEnv text part loops (link loops depth s1)) st
                  (link_good s1 loops depth Hs1)) as H.
    destruct (code t r _ st) as [d st' | [] st' | v st' | msg |]; cbn in H.
    + destruct H as (_ & Hp). exact Hp.
    + destruct H as (_ & Hp). exact Hp.
    + exact Logic.I.
    + apply H. split; [exact Hlen |].
      exact (link_total s1 text loops depth Hs1 Hlen).
  - intros endToken env st Hc. unfold items_cond in Hc.
    apply andb_prop in Hc as (Hc & _). apply Nat.ltb_lt in Hc. exact Hc.
  - intros A cxt block acc env st acc' st' H.
    destruct (items_body_comma I cxt block acc env st acc' st' H)
      as (st0 & Hb & Hc & ->).
    exists st0. split; [exact Hb |]. split; [exact Hc |].
    split; [reflexivity |].
    pose proof (skip_mono I HI (json env) (jsonPos st0)) as Hm.
    cbn. unfold after_whitespace. cbn. lia.
  - intros m cxt cxt' elCode s1 t r ix loops depth text part st acc' st'
      Hcode Hturn.
    destruct (parseCode_good I HI m cxt' s elCode s1 Hs Hcode) as (Hel & Hs1).
    refine (turn_advances I HI (fun v => grows r (fst v)) cxt _ (r, ix)
              (mkEnv text part loops (link loops depth s1)) st
              acc' st' _ (link_good s1 loops depth Hs1) Hturn).
    apply good_elements_block, Hel.
  - intros m cxt vsch block s1 t r loops depth text part st acc' st'
      Hblock Hturn.
    destruct (gen_ok_parseKeyValue I HI (parseCode m I) (parseCode_good I HI m)
                cxt vsch s block s1 Hs Hblock) as (Hb & Hs1).
    exact (turn_advances I HI (grows r) cxt (block t) r
             (mkEnv text part loops (link loops depth s1)) st acc' st'
             (Hb t r) (link_good s1 loops depth Hs1) Hturn).
  - intros m cxt disc required optional s1 s2 t r loops depth text part st
      acc' st' Hreq Hopt Hturn.
    destruct (gen_ok_parseDefinedProperty (parseCode m I)
                (parseCode_good I HI m) cxt _ s required s1 Hs Hreq)
      as (Hr & Hs1).
    destruct (gen_ok_parseDefinedProperty (parseCode m I)
                (parseCode_good I HI m) cxt _ s1 optional s2 Hs1 Hopt)
      as (Ho & Hs2).
    exact (turn_advances I HI (grows r) cxt _ r
             (mkEnv text part loops (link loops depth s2)) st acc' st'
             (good_parseSchemaProperties_block I HI cxt disc required optional
                Hr Ho t r)
             (link_good s2 loops depth Hs2) Hturn).
  - intros cxt disc t [r tag] loops depth text part st acc' st' Hturn.
    exact (turn_advances I HI (fun v => grows r (fst v)) cxt _ (r, tag)
             (mkEnv text part loops (link loops depth s)) st
             acc' st' (good_parseDiscriminator_block I HI cxt disc t r tag)
             (link_good s loops depth Hs) Hturn).
  - vm_compute. reflexivity.
  - vm_compute. reflexivity.
  - intros k loops depth text pos part slots. split.
    + apply loop_compiles.
    + apply loop_invoke_overflows.
Qed.

(** ** The error slot *)

(** C10: the function assembled by [parserFunction] assigns [undefined] to
    its error slot before the generator chain runs, whatever the slot held.
    The slot is assigned afterwards only by [parsingError], together with
    the return of the failure value of the mode, and the invocation hands
    the slots on as the chain left them; the syntax error for trailing
    input records a message and a position.  A failure of an earlier
    invocation is not seen after a later successful one.  What
    [parsingError] assigns need not be a record: under [{values: {}}] the
    text [{"__proto__":null}] fails, in both modes, with a slot that holds
    nothing: the assignment to [data["__proto__"]] takes the prototype of
    the object away, the test reads [undefined] back, and the error that is
    recorded is the one of the scanner, which has none. *)
Theorem error_slot_reset_and_failure (I : Imports)
  (pc : ParseCxt -> CM Code) (cxt : ParseCxt) (s s' : Ajv) (f : ParseFunc) :
  parserFunction I pc cxt s = (Ok f, s') ->
  (exists code,
     pc cxt s = (Ok code, s') /\
     forall n w text pos part slots,
       let env := mkEnv text part n w in
       let st := mkState (start_of pos) (upd (parseName cxt) None slots) in
       errs st (parseName cxt) = None /\
       match code [] JUndefined env st with
       | Next data st1 =>
           let st2 := after_whitespace I env st1 in
           if part || Nat.eqb (jsonPos st2) (String.length text) then
             exists v,
               pf_code f n w text pos part slots = CRet v (errs st1)
               /\ ret_data v = data
           else
             pf_code f n w text pos part slots
             = CRet (RVal JUndefined)
                 (upd (parseName cxt)
                    (Some (mkError (unexpected_token env st2) (jsonPos st2)))
                    (errs st1))
       | Break l _ => match l with end
       | Return v st1 => pf_code f n w text pos part slots = CRet v (errs st1)
       | Throw m => pf_code f n w text pos part slots = CThrow m
       | Diverge => pf_code f n w text pos part slots = CDiverge
       end)
  /\ (forall L A err env st,
        @parsingError L A cxt err env st
        = Return (failure_value env st)
            (mkState (jsonPos st) (upd (parseName cxt) err (errs st))))
  /\ observe (compile_and_parse_at Scanner.imports 3 (type_schema "uint8") []
                "256" None false stale_slots)
     = Some (RVal JUndefined, Some (mkError "integer out of range" 3))
  /\ observe (compile_and_parse_at Scanner.imports 3 (type_schema "uint8") []
                "25" None false stale_slots)
     = Some (RVal (JNum 25), None)
  /\ observe (compile_and_parse Scanner.imports 18
                (values_schema empty_schema) [] text_proto_null false)
     = Some (RVal JUndefined, None)
  /\ observe (compile_and_parse Scanner.imports 18
                (values_schema empty_schema) [] text_proto_null true)
     = Some (RPair JUndefined 17, None).
Proof.
  intros Hf.
  destruct (parserFunction_run I pc cxt s s' f Hf) as (code & Hc & _ & Hrun).
  split; [| split; [| repeat split; vm_compute; reflexivity]].
  - exists code. split; [exact Hc |].
    intros n w text pos part slots env st. split.
    { unfold st. cbn [errs]. unfold upd. rewrite Nat.eqb_refl. reflexivity. }
    specialize (Hrun n w text pos part slots). cbn zeta in Hrun.
    change (entry_state cxt pos slots) with st in Hrun. fold env in Hrun.
    destruct (code [] JUndefined env st) as [d st1 | [] ? | v st1 | m |];
      try exact Hrun.
    cbn zeta. destruct part; cbn [orb].
    + eexists. split; [exact Hrun | reflexivity].
    + destruct (Nat.eqb _ (String.length text)).
      * eexists. split; [exact Hrun | reflexivity].
      * exact Hrun.
  - intros L A err env st. reflexivity.
Qed.

(** ** The theorems at concrete inputs *)

Lemma no_wrappers_good : good_wrappers no_wrappers.
Proof. intros id f H. discriminate. Defined.


(** The entry protocol on the parser of [{values: {}}] and the text
    [{} trailing] in partial mode: the pair of the empty object and the
    position 3. *)
Lemma parserFunction_entry_protocol_witness :
  exists e,
    pf_code
      (the_result loop_unit
         (parserFunction Scanner.imports (parseCode 3 Scanner.imports)
            (example_cxt (values_schema empty_schema))
            (new_Ajv (values_schema empty_schema))))
      11 no_wrappers text_trailing None true no_errors
    = CRet (RPair (JObj []) 3) e.
Proof.
  destruct (parserFunction_entry_protocol Scanner.imports 3
              (example_cxt (values_schema empty_schema))
              (new_Ajv (values_schema empty_schema))
              (snd (parserFunction Scanner.imports (parseCode 3 Scanner.imports)
                      (example_cxt (values_schema empty_schema))
                      (new_Ajv (values_schema empty_schema))))
              (the_result loop_unit
                 (parserFunction Scanner.imports (parseCode 3 Scanner.imports)
                    (example_cxt (values_schema empty_schema))
                    (new_Ajv (values_schema empty_schema))))
              Scanner_imports_good (new_Ajv_good _) eq_refl)
    as ((code & Hcode & Hrun) & _).
  specialize (Hrun 11 no_wrappers text_trailing None true no_errors
                no_wrappers_good).
  apply (f_equal fst) in Hcode. cbn [fst] in Hcode.
  injection Hcode as <-.
  destruct Hrun as (_ & Hpf).
  eexists. exact Hpf.
Defined.




(** The missing-reference theorem on [{ref: "nope"}] with the definitions
    [{loop: ...}]: compilation throws and the environment is cleaned. *)
Lemma missing_ref_fails_compile_witness :
  exists s',
    compileParser 2 Scanner.imports 0 loop_defs
      (new_Ajv (ref_schema "nope" false))
    = (Thrown (MissingRefError EmptyString "nope" "No definition nope"), s')
    /\ cleaned 0 s'.
Proof.
  destruct (missing_ref_fails_compile Scanner.imports 0 0 loop_defs
              (new_Ajv (ref_schema "nope" false))
              (the_env (new_Ajv (ref_schema "nope" false)) 0) "nope"
              eq_refl eq_refl eq_refl eq_refl eq_refl eq_refl)
    as ((s' & Hc & Hclean & _) & _).
  exists s'. split; [exact Hc | exact Hclean].
Defined.

(** The termination theorem on the list that refers to itself: its parser
    comes back on the text of the example, with room for three nested calls
    on the stack and with none. *)
Lemma loops_terminate_position_advances_witness :
  match invoke_with 42 3
          (compiled Scanner.imports 8 list_schema list_defs) 0
          text_list None false no_errors with
  | CRet (RPair _ p) _ => false = true /\ 0 <= p
  | CRet (RVal _) _ => false = false
  | CThrow _ => True
  | CDiverge => False
  end
  /\ match invoke_with 42 0
            (compiled Scanner.imports 8 list_schema list_defs) 0
            text_list None false no_errors with
     | CRet (RPair _ p) _ => false = true /\ 0 <= p
     | CRet (RVal _) _ => false = false
     | CThrow _ => True
     | CDiverge => False
     end.
Proof.
  destruct (loops_terminate_position_advances Scanner.imports 8
              list_schema list_defs 0
              (compiled Scanner.imports 8 list_schema list_defs)
              Scanner_imports_good eq_refl) as (Hback & _).
  split.
  - exact (Hback 42 3 text_list None false no_errors (le_n 42)).
  - exact (Hback 42 0 text_list None false no_errors (le_n 42)).
Defined.

(** The error-slot theorem on the parser of [{type: "uint8"}] with slots
    that an earlier failure left: on [256] the invocation fails and the slot
    holds the error of this invocation; on [25] it succeeds and the slot
    holds nothing. *)
Lemma error_slot_reset_and_failure_witness :
  (exists e,
     pf_code
       (the_result loop_unit
          (parserFunction Scanner.imports (parseCode 3 Scanner.imports)
             (example_cxt (type_schema "uint8"))
             (new_Ajv (type_schema "uint8"))))
       3 no_wrappers "256" None false stale_slots
     = CRet (RVal JUndefined) e
     /\ e 0 = Some (mkError "integer out of range" 3))
  /\ (exists v e,
        pf_code
          (the_result loop_unit
             (parserFunction Scanner.imports (parseCode 3 Scanner.imports)
                (example_cxt (type_schema "uint8"))
                (new_Ajv (type_schema "uint8"))))
          2 no_wrappers "25" None false stale_slots
        = CRet v e
        /\ ret_data v = JNum 25 /\ e 0 = None).
Proof.
  destruct (error_slot_reset_and_failure Scanner.imports
              (parseCode 3 Scanner.imports)
              (example_cxt (type_schema "uint8"))
              (new_Ajv (type_schema "uint8"))
              (snd (parserFunction Scanner.imports (parseCode 3 Scanner.imports)
                      (example_cxt (type_schema "uint8"))
                      (new_Ajv (type_schema "uint8"))))
              (the_result loop_unit
                 (parserFunction Scanner.imports (parseCode 3 Scanner.imports)
                    (example_cxt (type_schema "uint8"))
                    (new_Ajv (type_schema "uint8"))))
              eq_refl) as ((code & Hcode & Hrun) & _).
  apply (f_equal fst) in Hcode. cbn [fst] in Hcode.
  injection Hcode as <-.
  split.
  - destruct (Hrun 3 no_wrappers "256" None false stale_slots) as (_ & Hpf).
    eexists. split; [exact Hpf | reflexivity].
  - destruct (Hrun 2 no_wrappers "25" None false stale_slots) as (_ & Hpf).
    destruct Hpf as (v & Hpf & Hv).
    exists v. eexists. split; [exact Hpf |]. split; [exact Hv | reflexivity].
Defined.

(** * Further properties of the generators *)

(** ** Scalar types *)

(** X1: for [type: "boolean"] the code compares the four characters after
    the skipped whitespace with [true] and, failing that, the five
    characters after skipping whitespace once more with [false]; a match
    assigns the boolean to the target and moves past the literal, whatever
    follows it, and no match is a syntax error recorded where the second
    comparison was made. *)
Theorem parseType_boolean_literals (I : Imports) (L : Type) (cxt : ParseCxt) :
  type (schema cxt) = Some "boolean" ->
  exists code,
    @parseType I L cxt = Some code /\
    forall t r env st,
      let st1 := after_whitespace I env st in
      let st2 := after_whitespace I env st1 in
      code t r env st =
        if String.eqb (substring (jsonPos st1) 4 (json env)) "true"
        then Next (assign r t (JBool true)) (advance 4 st1)
        else if String.eqb (substring (jsonPos st2) 5 (json env)) "false"
        then Next (assign r t (JBool false)) (advance 5 st2)
        else Return (failure_value env st2)
                    (record_error cxt (unexpected_token env st2) st2).
Proof.
  intros Ht. unfold parseType. rewrite Ht. cbn [String.eqb Ascii.eqb Bool.eqb].
  eexists. split; [reflexivity |]. intros t r env st.
  set (st1 := after_whitespace I env st).
  set (st2 := after_whitespace I env st1).
  unfold parseBoolean.
  rewrite (tryParseToken_run I cxt "true") by (cbn; lia).
  cbn zeta. change (String.length "true") with 4. fold st1.
  destruct (String.eqb (substring (jsonPos st1) 4 (json env)) "true");
    [reflexivity |].
  rewrite (tryParseToken_run I cxt "false") by (cbn; lia).
  cbn zeta. change (String.length "false") with 5. fold st2.
  destruct (String.eqb (substring (jsonPos st2) 5 (json env)) "false");
    [reflexivity |].
  rewrite jsonSyntaxError_run. reflexivity.
Qed.

(** X2: [parseNumber] looks at the character after the skipped whitespace
    before it calls the number scanner: when the input has ended there, or
    the character is neither a minus sign nor a digit, the scanner is not
    consulted and a syntax error is recorded at that position. *)
Theorem parseNumber_rejects_other_start (I : Imports) (L : Type)
  (cxt : ParseCxt) (maxDigits : option nat) (t : Target) (r : JsVal)
  (env : REnv) (st : RState) :
  let st1 := after_whitespace I env st in
  (forall c, char_at env st1 = Some c ->
             is_digit_or_minus (String c EmptyString) = false) ->
  @parseNumber I L cxt maxDigits t r env st =
    Return (failure_value env st1)
           (record_error cxt (unexpected_token env st1) st1).
Proof.
  intros st1 Hc. unfold parseNumber, bind, whitespace, gen_if.
  fold (after_whitespace I env st). fold st1.
  unfold jsonSlice. cbn [Nat.eqb]. unfold char_at in Hc.
  destruct (String.get (jsonPos st1) (json env)) as [c |] eqn:E.
  - rewrite (Hc c eq_refl). cbn [negb]. rewrite jsonSyntaxError_run.
    reflexivity.
  - rewrite jsonSyntaxError_run. reflexivity.
Qed.

(** X3: for an integer type (one that [parseType] handles in its [default]
    branch and [intRange] knows), when the input continues with a minus sign
    or a digit and the number scanner yields the number [z] up to position
    [p], the code with a variable as target yields [z] if it lies in the
    closed range of the type and otherwise records "integer out of range"
    at [p], the position after the number.  With any target, the number is
    assigned to it and the tests read the target back. *)
Theorem parseType_integer_range (I : Imports) (L : Type) (cxt : ParseCxt)
  (ty : string) (min max : Z) (maxDigits : nat)
  (env : REnv) (st : RState) (c : ascii) (z : Z) :
  type (schema cxt) = Some ty ->
  ~ In ty named_types ->
  intRange I ty = Some (min, max, maxDigits) ->
  let st1 := after_whitespace I env st in
  let res := parseJsonNumber I (json env) (jsonPos st1) (Some maxDigits) in
  char_at env st1 = Some c ->
  is_digit_or_minus (String c EmptyString) = true ->
  sr_data res = JNum z ->
  exists code,
    @parseType I L cxt = Some code /\
    (forall r,
       code [] r env st =
         let st2 := came_back (sr_pos res) (errs st) in
         if ((min <=? z) && (z <=? max))%Z
         then Next (JNum z) st2
         else Return (failure_value env st2)
                     (record_error cxt "integer out of range" st2)) /\
    (forall t r,
       code t r env st =
         let st2 := came_back (sr_pos res) (errs st) in
         let r1 := assign r t (JNum z) in
         if is_undefined (read r1 t)
         then Return (failure_value env st2)
                     (failed_with cxt (sr_error res) st2)
         else if out_of_range (read r1 t) min max
         then Return (failure_value env st2)
                     (record_error cxt "integer out of range" st2)
         else Next r1 st2).
Proof.
  intros Ht Hn Hr st1 res Hc Hd Hz.
  assert (Hne : forall t, In t named_types -> String.eqb ty t = false).
  { intros t Hin. apply String.eqb_neq. intros ->. exact (Hn Hin). }
  unfold parseType. rewrite Ht.
  rewrite (Hne "boolean"), (Hne "string"), (Hne "timestamp"),
    (Hne "float32"), (Hne "float64") by (cbn; tauto).
  cbn [orb]. rewrite Hr. eexists. split; [reflexivity |].
  assert (Hgen : forall t r,
    (r1 <- @parseNumber I L cxt (Some maxDigits) t r ;;
     gen_if (fun _ _ => out_of_range (read r1 t) min max)
       (parsingErrorMsg cxt "integer out of range") (ret r1)) env st =
    let st2 := came_back (sr_pos res) (errs st) in
    let r1 := assign r t (JNum z) in
    if is_undefined (read r1 t)
    then Return (failure_value env st2) (failed_with cxt (sr_error res) st2)
    else if out_of_range (read r1 t) min max
    then Return (failure_value env st2)
                (record_error cxt "integer out of range" st2)
    else Next r1 st2).
  { intros t r.
    unfold bind at 1. unfold parseNumber, bind, whitespace, gen_if.
    fold (after_whitespace I env st). fold st1.
    unfold jsonSlice. cbn [Nat.eqb]. unfold char_at in Hc. rewrite Hc, Hd.
    cbn [negb]. rewrite parseWith_run. cbn zeta. fold res. rewrite Hz.
    destruct (is_undefined _); [reflexivity |].
    destruct (out_of_range _ min max); reflexivity. }
  split; [| exact Hgen].
  intros r. rewrite Hgen. cbn zeta. cbn [assign read is_undefined].
  unfold out_of_range.
  rewrite Z.gtb_ltb, (Z.ltb_antisym min z), (Z.ltb_antisym z max).
  destruct (min <=? z)%Z, (z <=? max)%Z; reflexivity.
Qed.

(** X4: for [type: "timestamp"] the string is parsed into the target first
    and then the target is handed to [validTimestamp]: a string that it
    rejects is a failure "invalid timestamp" recorded at the position after
    the string, a value it throws on (one that is no string) is an exception
    of the parser, and a failure to parse the string is passed on
    unchanged. *)
Theorem parseType_timestamp_checked (I : Imports) (L : Type) (cxt : ParseCxt) :
  type (schema cxt) = Some "timestamp" ->
  exists code,
    @parseType I L cxt = Some code /\
    forall t r env st,
      code t r env st =
        match @parseString I L cxt t r env st with
        | Next r1 st' =>
            match validTimestamp I (read r1 t) with
            | Some true => Next r1 st'
            | Some false =>
                Return (failure_value env st')
                       (record_error cxt "invalid timestamp" st')
            | None => Throw timestamp_type_error
            end
        | o => o
        end.
Proof.
  intros Ht. unfold parseType. rewrite Ht. cbn [String.eqb Ascii.eqb Bool.eqb].
  eexists. split; [reflexivity |]. intros t r env st. unfold bind.
  destruct (parseString I cxt t r env st) as [d st' | l st' | v st' | m |];
    try reflexivity.
  destruct (validTimestamp I (read d t)) as [[|] |]; reflexivity.
Qed.

(** ** Tokens at the end of the input *)

(** X5: when the input has ended after the skipped whitespace, every
    expected token fails with "unexpected token undefined" recorded at that
    position; the failure value is the one of the mode. *)
Theorem parseToken_at_end_of_input (I : Imports) (L : Type) (cxt : ParseCxt)
  (tok : string) (env : REnv) (st : RState) :
  let st1 := after_whitespace I env st in
  1 <= String.length tok ->
  jsonLen env <= jsonPos st1 ->
  @parseToken I L cxt tok env st =
    Return (if jsonPart env then RPair JUndefined (jsonPos st1)
            else RVal JUndefined)
           (record_error cxt "unexpected token undefined" st1).
Proof.
  intros st1 Hl Hend. rewrite parseToken_run by exact Hl. cbn zeta. fold st1.
  assert (Hsub : forall n, substring (jsonPos st1) n (json env) = EmptyString).
  { unfold jsonLen in Hend. revert Hend.
    generalize (jsonPos st1) as p. generalize (json env) as s.
    induction s as [| a s IH]; intros p Hp n.
    - destruct p, n; reflexivity.
    - destruct p as [| p]; [cbn in Hp; lia |]. cbn. apply IH. cbn in Hp. lia. }
  rewrite Hsub.
  destruct tok as [| a tok]; [cbn in Hl; lia |]. cbn [String.eqb].
  rewrite jsonSyntaxError_run. unfold unexpected_token, jsonSlice.
  cbn [Nat.eqb].
  assert (Hget : String.get (jsonPos st1) (json env) = None).
  { pose proof (substring_get_one (json env) (jsonPos st1)) as H.
    destruct (String.get (jsonPos st1) (json env)); [| reflexivity].
    rewrite Hsub in H. discriminate. }
  rewrite Hget. reflexivity.
Qed.

(** ** Item loops at the end token *)

(** X6: the item loop tests the character at the position, as it is, against
    the end token before every turn: when, at the start or after any number
    of turns that each ended with a comma, that character is the end token,
    no further item is read, the end token is consumed and the items read so
    far are the result.  An empty list and a list with a comma before the
    end token are both accepted. *)
Theorem parseItems_stops_at_end_token (I : Imports) (L A : Type)
  (cxt : ParseCxt) (endToken : string) (block : A -> Stmt A A) (env : REnv)
  (k : nat) (acc : A) (st : RState) (acc' : A) (st' : RState) :
  items_reach I cxt endToken block env k acc st acc' st' ->
  k <= fuel env ->
  String.length endToken = 1 ->
  substring (jsonPos st') 1 (json env) = endToken ->
  skipWhitespace I (json env) (jsonPos st') = jsonPos st' ->
  @parseItems I L A cxt endToken block acc env st = Next acc' (advance 1 st').
Proof. apply parseItems_at_end_token. Qed.

Lemma arr_set_at_length (data : list JsVal) (v : JsVal) :
  arr_set data (List.length data) v = (data ++ [v])%list.
Proof.
  induction data as [| x rest IH]; cbn; [reflexivity | now rewrite IH].
Qed.

Lemma elements_block_next (elCode : Code) (t : Target)
  (r : JsVal) (ix : nat) (env : REnv) (st : RState)
  (acc1 : JsVal * nat) (st0 : RState) :
  elements_block elCode t (r, ix) env st = Next acc1 st0 ->
  exists el, elCode [] JUndefined env st = Next el st0
             /\ acc1 = (assign r t (js_set_item (read r t) ix el), S ix).
Proof.
  unfold elements_block, bind, lift, ret.
  destruct (elCode [] JUndefined env st) as [el st2 | [] st2 | v st2 | m |];
    try discriminate.
  intros H. injection H as <- <-. exists el. split; reflexivity.
Qed.

Lemma elements_reach_dense (I : Imports) (cxt : ParseCxt)
  (elCode : Code) (env : REnv) (k : nat)
  (data : list JsVal) (ix : nat) (st : RState) (acc' : JsVal * nat)
  (st' : RState) :
  items_reach I cxt "]" (elements_block elCode []) env k (JArr data, ix) st
    acc' st' ->
  ix = List.length data ->
  exists data',
    acc' = (JArr data', List.length data')
    /\ List.length data' = List.length data + k
    /\ firstn (List.length data) data' = data.
Proof.
  intros H. remember (JArr data, ix) as acc eqn:Eacc.
  revert data ix Eacc.
  induction H as [acc st | k acc st acc1 st1 acc' st' Hc Hb _ IH];
    intros data ix Eacc Hix; subst acc.
  - exists data. subst ix. split; [reflexivity |]. split; [lia |].
    apply firstn_all.
  - subst ix.
    destruct (items_body_next I cxt _ _ env st acc1 st1 Hb) as (st0 & Hblock).
    destruct (elements_block_next elCode [] (JArr data) (List.length data)
                env st acc1 st0 Hblock) as (el & _ & ->).
    cbn [assign read js_set_item] in IH.
    rewrite arr_set_at_length in IH.
    destruct (IH (data ++ [el])%list (S (List.length data)) eq_refl)
      as (data' & Hacc & Hlen & Hfirst).
    { rewrite length_app. cbn [List.length]. lia. }
    exists data'. split; [exact Hacc |].
    rewrite length_app in Hlen, Hfirst. cbn [List.length] in Hlen, Hfirst.
    split; [lia |].
    apply (f_equal (firstn (List.length data))) in Hfirst.
    rewrite firstn_firstn in Hfirst.
    replace (Nat.min (List.length data) (List.length data + 1))
      with (List.length data) in Hfirst by lia.
    rewrite firstn_app, Nat.sub_diag, firstn_all in Hfirst.
    cbn [firstn] in Hfirst. rewrite app_nil_r in Hfirst. exact Hfirst.
Qed.

(** X7: the code of [parseElements], with a variable as target, stores the
    element of turn [k] at index [k]: after the opening bracket, whenever
    [k] turns of the loop have been made the variable holds an array of
    exactly [k] elements and the index variable is [k]; and when the closing
    bracket stands there, the result is that array. *)
Theorem parseElements_stores_in_order (I : Imports)
  (pc : ParseCxt -> CM Code) (cxt : ParseCxt)
  (s s' : Ajv) (code : Code) :
  parseElements I pc cxt s = (Ok code, s') ->
  exists sch elCode,
    elements (schema cxt) = Some sch /\
    pc (with_schema cxt sch) s = (Ok elCode, s') /\
    forall r env st st0 k acc st1,
      @parseToken I Empty_set cxt "[" env st = Next tt st0 ->
      items_reach I cxt "]" (elements_block elCode []) env k (JArr [], 0) st0
        acc st1 ->
      exists data,
        acc = (JArr data, k) /\ List.length data = k /\
        (k <= fuel env ->
         char_at env st1 = Some "]"%char ->
         skipWhitespace I (json env) (jsonPos st1) = jsonPos st1 ->
         code [] r env st = Next (JArr data) (advance 1 st1)).
Proof.
  intros H. unfold parseElements, cm_bind, sub_schema, cm_ret, cm_throw in H.
  destruct (elements (schema cxt)) as [sch |]; [| discriminate].
  destruct (pc (with_schema cxt sch) s) as [[elCode | e |] s1] eqn:Ep;
    try discriminate.
  injection H as <- <-. exists sch, elCode.
  split; [reflexivity |]. split; [exact Ep |].
  intros r env st st0 k acc st1 Htok Hr.
  destruct (elements_reach_dense I cxt elCode env k [] 0 st0 acc st1 Hr eq_refl)
    as (data & -> & Hlen & _).
  cbn [List.length] in Hlen. exists data.
  split; [rewrite Hlen; reflexivity |]. split; [lia |].
  intros Hk Hc Hws.
  assert (Hsub : substring (jsonPos st1) 1 (json env) = "]").
  { unfold char_at in Hc.
    pose proof (substring_get_one (json env) (jsonPos st1)) as Hs.
    rewrite Hc in Hs. exact Hs. }
  unfold bind at 1. rewrite Htok. unfold bind at 1. cbn [assign].
  rewrite (parseItems_at_end_token I cxt "]" (elements_block elCode []) env k
             (JArr [], 0) st0 _ st1 Hr Hk eq_refl Hsub Hws).
  reflexivity.
Qed.

(** X17: an element whose code fails makes the whole array fail in the same
    way, at once: the failure value and the state of the element's failure
    (its error record and position) are those of the array, an exception of
    the element is one of the array, and nothing after the element is
    read. *)
Theorem parseElements_fails_with_element (I : Imports)
  (pc : ParseCxt -> CM Code) (cxt : ParseCxt)
  (s s' : Ajv) (code : Code) :
  parseElements I pc cxt s = (Ok code, s') ->
  exists sch elCode,
    elements (schema cxt) = Some sch /\
    pc (with_schema cxt sch) s = (Ok elCode, s') /\
    forall t r env st st0 k acc st1,
      @parseToken I Empty_set cxt "[" env st = Next tt st0 ->
      items_reach I cxt "]" (elements_block elCode t) env k
        (assign r t (JArr []), 0) st0 acc st1 ->
      k < fuel env ->
      items_cond "]" env st1 = true ->
      (forall v st2, elCode [] JUndefined env st1 = Return v st2 ->
                     code t r env st = Return v st2)
      /\ (forall m, elCode [] JUndefined env st1 = Throw m ->
                    code t r env st = Throw m).
Proof.
  intros H. unfold parseElements, cm_bind, sub_schema, cm_ret, cm_throw in H.
  destruct (elements (schema cxt)) as [sch |]; [| discriminate].
  destruct (pc (with_schema cxt sch) s) as [[elCode | e |] s1] eqn:Ep;
    try discriminate.
  injection H as <- <-. exists sch, elCode.
  split; [reflexivity |]. split; [exact Ep |].
  intros t r env st st0 k [data ix] st1 Htok Hr Hk Hc.
  destruct (@parseItems_block_aborts Empty_set _ I cxt "]"
              (elements_block elCode t) env k (assign r t (JArr []), 0) st0
              (data, ix) st1 Hr Hk Hc) as (HR & HT).
  split.
  - intros v st2 Hel. unfold bind at 1. rewrite Htok. unfold bind at 1.
    rewrite (HR v st2); [reflexivity |].
    unfold elements_block, bind, lift. rewrite Hel. reflexivity.
  - intros m Hel. unfold bind at 1. rewrite Htok. unfold bind at 1.
    rewrite (HT m); [reflexivity |].
    unfold elements_block, bind, lift. rewrite Hel. reflexivity.
Qed.

(** ** Calls of compiled parsers *)


(** ** Compilation *)

Lemma compilations_modify_env (sch : EnvId) (f : SchemaEnv -> SchemaEnv)
  (s : Ajv) :
  _compilations (modify_env sch f s) = _compilations s.
Proof. unfold modify_env. destruct (envs s sch); reflexivity. Qed.

Lemma parse_of_stored (sch : EnvId) (f : ParseFunc) (s : Ajv) :
  envs s sch <> None ->
  parse_of (compilations_delete sch (modify_env sch (set_parse (Some f)) s)) sch
  = Some f.
Proof.
  intros H. unfold parse_of. rewrite envs_compilations_delete.
  unfold modify_env. destruct (envs s sch) as [e |]; [| contradiction].
  cbn. unfold upd. rewrite Nat.eqb_refl. reflexivity.
Qed.

(** X10: what a call of [compileParser] that returns has done.  When the
    environment (or one of the same schema and root) is registered as in
    flight, that environment is returned and nothing is changed: no name is
    taken, no function made.  Otherwise the environment itself is returned,
    it holds the function just made, whose name is the one the scope handed
    out at the start, and it is no longer registered as in flight. *)
Theorem compileParser_stores_parse (I : Imports) (n : nat) (sch : EnvId)
  (defs : SchemaObjectMap) (s s' : Ajv) (id : EnvId) :
  envs s sch <> None ->
  compileParser n I sch defs s = (Ok id, s') ->
  match getCompilingSchema s sch with
  | Some c => id = c /\ s' = s
  | None =>
      id = sch /\ ~ In sch (_compilations s') /\
      exists f, parse_of s' sch = Some f /\ pf_name f = scope_names s
  end.
Proof.
  intros Hsch H. destruct n as [| n]; [discriminate |].
  cbn [compileParser] in H. unfold compileParser_body in H.
  destruct (getCompilingSchema s sch) as [c |].
  { injection H as <- <-. split; reflexivity. }
  revert H.
  generalize (match envs s sch with
              | Some e => se_schema e
              | None => empty_schema
              end).
  intros schema0 H.
  unfold cm_bind, scopeName, try_catch_rethrow_finally, cm_ret in H.
  cbn zeta in H.
  set (cxt := mkCxt sch defs schema0 (scope_names s)) in H.
  match type of H with
  | context [parserFunction I (parseCode n I) cxt ?x] => set (s_in := x) in H
  end.
  assert (Hin : envs s_in sch <> None).
  { unfold s_in. apply envs_modify_env. exact Hsch. }
  destruct (env_kept_parseCode_compileParser I n) as (Hpc & _).
  pose proof (env_kept_parserFunction I (parseCode n I) Hpc cxt s_in) as Hpf.
  destruct (parserFunction I (parseCode n I) cxt s_in) as [[f | e |] s2] eqn:Ep;
    cbn beta iota in H; try discriminate.
  injection H as <- <-. specialize (Hpf _ s2 eq_refl sch Hin).
  split; [reflexivity |]. split; [apply not_in_compilations_delete |].
  exists f. split; [apply parse_of_stored; exact Hpf |].
  destruct (parserFunction_run I (parseCode n I) cxt s_in s2 f Ep)
    as (code & _ & Hname & _).
  exact Hname.
Qed.

(** X11: a [ref] to a definition that holds no [ref] itself is compiled in
    place: the code is the code of the definition's schema, emitted for the
    same parse function, and neither a new environment nor a new function is
    made; [nullable] of the referring schema applies around it. *)
Theorem parseRef_inlines_ref_free (I : Imports) (n : nat) (cxt : ParseCxt)
  (r : string) (target : Schema) :
  form_by_priority (schema cxt) = Some F_ref ->
  ref (schema cxt) = Some r ->
  definitions_get (definitions cxt) r = Some target ->
  hasRef I target = false ->
  parseCode (S n) I cxt
  = parseNullable I cxt (fun c => parseCode n I (with_schema c target)).
Proof.
  intros Hform Href Hdef Hno. cbn [parseCode]. unfold parseCode_body.
  rewrite find_form_by_priority, Hform. cbn [genParse].
  unfold parseNullable, parseRef. rewrite Href, Hdef, Hno. reflexivity.
Qed.

(** X12: a [type] that is none of the names [parseType] handles itself and
    that [intRange] does not know makes the compilation fail with a
    [TypeError]; the environment is left without parse function and parse
    name and is not registered as in flight. *)
Theorem unknown_type_fails_compile (I : Imports) (n : nat) (sch : EnvId)
  (defs : SchemaObjectMap) (s : Ajv) (e : SchemaEnv) (ty : string) :
  envs s sch = Some e ->
  getCompilingSchema s sch = None ->
  form_by_priority (se_schema e) = Some F_type ->
  type (se_schema e) = Some ty ->
  ~ In ty named_types ->
  intRange I ty = None ->
  exists msg s',
    compileParser (S (S n)) I sch defs s = (Thrown (TypeError msg), s')
    /\ cleaned sch s'.
Proof.
  intros He Hget Hform Hty Hn Hr.
  assert (Hne : forall t, In t named_types -> String.eqb ty t = false).
  { intros t Hin. apply String.eqb_neq. intros ->. exact (Hn Hin). }
  assert (Hcode : forall cxt s0,
            schema cxt = se_schema e ->
            parseCode (S n) I cxt s0
            = (Thrown (TypeError "undefined is not iterable"), s0)).
  { intros cxt s0 Hs. cbn [parseCode]. unfold parseCode_body, parseNullable.
    rewrite find_form_by_priority, Hs, Hform. cbn beta iota delta [genParse].
    unfold parseType. rewrite ?Hs, Hty.
    rewrite (Hne "boolean"), (Hne "string"), (Hne "timestamp"),
      (Hne "float32"), (Hne "float64") by (cbn; tauto).
    cbn [orb]. rewrite Hr.
    destruct (negb (nullable (se_schema e))); reflexivity. }
  destruct (compileParser (S (S n)) I sch defs s) as [res s'] eqn:Ec.
  assert (Hres : res = Thrown (TypeError "undefined is not iterable")).
  { cbn [compileParser] in Ec. unfold compileParser_body in Ec.
    rewrite Hget, He in Ec.
    unfold cm_bind, scopeName, try_catch_rethrow_finally, parserFunction,
      cm_bind in Ec.
    rewrite Hcode in Ec by reflexivity.
    injection Ec as <- _. reflexivity. }
  subst res. exists "undefined is not iterable", s'. split; [reflexivity |].
  apply (compileParser_fails_clean I _ sch defs s s' _ Ec).
  rewrite He. discriminate.
Qed.

(** X13: for a [ref] to a definition that holds a [ref], [parseRef] makes a
    new environment for the definition's schema with the root of the current
    one, has it compiled, and emits a call of the parser of the environment
    that compilation returned: of its parse function when it has one then,
    and else (the definition is still being compiled, the reference is
    recursive) of whatever function its wrapper holds when the call is
    made. *)
Theorem parseRef_calls_compiled_parser (I : Imports)
  (pc : ParseCxt -> CM Code)
  (cp : EnvId -> SchemaObjectMap -> CM EnvId) (cxt : ParseCxt)
  (r : string) (target : Schema) (s s' : Ajv) (code : Code) :
  ref (schema cxt) = Some r ->
  definitions_get (definitions cxt) r = Some target ->
  hasRef I target = true ->
  parseRef I pc cp cxt s = (Ok code, s') ->
  exists s1 id,
    envs s1 (next_env s)
    = Some (mkSchemaEnv target (DefSchema r) (root_of s cxt) None None)
    /\ (forall i, i <> next_env s -> envs s1 i = envs s i)
    /\ cp (next_env s) (definitions cxt) s1 = (Ok id, s')
    /\ code = partialParse cxt (parser_of s' id).
Proof.
  intros Href Hdef Hhas H. unfold parseRef in H.
  rewrite Href, Hdef, Hhas in H. cbn beta iota zeta delta [negb] in H.
  fold (root_of s cxt) in H.
  set (s1 := snd (new_SchemaEnv target (DefSchema r) (root_of s cxt) s)).
  unfold cm_bind at 1 in H.
  change (new_SchemaEnv target (DefSchema r) (root_of s cxt) s)
    with (@Ok EnvId (next_env s), s1) in H.
  cbn beta iota in H.
  exists s1. unfold cm_bind at 1 in H.
  destruct (cp (next_env s) (definitions cxt) s1) as [[id | e |] s2] eqn:Ec;
    try discriminate.
  exists id. unfold cm_bind, getParser, cm_ret in H.
  assert (Hs : s2 = s' /\ code = partialParse cxt (parser_of s2 id)).
  { unfold parser_of, parse_of.
    destruct (envs s2 id) as [[x1 x2 x3 [p |] x5] |];
      injection H as <- <-; split; reflexivity. }
  destruct Hs as (<- & ->).
  split; [| split; [| split; reflexivity]].
  - unfold s1. cbn. unfold upd. rewrite Nat.eqb_refl. reflexivity.
  - intros i Hi. unfold s1. cbn. unfold upd.
    destruct (Nat.eqb i (next_env s)) eqn:E; [| reflexivity].
    apply Nat.eqb_eq in E. contradiction.
Qed.

(** ** The in-flight registry *)

Lemma registry_kept_ret {A} (a : A) : registry_kept (cm_ret a).
Proof. intros s r s' H _. injection H as _ <-. apply incl_refl. Qed.

Lemma registry_kept_throw {A} (e : Exn) : registry_kept (@cm_throw A e).
Proof. intros s r s' H _. injection H as _ <-. apply incl_refl. Qed.

Lemma registry_kept_bind {A B} (m : CM A) (k : A -> CM B) :
  registry_kept m -> (forall a, registry_kept (k a)) ->
  registry_kept (cm_bind m k).
Proof.
  intros Hm Hk s r s' H Hr. unfold cm_bind in H.
  destruct (m s) as [[a | e |] s1] eqn:Em.
  - apply incl_tran with (_compilations s1).
    + apply (Hk a s1 r s' H Hr).
    + apply (Hm s _ s1 Em). discriminate.
  - injection H as <- <-. apply (Hm s _ s1 Em). discriminate.
  - injection H as <- _. contradiction.
Qed.

Lemma registry_kept_map {A B} (f : A -> CM B) (l : list A) :
  (forall x, registry_kept (f x)) -> registry_kept (cm_map f l).
Proof.
  intros Hf. induction l as [| x rest IH]; cbn [cm_map].
  - apply registry_kept_ret.
  - apply registry_kept_bind; [apply Hf |]. intros y.
    apply registry_kept_bind; [exact IH |]. intros ys. apply registry_kept_ret.
Qed.

Section RegistryKept.
Variable I : Imports.
Variable pc : ParseCxt -> CM Code.
Variable cp : EnvId -> SchemaObjectMap -> CM EnvId.
Hypothesis Hpc : forall cxt, registry_kept (pc cxt).
Hypothesis Hcp : forall sch defs, registry_kept (cp sch defs).

Lemma registry_kept_sub_schema (o : option Schema) :
  registry_kept (sub_schema o).
Proof. destruct o; [apply registry_kept_ret | apply registry_kept_throw]. Qed.

Lemma registry_kept_parsePropertyValue cxt sch :
  registry_kept (parsePropertyValue pc cxt sch).
Proof.
  unfold parsePropertyValue. apply registry_kept_bind; [apply Hpc |].
  intros code. apply registry_kept_ret.
Qed.

Lemma registry_kept_parseDefinedProperty cxt schemas :
  registry_kept (parseDefinedProperty pc cxt schemas).
Proof.
  unfold parseDefinedProperty. apply registry_kept_map. intros [prop sch].
  apply registry_kept_bind; [apply registry_kept_parsePropertyValue |].
  intros code. apply registry_kept_ret.
Qed.

Lemma registry_kept_parseSchemaProperties cxt disc :
  registry_kept (parseSchemaProperties I pc cxt disc).
Proof.
  unfold parseSchemaProperties.
  apply registry_kept_bind; [apply registry_kept_parseDefinedProperty |].
  intros required.
  apply registry_kept_bind; [apply registry_kept_parseDefinedProperty |].
  intros optional.
  destruct (properties (schema cxt)) as [[| p ps] |];
    [apply registry_kept_throw | apply registry_kept_ret
     | apply registry_kept_ret].
Qed.

Lemma registry_kept_parseRef cxt : registry_kept (parseRef I pc cp cxt).
Proof.
  unfold parseRef.
  destruct (definitions_get (definitions cxt) _) as [refSchema |];
    [| apply registry_kept_throw].
  destruct (negb (hasRef I refSchema)); [apply Hpc |].
  intros s r s' H. cbn beta zeta in H. revert H.
  generalize (match envs s (schemaEnv cxt) with
              | Some e => se_root e
              | None => schemaEnv cxt
              end).
  intros root. revert s r s'.
  apply registry_kept_bind.
  - intros s r s' H _. unfold new_SchemaEnv in H. injection H as _ <-.
    apply incl_refl.
  - intros env. apply registry_kept_bind; [apply Hcp |]. intros sch.
    apply registry_kept_bind.
    + intros s r s' H _. unfold getParser in H.
      destruct (envs s sch) as [[x1 x2 x3 [p |] x5] |];
        injection H as _ <-; apply incl_refl.
    + intros f. apply registry_kept_ret.
Qed.

Lemma registry_kept_genParse form cxt :
  registry_kept (genParse I pc cp form cxt).
Proof.
  destruct form; cbn [genParse].
  - unfold parseElements.
    apply registry_kept_bind; [apply registry_kept_sub_schema |]. intros sch.
    apply registry_kept_bind; [apply Hpc |]. intros code.
    apply registry_kept_ret.
  - unfold parseValues, parseKeyValue.
    apply registry_kept_bind; [apply registry_kept_sub_schema |]. intros sch.
    apply registry_kept_bind.
    + apply registry_kept_bind; [apply registry_kept_parsePropertyValue |].
      intros code. apply registry_kept_ret.
    + intros block. apply registry_kept_ret.
  - unfold parseDiscriminator. apply registry_kept_bind.
    + apply registry_kept_map. intros [tagValue branch].
      apply registry_kept_bind; [apply registry_kept_parseSchemaProperties |].
      intros code. apply registry_kept_ret.
    + intros branches. apply registry_kept_ret.
  - unfold parseProperties.
    apply registry_kept_bind; [apply registry_kept_parseSchemaProperties |].
    intros body. apply registry_kept_ret.
  - unfold parseProperties.
    apply registry_kept_bind; [apply registry_kept_parseSchemaProperties |].
    intros body. apply registry_kept_ret.
  - apply registry_kept_ret.
  - destruct (parseType I cxt);
      [apply registry_kept_ret | apply registry_kept_throw].
  - apply registry_kept_parseRef.
Qed.

Lemma registry_kept_parseCode_body cxt :
  registry_kept (parseCode_body I pc cp cxt).
Proof.
  unfold parseCode_body, parseNullable.
  assert (Hform : registry_kept
            (match find (fun key => key_in key (schema cxt)) jtdForms with
             | Some f => genParse I pc cp f
             | None => parseEmpty_gen I
             end cxt)).
  { destruct (find _ jtdForms);
      [apply registry_kept_genParse | apply registry_kept_ret]. }
  destruct (negb (nullable (schema cxt))); [exact Hform |].
  apply registry_kept_bind; [exact Hform |]. intros form.
  apply registry_kept_ret.
Qed.

Lemma registry_kept_parserFunction cxt :
  registry_kept (parserFunction I pc cxt).
Proof.
  unfold parserFunction. apply registry_kept_bind; [apply Hpc |].
  intros code. apply registry_kept_ret.
Qed.
End RegistryKept.

Lemma in_compilations_add (sch x : EnvId) (s : Ajv) :
  In x (_compilations (compilations_add sch s)) ->
  x = sch \/ In x (_compilations s).
Proof.
  unfold compilations_add. cbn.
  destruct (existsb (Nat.eqb sch) (_compilations s)); [right; assumption |].
  intros [-> | H]; [left; reflexivity | right; exact H].
Qed.

(** What the body of [compileParser] leaves in the registry. *)
Lemma compileParser_body_registry (I : Imports)
  (pc : ParseCxt -> CM Code)
  (Hpc : forall cxt, registry_kept (pc cxt))
  (sch : EnvId) (defs : SchemaObjectMap) (s s' : Ajv) (r : Res EnvId) :
  compileParser_body I pc sch defs s = (r, s') ->
  r <> NoFuel ->
  incl (_compilations s') (_compilations s)
  /\ (getCompilingSchema s sch = None -> ~ In sch (_compilations s')).
Proof.
  intros H Hr. unfold compileParser_body in H.
  destruct (getCompilingSchema s sch) as [c |].
  { injection H as <- <-. split; [apply incl_refl | discriminate]. }
  revert H.
  generalize (match envs s sch with
              | Some e => se_schema e
              | None => empty_schema
              end).
  intros schema0 H.
  unfold cm_bind, scopeName, try_catch_rethrow_finally, cm_ret in H.
  cbn zeta in H.
  set (cxt := mkCxt sch defs schema0 (scope_names s)) in H.
  match type of H with
  | context [parserFunction I pc cxt ?x] => set (s_in := x) in H
  end.
  assert (Hin : forall x, In x (_compilations s_in) ->
                          x = sch \/ In x (_compilations s)).
  { intros x Hx. unfold s_in in Hx. rewrite compilations_modify_env in Hx.
    apply in_compilations_add in Hx. exact Hx. }
  pose proof (registry_kept_parserFunction I pc Hpc cxt s_in) as Hpf.
  assert (Hfinal : forall s2 s3,
            incl (_compilations s2) (_compilations s_in) ->
            _compilations s3 = _compilations s2 ->
            incl (_compilations (compilations_delete sch s3)) (_compilations s)).
  { intros s2 s3 Hincl Heq x Hx. cbn in Hx. rewrite Heq in Hx.
    apply filter_In in Hx as (Hx & Hne).
    destruct (Hin x (Hincl x Hx)) as [-> | Hold]; [| exact Hold].
    rewrite Nat.eqb_refl in Hne. discriminate. }
  destruct (parserFunction I pc cxt s_in) as [[f | e |] s2] eqn:Ep;
    cbn beta iota in H; injection H as <- <-.
  - split; [| intros _; apply not_in_compilations_delete].
    apply (Hfinal s2); [apply (Hpf _ s2 eq_refl); discriminate |].
    apply compilations_modify_env.
  - split; [| intros _; apply not_in_compilations_delete].
    apply (Hfinal s2); [apply (Hpf _ s2 eq_refl); discriminate |].
    rewrite !compilations_modify_env. reflexivity.
  - contradiction.
Qed.

Lemma registry_kept_parseCode_compileParser (I : Imports) (n : nat) :
  (forall cxt, registry_kept (parseCode n I cxt))
  /\ (forall sch defs, registry_kept (compileParser n I sch defs)).
Proof.
  induction n as [| n (IHp & IHc)].
  - split; intros; intros s r s' H Hr; injection H as <- _; contradiction.
  - split.
    + intros cxt. cbn [parseCode].
      apply registry_kept_parseCode_body; assumption.
    + intros sch defs s r s' H Hr. cbn [compileParser] in H.
      apply (compileParser_body_registry I (parseCode n I) IHp sch defs
               s s' r H Hr).
Qed.

(** X14: when [compileParser] has come back, with an environment or with an
    exception, every environment registered as in flight was registered
    before the call: the environments compiled on the way for references,
    also those whose compilation failed, have all been taken out again; and
    unless the call found its environment in flight already, that
    environment is not registered either. *)
Theorem compileParser_restores_registry (I : Imports) (n : nat) (sch : EnvId)
  (defs : SchemaObjectMap) (s s' : Ajv) (r : Res EnvId) :
  compileParser n I sch defs s = (r, s') ->
  r <> NoFuel ->
  incl (_compilations s') (_compilations s)
  /\ (getCompilingSchema s sch = None -> ~ In sch (_compilations s')).
Proof.
  intros H Hr. destruct n as [| n].
  - injection H as <- _. contradiction.
  - cbn [compileParser] in H.
    destruct (registry_kept_parseCode_compileParser I n) as (Hp & _).
    exact (compileParser_body_registry I (parseCode n I) Hp sch defs s s' r
             H Hr).
Qed.

(** ** Item loops without a comma *)

(** X15: a turn of the item loop whose item is not followed by a comma (after
    whitespace) is the last one: the loop is left with the item taken in,
    and the end token must come next (after whitespace), else a syntax error
    is recorded there.  Two items are never read without a comma between
    them. *)
Theorem parseItems_without_comma (I : Imports) (L A : Type)
  (cxt : ParseCxt) (endToken : string) (block : A -> Stmt A A) (env : REnv)
  (k : nat) (acc : A) (st : RState) (acc' : A) (st' : RState)
  (acc1 : A) (st1 : RState) :
  items_reach I cxt endToken block env k acc st acc' st' ->
  k < fuel env ->
  items_cond endToken env st' = true ->
  block acc' env st' = Next acc1 st1 ->
  1 <= String.length endToken ->
  let st2 := after_whitespace I env st1 in
  let st3 := after_whitespace I env st2 in
  String.eqb (substring (jsonPos st2) 1 (json env)) "," = false ->
  @parseItems I L A cxt endToken block acc env st =
    if String.eqb
         (substring (jsonPos st3) (String.length endToken) (json env)) endToken
    then Next acc1 (advance (String.length endToken) st3)
    else Return (failure_value env st3)
                (record_error cxt (unexpected_token env st3) st3).
Proof. apply parseItems_last_turn. Qed.

(** ** Declared properties *)

(** The code generated for the first declaration of a name is the first
    branch of that name. *)
Lemma find_declared_code (pc : ParseCxt -> CM Code)
  (cxt : ParseCxt) (decls : list (string * Schema))
  (codes : list (string * (JsVal -> CodeOf JsVal)))
  (name : string) (d : string * Schema) :
  Forall2 (property_code_of pc cxt) decls codes ->
  find (fun d => String.eqb name (fst d)) decls = Some d ->
  exists c code s1 s2,
    find (fun c => strict_eq_str (JStr name) (fst c)) codes = Some c
    /\ pc (with_schema cxt (snd d)) s1 = (Ok code, s2)
    /\ snd c = fun key t r => lift (code (t ++ [js_to_string key])%list r).
Proof.
  induction 1 as [| [prop sch] [prop' c'] decls codes (Hn & s1 & s2 & vc & Hvc & Hc) _ IH];
    intros Hfind; [discriminate |].
  cbn [fst snd] in Hn, Hvc, Hc. subst prop'.
  cbn [find fst] in Hfind |- *.
  cbn [strict_eq_str]. destruct (String.eqb name prop).
  - injection Hfind as <-. eexists. exists vc, s1, s2.
    split; [reflexivity |]. split; [exact Hvc | exact Hc].
  - apply IH. exact Hfind.
Qed.


(** ** The further properties at concrete inputs *)

(** On [ true] the boolean code yields [true] at position 5, in a variable
    and in a property of an object. *)
Lemma parseType_boolean_literals_witness :
  exists code,
    @parseType Scanner.imports Empty_set (example_cxt (type_schema "boolean"))
    = Some code
    /\ code [] JUndefined (mkEnv " true" false 5 no_wrappers)
         (mkState 0 no_errors)
       = Next (JBool true) (mkState 5 no_errors)
    /\ code ["a"] (JObj []) (mkEnv " true" false 5 no_wrappers)
         (mkState 0 no_errors)
       = Next (JObj [("a", JBool true)]) (mkState 5 no_errors).
Proof.
  destruct (parseType_boolean_literals Scanner.imports Empty_set
              (example_cxt (type_schema "boolean")) eq_refl)
    as (code & Hcode & Hrun).
  exists code. split; [exact Hcode |]. rewrite !Hrun. split; reflexivity.
Defined.

(** On [x1] the number code fails at position 0. *)
Lemma parseNumber_rejects_other_start_witness :
  @parseNumber Scanner.imports Empty_set (example_cxt (type_schema "float64"))
    None [] JUndefined (mkEnv "x1" false 2 no_wrappers) (mkState 0 no_errors)
  = Return (RVal JUndefined)
      (mkState 0 (upd 0 (Some (mkError "unexpected token x" 0)) no_errors)).
Proof.
  apply (parseNumber_rejects_other_start Scanner.imports Empty_set
           (example_cxt (type_schema "float64")) None [] JUndefined
           (mkEnv "x1" false 2 no_wrappers) (mkState 0 no_errors)).
  intros c Hc. injection Hc as <-. reflexivity.
Defined.

(** On [256] the code of [uint8] fails with the range error at position 3. *)
Lemma parseType_integer_range_witness :
  exists code,
    @parseType Scanner.imports Empty_set (example_cxt (type_schema "uint8"))
    = Some code
    /\ forall r,
         code [] r (mkEnv "256" false 3 no_wrappers) (mkState 0 no_errors)
         = Return (RVal JUndefined)
             (mkState 3
                (upd 0 (Some (mkError "integer out of range" 3)) no_errors)).
Proof.
  assert (Hn : ~ In "uint8" named_types).
  { cbn. intros [H | [H | [H | [H | [H | []]]]]]; discriminate H. }
  destruct (parseType_integer_range Scanner.imports Empty_set
              (example_cxt (type_schema "uint8")) "uint8" 0%Z 255%Z 3
              (mkEnv "256" false 3 no_wrappers) (mkState 0 no_errors)
              "2"%char 256%Z eq_refl Hn eq_refl eq_refl eq_refl eq_refl)
    as (code & Hcode & Hvar & _).
  exists code. split; [exact Hcode | exact Hvar].
Defined.

(** On a quoted string the timestamp code yields the string. *)
Lemma parseType_timestamp_checked_witness :
  exists code,
    @parseType Scanner.imports Empty_set
      (example_cxt (type_schema "timestamp")) = Some code
    /\ code [] JUndefined (mkEnv (quoted "t") false 3 no_wrappers)
         (mkState 0 no_errors)
       = Next (JStr "t") (mkState 3 no_errors).
Proof.
  destruct (parseType_timestamp_checked Scanner.imports Empty_set
              (example_cxt (type_schema "timestamp")) eq_refl)
    as (code & Hcode & Hrun).
  exists code. split; [exact Hcode |]. rewrite Hrun. reflexivity.
Defined.

(** On the empty text an opening bracket is missed at position 0. *)
Lemma parseToken_at_end_of_input_witness :
  @parseToken Scanner.imports Empty_set (example_cxt int8_list_schema) "["
    (mkEnv EmptyString false 0 no_wrappers) (mkState 0 no_errors)
  = Return (RVal JUndefined)
      (mkState 0
         (upd 0 (Some (mkError "unexpected token undefined" 0)) no_errors)).
Proof.
  exact (parseToken_at_end_of_input Scanner.imports Empty_set
           (example_cxt int8_list_schema) "["
           (mkEnv EmptyString false 0 no_wrappers) (mkState 0 no_errors)
           (le_n 1) (le_n 0)).
Defined.

(** After the bracket of [[1,]] one turn reaches the closing bracket: the
    list with a comma before its end is accepted. *)
Lemma parseItems_stops_at_end_token_witness :
  @parseItems Scanner.imports Empty_set _ (example_cxt int8_list_schema) "]"
    (elements_block int8_code []) (JArr [], 0)
    (mkEnv "[1,]" false 4 no_wrappers) (mkState 1 no_errors)
  = Next (JArr [JNum 1], 1) (mkState 4 no_errors).
Proof.
  exact (parseItems_stops_at_end_token Scanner.imports Empty_set _
           (example_cxt int8_list_schema) "]" (elements_block int8_code [])
           (mkEnv "[1,]" false 4 no_wrappers) 1
           (JArr [], 0) (mkState 1 no_errors) (JArr [JNum 1], 1)
           (mkState 3 no_errors)
           (reach_turn Scanner.imports (example_cxt int8_list_schema) "]"
              (elements_block int8_code []) (mkEnv "[1,]" false 4 no_wrappers)
              0 (JArr [], 0) (mkState 1 no_errors)
              (JArr [JNum 1], 1) (mkState 3 no_errors)
              (JArr [JNum 1], 1) (mkState 3 no_errors) eq_refl eq_refl
              (reach_start Scanner.imports (example_cxt int8_list_schema) "]"
                 (elements_block int8_code [])
                 (mkEnv "[1,]" false 4 no_wrappers)
                 (JArr [JNum 1], 1) (mkState 3 no_errors)))
           (le_S 1 3 (le_S 1 2 (le_S 1 1 (le_n 1)))) eq_refl eq_refl eq_refl).
Defined.

(** The code of [{elements: {type: "int8"}}] on [[1,]]: after one turn the
    variable holds the array of the one element, which is the result. *)
Lemma parseElements_stores_in_order_witness :
  the_result (fun _ _ => ret JNull)
    (parseElements Scanner.imports (parseCode 2 Scanner.imports)
       (example_cxt int8_list_schema) (new_Ajv int8_list_schema))
    [] JUndefined (mkEnv "[1,]" false 4 no_wrappers) (mkState 0 no_errors)
  = Next (JArr [JNum 1]) (mkState 4 no_errors).
Proof.
  destruct (parseElements_stores_in_order Scanner.imports
              (parseCode 2 Scanner.imports) (example_cxt int8_list_schema)
              (new_Ajv int8_list_schema)
              (snd (parseElements Scanner.imports (parseCode 2 Scanner.imports)
                      (example_cxt int8_list_schema)
                      (new_Ajv int8_list_schema)))
              (the_result (fun _ _ => ret JNull)
                 (parseElements Scanner.imports (parseCode 2 Scanner.imports)
                    (example_cxt int8_list_schema)
                    (new_Ajv int8_list_schema)))
              eq_refl) as (sch & elCode & He & Hc & Hrun).
  injection He as <-.
  apply (f_equal fst) in Hc. cbn [fst] in Hc. injection Hc as <-.
  destruct (Hrun JUndefined (mkEnv "[1,]" false 4 no_wrappers)
              (mkState 0 no_errors) (mkState 1 no_errors) 1
              (JArr [JNum 1], 1) (mkState 3 no_errors) eq_refl
              (reach_turn Scanner.imports (example_cxt int8_list_schema) "]"
                 (elements_block int8_code [])
                 (mkEnv "[1,]" false 4 no_wrappers)
                 0 (JArr [], 0) (mkState 1 no_errors)
                 (JArr [JNum 1], 1) (mkState 3 no_errors)
                 (JArr [JNum 1], 1) (mkState 3 no_errors) eq_refl eq_refl
                 (reach_start Scanner.imports (example_cxt int8_list_schema)
                    "]" (elements_block int8_code [])
                    (mkEnv "[1,]" false 4 no_wrappers)
                    (JArr [JNum 1], 1) (mkState 3 no_errors))))
    as (data & Hacc & _ & Hend).
  injection Hacc as <-.
  exact (Hend (le_S 1 3 (le_S 1 2 (le_S 1 1 (le_n 1)))) eq_refl eq_refl).
Defined.

(** The same schema on [[x]: the failure of the first element, recorded at
    position 1, is the failure of the array. *)
Lemma parseElements_fails_with_element_witness :
  the_result (fun _ _ => ret JNull)
    (parseElements Scanner.imports (parseCode 3 Scanner.imports)
       (example_cxt int8_list_schema) (new_Ajv int8_list_schema))
    [] JUndefined (mkEnv "[x]" false 3 no_wrappers) (mkState 0 no_errors)
  = Return (RVal JUndefined)
      (mkState 1 (upd 0 (Some (mkError "unexpected token x" 1)) no_errors)).
Proof.
  destruct (parseElements_fails_with_element Scanner.imports
              (parseCode 3 Scanner.imports) (example_cxt int8_list_schema)
              (new_Ajv int8_list_schema)
              (snd (parseElements Scanner.imports (parseCode 3 Scanner.imports)
                      (example_cxt int8_list_schema)
                      (new_Ajv int8_list_schema)))
              (the_result (fun _ _ => ret JNull)
                 (parseElements Scanner.imports (parseCode 3 Scanner.imports)
                    (example_cxt int8_list_schema)
                    (new_Ajv int8_list_schema)))
              eq_refl) as (sch & elCode & He & Hc & Hrun).
  injection He as <-.
  apply (f_equal fst) in Hc. cbn [fst] in Hc. injection Hc as <-.
  destruct (Hrun [] JUndefined (mkEnv "[x]" false 3 no_wrappers)
              (mkState 0 no_errors) (mkState 1 no_errors) 0
              (JArr [], 0) (mkState 1 no_errors) eq_refl
              (reach_start Scanner.imports (example_cxt int8_list_schema)
                 "]" (elements_block int8_code [] )
                 (mkEnv "[x]" false 3 no_wrappers)
                 (JArr [], 0) (mkState 1 no_errors))
              (Nat.lt_0_succ 2) eq_refl) as (HR & _).
  exact (HR _ _ eq_refl).
Defined.

(** After compiling [{type: "string"}] in a fresh instance the environment
    holds the function named 0. *)
Lemma compileParser_stores_parse_witness :
  ~ In 0 (_compilations (compiled Scanner.imports 3 (type_schema "string") []))
  /\ exists f,
       parse_of (compiled Scanner.imports 3 (type_schema "string") []) 0
       = Some f /\ pf_name f = 0.
Proof.
  assert (He : envs (new_Ajv (type_schema "string")) 0 <> None)
    by (cbn; discriminate).
  destruct (compileParser_stores_parse Scanner.imports 3 0 []
              (new_Ajv (type_schema "string"))
              (compiled Scanner.imports 3 (type_schema "string") []) 0
              He eq_refl) as (_ & Hreg & Hf).
  split; [exact Hreg | exact Hf].
Defined.

(** [{ref: "name"}] with [{name: {type: "string"}}] is compiled as the
    string schema itself. *)
Lemma parseRef_inlines_ref_free_witness :
  parseCode 3 Scanner.imports name_cxt
  = parseNullable Scanner.imports name_cxt
      (fun c => parseCode 2 Scanner.imports
                  (with_schema c (type_schema "string"))).
Proof.
  exact (parseRef_inlines_ref_free Scanner.imports 2 name_cxt "name"
           (type_schema "string") eq_refl eq_refl eq_refl eq_refl).
Defined.

(** [{type: "colour"}] does not compile. *)
Lemma unknown_type_fails_compile_witness :
  exists msg s',
    compileParser 2 Scanner.imports 0 [] (new_Ajv (type_schema "colour"))
    = (Thrown (TypeError msg), s')
    /\ cleaned 0 s'.
Proof.
  assert (Hn : ~ In "colour" named_types).
  { cbn. intros [H | [H | [H | [H | [H | []]]]]]; discriminate H. }
  exact (unknown_type_fails_compile Scanner.imports 0 0 []
           (new_Ajv (type_schema "colour"))
           (the_env (new_Ajv (type_schema "colour")) 0) "colour"
           eq_refl eq_refl eq_refl eq_refl Hn eq_refl).
Defined.

(** The reference of [loop_schema] is compiled in an environment of its own
    and called through it. *)
Lemma parseRef_calls_compiled_parser_witness :
  exists id,
    the_result (fun _ _ => ret JNull)
      (parseRef Scanner.imports (parseCode 3 Scanner.imports)
         (compileParser 3 Scanner.imports) loop_cxt (new_Ajv loop_schema))
    = partialParse loop_cxt
        (parser_of
           (snd (parseRef Scanner.imports (parseCode 3 Scanner.imports)
                   (compileParser 3 Scanner.imports) loop_cxt
                   (new_Ajv loop_schema)))
           id).
Proof.
  destruct (parseRef_calls_compiled_parser Scanner.imports
              (parseCode 3 Scanner.imports) (compileParser 3 Scanner.imports)
              loop_cxt "loop" loop_schema (new_Ajv loop_schema)
              (snd (parseRef Scanner.imports (parseCode 3 Scanner.imports)
                      (compileParser 3 Scanner.imports) loop_cxt
                      (new_Ajv loop_schema)))
              (the_result (fun _ _ => ret JNull)
                 (parseRef Scanner.imports (parseCode 3 Scanner.imports)
                    (compileParser 3 Scanner.imports) loop_cxt
                    (new_Ajv loop_schema)))
              eq_refl eq_refl eq_refl eq_refl)
    as (s1 & id & _ & _ & _ & Hcode).
  exists id. exact Hcode.
Defined.

(** After compiling [loop_schema], whose reference is compiled on the way,
    nothing is registered as in flight. *)
Lemma compileParser_restores_registry_witness :
  incl (_compilations (loop_instance 0)) []
  /\ ~ In 0 (_compilations (loop_instance 0)).
Proof.
  assert (Hr : Ok 0 <> @NoFuel EnvId) by discriminate.
  destruct (compileParser_restores_registry Scanner.imports 5 0 loop_defs
              (new_Ajv loop_schema) (loop_instance 0) (Ok 0) eq_refl Hr)
    as (Hincl & Hnot).
  split; [exact Hincl | exact (Hnot eq_refl)].
Defined.

(** After the bracket of [[1 2]] the first item is not followed by a comma:
    the second is not read, and the closing bracket is missed at it. *)
Lemma parseItems_without_comma_witness :
  @parseItems Scanner.imports Empty_set _ (example_cxt int8_list_schema) "]"
    (elements_block int8_code []) (JArr [], 0)
    (mkEnv "[1 2]" false 5 no_wrappers) (mkState 1 no_errors)
  = Return (RVal JUndefined)
      (mkState 3 (upd 0 (Some (mkError "unexpected token 2" 3)) no_errors)).
Proof.
  exact (parseItems_without_comma Scanner.imports Empty_set _
           (example_cxt int8_list_schema) "]" (elements_block int8_code [])
           (mkEnv "[1 2]" false 5 no_wrappers) 0
           (JArr [], 0) (mkState 1 no_errors) (JArr [], 0)
           (mkState 1 no_errors)
           (JArr [JNum 1], 1) (mkState 2 no_errors)
           (reach_start Scanner.imports (example_cxt int8_list_schema) "]"
              (elements_block int8_code [])
              (mkEnv "[1 2]" false 5 no_wrappers)
              (JArr [], 0) (mkState 1 no_errors))
           (le_S 1 4 (le_S 1 3 (le_S 1 2 (le_S 1 1 (le_n 1)))))
           eq_refl eq_refl (le_n 1) eq_refl).
Defined.

